(** * The Lingo.dev SDK engine: a shallow embedding of [packages/sdk/src/index.ts]

    The development follows the source file function by function:
    - JavaScript strings, [trim], [split], [parseInt] and number printing;
    - JSON values and plain objects with JavaScript's own-property order;
    - [countWordsInRecord] and [extractPayloadChunks];
    - [localizeChunk] and [_localizeRaw] over an explicit environment
      (the provider behind [fetch], the abort signal, the callbacks);
    - [localizeChat];
    - the DOM part of [localizeHtml]: [getPath], [processNode] and the
      re-application of the translated entries.

    Modelling conventions.
    - A JavaScript string is a [string]: one character per UTF-16 code unit,
      for the code units below 256.
    - A JavaScript number inside a JSON value is kept as the text that
      [ToString] gives for it; the code only prints numbers or tests them
      for zero.
    - A plain object is the list of its own enumerable properties in the
      order [Object.entries] reports them. *)

From Stdlib Require Import String Ascii List Bool Arith NArith ZArith Lia.
From Stdlib Require Import DecimalString DecimalNat Sorted.
Import ListNotations.
Open Scope string_scope.
Open Scope list_scope.
Open Scope nat_scope.
Set Warnings "-register-all".


(* ================================================================== *)
(** ** JavaScript strings *)

Module JsString.

(** [WhiteSpace] and [LineTerminator] code units below 256: TAB, LF, VT,
    FF, CR, SP and NBSP.  These are the characters matched by [\s] and
    removed by [trim]. *)
Definition is_ws (c : ascii) : bool :=
  let n := N_of_ascii c in
  ((9 <=? n) && (n <=? 13) || (n =? 32) || (n =? 160))%N.

Fixpoint trimStart (s : string) : string :=
  match s with
  | EmptyString => EmptyString
  | String c s' => if is_ws c then trimStart s' else s
  end.

Fixpoint trimEnd (s : string) : string :=
  match s with
  | EmptyString => EmptyString
  | String c s' =>
      match trimEnd s' with
      | EmptyString => if is_ws c then EmptyString else String c EmptyString
      | r => String c r
      end
  end.

(** [s.trim()] *)
Definition trim (s : string) : string := trimEnd (trimStart s).

(** Truthiness of a string: [Boolean(s)]. *)
Definition truthy (s : string) : bool :=
  match s with EmptyString => false | _ => true end.

(** [s.split(/\s+/)]: every maximal run of white space is one separator.
    [cur] is the token being read, [in_sep] tells that the previous
    character belonged to a separator. *)
Fixpoint split_ws_go (s : string) (cur : string) (in_sep : bool) : list string :=
  match s with
  | EmptyString => [cur]
  | String c s' =>
      if is_ws c
      then (if in_sep then split_ws_go s' "" true
            else cur :: split_ws_go s' "" true)
      else split_ws_go s' (cur ++ String c "") false
  end.

Definition split_ws (s : string) : list string := split_ws_go s "" false.

(** [s.split(sep)] for a one-character separator string. *)
Fixpoint split_go (sep : ascii) (s : string) (cur : string) : list string :=
  match s with
  | EmptyString => [cur]
  | String c s' =>
      if Ascii.eqb c sep then cur :: split_go sep s' ""
      else split_go sep s' (cur ++ String c "")
  end.

Definition split (sep : ascii) (s : string) : list string := split_go sep s "".

(** [s.includes(t)] *)
Fixpoint includes (s t : string) : bool :=
  if prefix t s then true
  else match s with
       | EmptyString => false
       | String _ s' => includes s' t
       end.

(** [s.toLowerCase()] on code units below 256: A-Z, and the Latin-1
    capitals U+00C0-U+00DE but U+00D7, are moved up by 32. *)
Definition lower_char (c : ascii) : ascii :=
  let n := N_of_ascii c in
  if ((65 <=? n) && (n <=? 90)
      || (192 <=? n) && (n <=? 222) && negb (n =? 215))%N
  then ascii_of_N (n + 32) else c.

Fixpoint toLowerCase (s : string) : string :=
  match s with
  | EmptyString => EmptyString
  | String c s' => String (lower_char c) (toLowerCase s')
  end.

(** The ASCII lower-casing that the DOM applies to names: A-Z are moved
    up by 32 and every other code unit is kept. *)
Definition ascii_lower_char (c : ascii) : ascii :=
  let n := N_of_ascii c in
  if ((65 <=? n) && (n <=? 90))%N then ascii_of_N (n + 32) else c.

Fixpoint asciiLowercase (s : string) : string :=
  match s with
  | EmptyString => EmptyString
  | String c s' => String (ascii_lower_char c) (asciiLowercase s')
  end.

(** The character [c] does not occur in [s]. *)
Fixpoint lacks (c : ascii) (s : string) : bool :=
  match s with
  | EmptyString => true
  | String c' s' => negb (Ascii.eqb c' c) && lacks c s'
  end.

(** [xs.join(sep)] *)
Fixpoint join (sep : string) (xs : list string) : string :=
  match xs with
  | [] => ""
  | [x] => x
  | x :: rest => x ++ sep ++ join sep rest
  end.

End JsString.

(* ================================================================== *)
(** ** Numbers as the source prints and parses them *)

Module JsNumber.

(** [String(i)] for a non-negative integer below 2^53: its decimal
    digits. *)
Definition toString (i : nat) : string :=
  NilEmpty.string_of_uint (Nat.to_uint i).

Definition digit (radix : N) (c : ascii) : option N :=
  let n := N_of_ascii c in
  let d :=
    if ((48 <=? n) && (n <=? 57))%N then Some (n - 48)%N
    else if ((97 <=? n) && (n <=? 122))%N then Some (n - 87)%N
    else if ((65 <=? n) && (n <=? 90))%N then Some (n - 55)%N
    else None in
  match d with
  | Some v => if (v <? radix)%N then Some v else None
  | None => None
  end.

(** The longest prefix of digits of [s], read in [radix]; [seen] tells
    whether a digit was read. *)
Fixpoint digits (radix : N) (s : string) (acc : N) (seen : bool) : option N :=
  match s with
  | EmptyString => if seen then Some acc else None
  | String c s' =>
      match digit radix c with
      | Some d => digits radix s' (acc * radix + d)%N true
      | None => if seen then Some acc else None
      end
  end.

(** Every character of [s] is a decimal digit. *)
Fixpoint digits_only (s : string) : bool :=
  match s with
  | EmptyString => true
  | String c s' =>
      match digit 10 c with Some _ => digits_only s' | None => false end
  end.

(** The result of [parseInt]: [NaN], or an integer with its sign (the
    sign is kept apart because [parseInt("-0")] is [-0]). *)
Inductive parsed := NaN | Int (negative : bool) (magnitude : N).

(** [parseInt(s)] with no radix argument: leading white space is
    skipped, one sign is read, a [0x] or [0X] prefix selects radix 16, and
    the longest prefix of digits is the value. *)
Definition parseInt (s : string) : parsed :=
  let s1 := JsString.trimStart s in
  let '(neg, s2) :=
    match s1 with
    | String c r =>
        if Ascii.eqb c "-" then (true, r)
        else if Ascii.eqb c "+" then (false, r)
        else (false, s1)
    | EmptyString => (false, s1)
    end in
  let '(radix, s3) :=
    match s2 with
    | String c (String x r) =>
        if Ascii.eqb c "0" && (Ascii.eqb x "x" || Ascii.eqb x "X")
        then (16%N, r) else (10%N, s2)
    | _ => (10%N, s2)
    end in
  match digits radix s3 0%N false with
  | Some n => Int neg n
  | None => NaN
  end.

(** [xs[n]] for an array [xs] and a number [n] that [parseInt] returned:
    the property key is [ToString(n)], so [-0] reads index 0 and any
    other negative number, or [NaN], reads [undefined]. *)
Definition index {A} (xs : list A) (n : parsed) : option A :=
  match n with
  | NaN => None
  | Int neg m =>
      if neg && negb (m =? 0)%N then None else nth_error xs (N.to_nat m)
  end.

End JsNumber.

(* ================================================================== *)
(** ** JSON values and plain objects *)

(** What [JSON.parse] can return, and what a payload holds ([Z.any()]). *)
Inductive value : Type :=
| VNull
| VBool (b : bool)
| VNum (text : string)
| VStr (s : string)
| VArr (items : list value)
| VObj (entries : list (string * value)).

(** A plain object: its own enumerable string-keyed properties, in
    [Object.entries] order. *)
Definition object : Type := list (string * value).

Module JsObject.

Definition entries (o : object) : list (string * value) := o.
Definition keys (o : object) : list string := map fst o.
Definition values (o : object) : list value := map snd o.

(** An array index is a canonical numeric string with value at most
    2^32 - 2.  Own properties with such keys are enumerated first, in
    ascending numeric order; the others follow in creation order. *)
Definition array_index (k : string) : option N :=
  match k with
  | EmptyString => None
  | String "0" EmptyString => Some 0%N
  | String "0" _ => None
  | _ =>
      if forallb (fun c => match JsNumber.digit 10 c with Some _ => true | None => false end)
                 (list_ascii_of_string k)
      then match JsNumber.digits 10 k 0%N false with
           | Some n => if (n <=? 4294967294)%N then Some n else None
           | None => None
           end
      else None
  end.

(** [goes_before k k'] : a new key [k] is enumerated before the existing
    key [k']. *)
Definition goes_before (k k' : string) : bool :=
  match array_index k, array_index k' with
  | Some n, Some n' => (n <? n')%N
  | Some _, None => true
  | None, _ => false
  end.

(** Defining or overwriting an own data property. *)
Fixpoint define (k : string) (v : value) (o : object) : object :=
  match o with
  | [] => [(k, v)]
  | (k', v') :: rest =>
      if String.eqb k k' then (k', v) :: rest
      else if goes_before k k' then (k, v) :: o
      else (k', v') :: define k v rest
  end.

(** [o[k] = v] on an object whose prototype chain is the default one.
    The key ["__proto__"] reaches the accessor of [Object.prototype]
    and creates no own property. *)
Definition set (k : string) (v : value) (o : object) : object :=
  if String.eqb k "__proto__" then o else define k v o.

(** Reading an own property. *)
Fixpoint get (k : string) (o : object) : option value :=
  match o with
  | [] => None
  | (k', v) :: rest => if String.eqb k k' then Some v else get k rest
  end.

(** [k'] may follow [k] in the enumeration order. *)
Definition in_order (k k' : string) : bool :=
  match array_index k, array_index k' with
  | Some n, Some n' => (n <? n')%N
  | None, Some _ => false
  | _, None => true
  end.

(** The entry lists that are the enumeration of an object built by
    property assignment, as the payload that [payloadSchema.parse]
    returns is: distinct keys, array indices first and ascending, and no
    own ["__proto__"] (assignment never creates one). *)
Definition wf (o : object) : Prop :=
  NoDup (keys o)
  /\ StronglySorted (fun e e' => in_order (fst e) (fst e') = true) o
  /\ ~ In "__proto__" (keys o).

End JsObject.

(** The objects none of whose keys is an array index: their entries are
    enumerated in creation order. *)
Definition plain (o : object) : Prop :=
  NoDup (JsObject.keys o)
  /\ Forall (fun k => JsObject.array_index k = None /\ k <> "__proto__") (JsObject.keys o).

(** Truthiness of a value. *)
Definition truthy (v : value) : bool :=
  match v with
  | VNull => false
  | VBool b => b
  | VNum t => negb (String.eqb t "0" || String.eqb t "NaN")
  | VStr s => JsString.truthy s
  | VArr _ | VObj _ => true
  end.

(* ================================================================== *)
(** ** [countWordsInRecord] and [extractPayloadChunks] *)

Record config := {
  apiKey : string;
  apiUrl : string;
  batchSize : nat;
  idealBatchItemSize : nat
}.

(** [payload.trim().split(/\s+/).filter(Boolean).length] *)
Definition countWordsInString (s : string) : nat :=
  length (filter JsString.truthy (JsString.split_ws (JsString.trim s))).

Fixpoint countWordsInRecord (payload : value) : nat :=
  match payload with
  | VArr items =>
      fold_left (fun acc item => acc + countWordsInRecord item) items 0
  | VObj o =>
      (* [Object.values(payload).reduce(...)]: the values are read off the
         entries as the fold goes *)
      fold_left (fun acc entry => acc + countWordsInRecord (snd entry)) o 0
  | VStr s => countWordsInString s
  | _ => 0
  end.

(** [payloadSchema.parse(payload)] for the schema
    [Z.record(Z.string(), Z.any())].  Every record passes; the result is
    a new object that is assigned the entries of the payload one by one,
    but for an own ["__proto__"] entry, which zod leaves out. *)
Definition payloadSchema_parse (payload : object) : object :=
  fold_left
    (fun final kv =>
       if String.eqb (fst kv) "__proto__" then final
       else JsObject.set (fst kv) (snd kv) final)
    (JsObject.entries payload) [].

(** The loop of [extractPayloadChunks]; [i] is the loop index and [len]
    is [payloadEntries.length]. *)
Fixpoint extractPayloadChunks_loop (cfg : config) (len : nat)
    (payloadEntries : list (string * value)) (i : nat)
    (currentChunk : object) (currentChunkItemCount : nat)
    (result : list object) : list object :=
  match payloadEntries with
  | [] => result
  | (key, v) :: rest =>
      let currentChunk := JsObject.set key v currentChunk in
      let currentChunkItemCount := S currentChunkItemCount in
      let currentChunkSize := countWordsInRecord (VObj currentChunk) in
      if (idealBatchItemSize cfg <? currentChunkSize)
         || (batchSize cfg <=? currentChunkItemCount)
         || (i =? len - 1)
      then extractPayloadChunks_loop cfg len rest (S i) [] 0 (result ++ [currentChunk])
      else extractPayloadChunks_loop cfg len rest (S i)
             currentChunk currentChunkItemCount result
  end.

Definition extractPayloadChunks (cfg : config) (payload : object) : list object :=
  let payloadEntries := JsObject.entries payload in
  extractPayloadChunks_loop cfg (length payloadEntries) payloadEntries 0 [] 0 [].

(* ================================================================== *)
(** ** Failures, requests and responses *)

(** A thrown JavaScript error, as far as the source looks at it. *)
Record error := { name : string; message : string }.

(** [new Error(msg)] *)
Definition Error (msg : string) : error := {| name := "Error"; message := msg |}.
Definition TypeError (msg : string) : error := {| name := "TypeError"; message := msg |}.

Inductive result (A : Type) : Type :=
| Ok (a : A)
| Throw (e : error).
Arguments Ok {A} a.
Arguments Throw {A} e.

(** [ToString(v)]: the conversion behind [new Error(v)], behind the
    [DOMString] arguments of [setAttribute] and behind the [textContent]
    setter.  An object is converted by its [toString] method: the one it
    inherits gives ["[object Object]"], but an own property [toString] of
    a parsed JSON object is no function, and then, [valueOf] returning no
    primitive either, the conversion throws.  An array joins the
    conversions of its elements, [null] counting as the empty string. *)
Definition cannot_convert : error :=
  TypeError "Cannot convert object to primitive value".

Fixpoint to_string (v : value) : result string :=
  match v with
  | VNull => Ok "null"
  | VBool true => Ok "true"
  | VBool false => Ok "false"
  | VNum t => Ok t
  | VStr s => Ok s
  | VArr items =>
      (fix join (items : list value) : result string :=
         match items with
         | [] => Ok ""
         | item :: rest =>
             match (match item with VNull => Ok "" | _ => to_string item end) with
             | Throw e => Throw e
             | Ok s =>
                 match rest with
                 | [] => Ok s
                 | _ :: _ =>
                     match join rest with
                     | Ok r => Ok (s ++ "," ++ r)%string
                     | Throw e => Throw e
                     end
                 end
             end
         end) items
  | VObj o =>
      if existsb (String.eqb "toString") (map fst o)
      then Throw cannot_convert
      else Ok "[object Object]"
  end.

Definition aborted_message : string := "Localization was aborted".

Record localizationParams := {
  sourceLocale : option string;          (* [null] is [None] *)
  targetLocale : string;
  fast : option bool;
  reference : option (list (string * object))
}.

(** What [localizeChunk] hands to [fetch]: the URL, the bearer token and
    the fields of the JSON body. *)
Record request := {
  req_url : string;
  req_authorization : string;
  req_workflowId : string;
  req_fast : bool;
  req_source : option string;
  req_target : string;
  req_data : object;
  req_reference : option (list (string * object))
}.

(** What the source reads from a [Response]: [res.ok] is derived from the
    status, [res.text()] and [res.json()] may themselves reject. *)
Record response := {
  status : N;
  statusText : string;
  text : result string;
  json : result value
}.

Definition ok (res : response) : bool :=
  ((200 <=? status res) && (status res <=? 299))%N.

(** [v.data] and [v.error] on a parsed JSON value: an own property of an
    object, [undefined] ([None]) on any other value but [null], where the
    read throws. *)
Definition read_field (field : string) (v : value) : result (option value) :=
  match v with
  | VNull =>
      Throw (TypeError ("Cannot read properties of null (reading '" ++ field ++ "')"))
  | VObj o => Ok (JsObject.get field o)
  | _ => Ok None
  end.

Definition truthy_field (f : option value) : bool :=
  match f with Some v => truthy v | None => false end.

(** The arguments of one [progressCallback] call.  The percentage is
    [Math.round(((i + 1) / length) * 100)]; the two integers it is
    computed from are recorded. *)
Record progress := {
  completed : nat;                       (* i + 1 *)
  total : nat;                           (* chunkedPayload.length *)
  sourceChunk : object;
  processedChunk : value
}.

(** The own enumerable properties that [Object.assign] copies from a
    source value. *)
Fixpoint indexed {A} (f : A -> value) (xs : list A) (i : nat) : list (string * value) :=
  match xs with
  | [] => []
  | x :: rest => (JsNumber.toString i, f x) :: indexed f rest (S i)
  end.

Definition own_enumerable (v : value) : list (string * value) :=
  match v with
  | VObj o => o
  | VArr items => indexed (fun x => x) items 0
  | VStr s => indexed (fun c => VStr (String c "")) (list_ascii_of_string s) 0
  | _ => []
  end.

(** [Object.assign(target, ...sources)] *)
Definition Object_assign (target : object) (sources : list value) : object :=
  fold_left
    (fun t source =>
       fold_left (fun t' kv => JsObject.set (fst kv) (snd kv) t')
                 (own_enumerable source) t)
    sources target.

(* ================================================================== *)
(** ** The document that [localizeHtml] works on *)

(** The tree jsdom builds for an HTML document.  [new JSDOM(html)] and
    [dom.serialize()] belong to the library: the model starts from the
    parsed document and ends with the document that is serialized.  An
    element is kept with its [tagName], its attributes by qualified name
    and its children. *)
Inductive node : Type :=
| Element (tagName : string) (attributes : list (string * string)) (childNodes : list node)
| Text (data : string)
| Comment (data : string).

(** A node is referred to by its position: the child indices from the
    node up to [document.documentElement], innermost first.  [[]] is the
    document element, and the tail of a reference is the parent. *)
Definition ref : Type := list nat.

Module Dom.

Definition nodeType (n : node) : nat :=
  match n with Element _ _ _ => 1 | Text _ => 3 | Comment _ => 8 end.

Definition nodeName (n : node) : string :=
  match n with
  | Element t _ _ => t
  | Text _ => "#text"
  | Comment _ => "#comment"
  end.

Definition children (n : node) : list node :=
  match n with Element _ _ cs => cs | _ => [] end.

Fixpoint node_at (root : node) (r : ref) : option node :=
  match r with
  | [] => Some root
  | i :: parent =>
      match node_at root parent with
      | Some p => nth_error (children p) i
      | None => None
      end
  end.

Definition childNodes_at (root : node) (r : ref) : list node :=
  match node_at root r with
  | Some n => children n
  | None => []
  end.

(** [n.nodeType === 1 || (n.nodeType === 3 && n.textContent?.trim())];
    the text content is read of text nodes only. *)
Definition localizable_child (n : node) : bool :=
  (nodeType n =? 1)
  || (nodeType n =? 3)
     && match n with
        | Text d => JsString.truthy (JsString.trim d)
        | _ => false
        end.

(** [Array.from(parent.childNodes).filter(...)], each kept child with
    its index among all the children. *)
Fixpoint filtered_from (cs : list node) (i : nat) : list (nat * node) :=
  match cs with
  | [] => []
  | c :: rest =>
      if localizable_child c then (i, c) :: filtered_from rest (S i)
      else filtered_from rest (S i)
  end.

Definition filtered (parent : node) : list (nat * node) :=
  filtered_from (children parent) 0.

(** [siblings.indexOf(current)], the child being known by its index. *)
Fixpoint indexOf (siblings : list (nat * node)) (i : nat) (pos : nat) : option nat :=
  match siblings with
  | [] => None
  | (j, _) :: rest => if i =? j then Some pos else indexOf rest i (S pos)
  end.

Fixpoint find_child (p : node -> bool) (cs : list node) (i : nat) : option nat :=
  match cs with
  | [] => None
  | c :: rest => if p c then Some i else find_child p rest (S i)
  end.

Definition is_element_named (names : list string) (n : node) : bool :=
  match n with
  | Element t _ _ => existsb (String.eqb (JsString.toLowerCase t)) names
  | _ => false
  end.

(** [document.head]: the first [head] child of the [html] element. *)
Definition head (root : node) : option ref :=
  if is_element_named ["html"] root
  then option_map (fun i => [i]) (find_child (is_element_named ["head"]) (children root) 0)
  else None.

(** [document.body]: the first [body] or [frameset] child of the [html]
    element. *)
Definition body (root : node) : option ref :=
  if is_element_named ["html"] root
  then option_map (fun i => [i])
         (find_child (is_element_named ["body"; "frameset"]) (children root) 0)
  else None.

(** [element.getAttribute(name)] on an element of the HTML namespace,
    where the name is put in ASCII lower case.  The source passes names
    in lower case only, and for those an element of another namespace
    answers the same. *)
Fixpoint getAttribute (name : string) (attrs : list (string * string)) : option string :=
  match attrs with
  | [] => None
  | (k, v) :: rest =>
      if String.eqb k (JsString.asciiLowercase name) then Some v else getAttribute name rest
  end.

Fixpoint set_attr (name value : string) (attrs : list (string * string))
  : list (string * string) :=
  match attrs with
  | [] => [(name, value)]
  | (k, v) :: rest =>
      if String.eqb k name then (k, value) :: rest
      else (k, v) :: set_attr name value rest
  end.

(** [p] holds of the node and of all its descendants. *)
Fixpoint all_nodes (p : node -> bool) (n : node) : bool :=
  p n && match n with
         | Element _ _ cs => forallb (all_nodes p) cs
         | _ => true
         end.

(** Replacing the node at a position. *)
Fixpoint list_update {A} (xs : list A) (i : nat) (f : A -> A) : list A :=
  match xs, i with
  | [], _ => []
  | x :: rest, 0 => f x :: rest
  | x :: rest, S i' => x :: list_update rest i' f
  end.

Fixpoint update_at (root : node) (r : ref) (f : node -> node) : node :=
  match r with
  | [] => f root
  | i :: parent =>
      update_at root parent
        (fun p => match p with
                  | Element t a cs => Element t a (list_update cs i f)
                  | _ => p
                  end)
  end.

(** [LOCALIZABLE_ATTRIBUTES[tagName]]: an own entry of the table, a
    property inherited from [Object.prototype], or [undefined]. *)
Inductive table_lookup :=
| Own (attributes : list string)
| Inherited
| Undefined.

Definition object_prototype_properties : list string :=
  ["constructor"; "__defineGetter__"; "__defineSetter__"; "hasOwnProperty";
   "__lookupGetter__"; "__lookupSetter__"; "isPrototypeOf";
   "propertyIsEnumerable"; "toString"; "valueOf"; "__proto__"; "toLocaleString"].

Definition LOCALIZABLE_ATTRIBUTES (tagName : string) : table_lookup :=
  if String.eqb tagName "meta" then Own ["content"]
  else if String.eqb tagName "img" then Own ["alt"]
  else if String.eqb tagName "input" then Own ["placeholder"]
  else if String.eqb tagName "a" then Own ["title"]
  else if existsb (String.eqb tagName) object_prototype_properties then Inherited
  else Undefined.

Definition UNLOCALIZABLE_TAGS : list string := ["script"; "style"].

Definition nodeName_at (root : node) (r : ref) : string :=
  match node_at root r with
  | Some n => nodeName n
  | None => ""
  end.

(** The [while (parent)] loop of [processNode], for the node at [r]:
    some ancestor element is a [script] or a [style]. *)
Fixpoint under_unlocalizable (root : node) (r : ref) : bool :=
  match r with
  | [] => false
  | _ :: parent =>
      existsb (String.eqb (JsString.toLowerCase (nodeName_at root parent)))
              UNLOCALIZABLE_TAGS
      || under_unlocalizable root parent
  end.

(** The [while (current)] loop of [getPath]: the root tag and the
    indices collected so far. *)
Fixpoint getPath_loop (root : node) (current : ref) (indices : list nat)
  : string * list nat :=
  match current with
  | [] => ("", indices)
  | i :: parent =>
      match parent with
      | [] => (JsString.toLowerCase (nodeName_at root current), indices)
      | _ :: _ =>
          let siblings :=
            match node_at root parent with
            | Some p => filtered p
            | None => []
            end in
          match indexOf siblings i 0 with
          | Some index => getPath_loop root parent (index :: indices)
          | None => getPath_loop root parent indices
          end
      end
  end.

Definition getPath (root : node) (r : ref) (attribute : option string) : string :=
  let '(rootParent, indices) := getPath_loop root r [] in
  let joined := JsString.join "/" (map JsNumber.toString indices) in
  let basePath :=
    (if JsString.truthy rootParent then rootParent ++ "/" ++ joined else joined)%string in
  match attribute with
  | Some a => if JsString.truthy a then (basePath ++ "#" ++ a)%string else basePath
  | None => basePath
  end.

End Dom.

(** *** Extraction: [processNode] *)

(** [attributes.forEach((attr) => ...)] for the element at [r]. *)
Definition extract_attributes (root : node) (r : ref) (attrs : list (string * string))
    (attributes : list string) (extracted : object) : object :=
  fold_left
    (fun ex attr =>
       match Dom.getAttribute attr attrs with
       | Some v =>
           if JsString.truthy v
           then JsObject.set (Dom.getPath root r (Some attr)) (VStr v) ex
           else ex
       | None => ex
       end)
    attributes extracted.

(** [processNode(node)] for the node [n] found at position [r] of the
    document [root]; [extractedContent] is threaded through. *)
Fixpoint processNode (root : node) (n : node) (r : ref) (extractedContent : object)
  : result object :=
  if Dom.under_unlocalizable root r then Ok extractedContent
  else
    match n with
    | Text d =>
        let text := JsString.trim d in
        if JsString.truthy text
        then Ok (JsObject.set (Dom.getPath root r None) (VStr text) extractedContent)
        else Ok extractedContent
    | Element tagName attrs childNodes =>
        let tagName := JsString.toLowerCase tagName in
        match Dom.LOCALIZABLE_ATTRIBUTES tagName with
        | Dom.Inherited => Throw (TypeError "attributes.forEach is not a function")
        | lookup =>
            let attributes :=
              match lookup with Dom.Own names => names | _ => [] end in
            let extractedContent :=
              extract_attributes root r attrs attributes extractedContent in
            (fix forEach (cs : list node) (i : nat) (extracted : object) : result object :=
               match cs with
               | [] => Ok extracted
               | c :: rest =>
                   if Dom.localizable_child c
                   then match processNode root c (i :: r) extracted with
                        | Ok extracted' => forEach rest (S i) extracted'
                        | Throw e => Throw e
                        end
                   else forEach rest (S i) extracted
               end) childNodes 0 extractedContent
        end
    | Comment _ => Ok extractedContent
    end.

(** [Array.from(element.childNodes).filter(...).forEach(processNode)] for
    the element at [r]. *)
Fixpoint processChildren (root : node) (cs : list node) (i : nat) (r : ref)
    (extracted : object) : result object :=
  match cs with
  | [] => Ok extracted
  | c :: rest =>
      if Dom.localizable_child c
      then match processNode root c (i :: r) extracted with
           | Ok extracted' => processChildren root rest (S i) r extracted'
           | Throw e => Throw e
           end
      else processChildren root rest (S i) r extracted
  end.

Definition missing_name : error :=
  TypeError "Cannot read properties of undefined (reading 'name')".

Definition null_childNodes : error :=
  TypeError "Cannot read properties of null (reading 'childNodes')".

(** The two walks of [localizeHtml], over [document.head] and then
    [document.body]. *)
Definition extractContent (root : node) : result object :=
  match Dom.head root with
  | None => Throw null_childNodes
  | Some h =>
      match processChildren root (Dom.childNodes_at root h) 0 h [] with
      | Throw e => Throw e
      | Ok extracted =>
          match Dom.body root with
          | None => Throw null_childNodes
          | Some b =>
              processChildren root (Dom.childNodes_at root b) 0 b extracted
          end
      end
  end.

(** *** Re-application of the translated entries *)

Section Reapply.

(** What jsdom knows and the tree does not keep: the name check of
    [setAttribute], and which elements are in the HTML namespace (the
    others are the SVG and MathML elements of the document). *)
Variable valid_attribute_name : string -> bool.
Variable in_html_namespace : ref -> bool.

Definition InvalidCharacterError (name : string) : error :=
  {| name := "InvalidCharacterError";
     message := String "034" (name ++ String "034" " did not match the Name production") |}.

Definition not_a_function : error :=
  TypeError "current.setAttribute is not a function".

(** [element.setAttribute(name, value)] on the attribute list of an
    element; [html] tells whether the element is in the HTML namespace,
    where the name is put in ASCII lower case once it has passed the
    check. *)
Definition setAttribute (html : bool) (name value : string) (n : node) : result node :=
  match n with
  | Element t attrs cs =>
      if valid_attribute_name name
      then Ok (Element t (Dom.set_attr (if html then JsString.asciiLowercase name else name)
                                       value attrs) cs)
      else Throw (InvalidCharacterError name)
  | _ => Throw not_a_function
  end.

(** [node.textContent = value] for a string. *)
Definition set_textContent (value : string) (n : node) : node :=
  match n with
  | Element t attrs _ =>
      Element t attrs (if JsString.truthy value then [Text value] else [])
  | Text _ => Text value
  | Comment _ => Comment value
  end.

(** The conversions the two setters apply to the translated value before
    anything else: [setAttribute] takes a [DOMString], [textContent] a
    nullable one. *)
Definition attribute_text (v : value) : result string := to_string v.
Definition content_text (v : value) : result string :=
  match v with VNull => Ok "" | _ => to_string v end.

(** [current.textContent = value] *)
Definition assign_textContent (root : node) (current : ref) (v : value) : result node :=
  match content_text v with
  | Ok text => Ok (Dom.update_at root current (set_textContent text))
  | Throw e => Throw e
  end.

(** [(current as Element).setAttribute(attribute, value)]: a node that
    is no element has no such method; on an element the value is
    converted, and then the attribute is set. *)
Definition call_setAttribute (root : node) (current : ref) (attribute : string)
    (v : value) : result node :=
  match Dom.node_at root current with
  | Some (Element t attrs cs) =>
      match attribute_text v with
      | Ok text =>
          match setAttribute (in_html_namespace current) attribute text
                             (Element t attrs cs) with
          | Ok n' => Ok (Dom.update_at root current (fun _ => n'))
          | Throw e => Throw e
          end
      | Throw e => Throw e
      end
  | Some _ => Throw not_a_function
  | None => Ok root
  end.

(** One turn of [for (const index of indices)]: [parent] is an element,
    [current] the node found last ([None] is [null]). *)
Definition descend (root : node) (state : ref * option ref) (index : string)
  : ref * option ref :=
  let '(parent, _) := state in
  let siblings :=
    match Dom.node_at root parent with
    | Some p => Dom.filtered p
    | None => []
    end in
  match JsNumber.index siblings (JsNumber.parseInt index) with
  | Some (i, current) =>
      if Dom.nodeType current =? 1
      then (i :: parent, Some (i :: parent))
      else (parent, Some (i :: parent))
  | None => (parent, None)
  end.

(** The callback of [Object.entries(localizedContent).forEach]. *)
Definition applyEntry (root : node) (path : string) (v : value) : result node :=
  let parts := JsString.split "#" path in
  let nodePath := hd "" parts in
  let attribute := nth_error parts 1 in
  let segments := JsString.split "/" nodePath in
  let rootTag := hd "" segments in
  let indices := tl segments in
  match (if String.eqb rootTag "head" then Dom.head root else Dom.body root) with
  | None =>
      match indices with
      | [] => Ok root
      | _ :: _ => Throw null_childNodes
      end
  | Some top =>
      match snd (fold_left (descend root) indices (top, Some top)) with
      | None => Ok root
      | Some current =>
          match attribute with
          | Some a =>
              if JsString.truthy a
              then call_setAttribute root current a v
              else assign_textContent root current v
          | None => assign_textContent root current v
          end
      end
  end.

Fixpoint applyEntries (root : node) (entries : list (string * value)) : result node :=
  match entries with
  | [] => Ok root
  | (path, v) :: rest =>
      match applyEntry root path v with
      | Ok root' => applyEntries root' rest
      | Throw e => Throw e
      end
  end.

End Reapply.

(** The lookup that the callback above makes for a key, on its own: the
    node the indices lead to ([None] when the key is skipped or the
    lookup throws), and the attribute name after the ["#"]. *)
Definition resolve (root : node) (path : string) : option ref :=
  let nodePath := hd "" (JsString.split "#" path) in
  let segments := JsString.split "/" nodePath in
  match (if String.eqb (hd "" segments) "head" then Dom.head root else Dom.body root) with
  | None => None
  | Some top => snd (fold_left (descend root) (tl segments) (top, Some top))
  end.

Definition attribute_of (path : string) : option string :=
  nth_error (JsString.split "#" path) 1.

(** The attribute part of a key: none for a text node, a non-empty name
    without ["#"] for an attribute. *)
Definition key_attribute (attribute : option string) : Prop :=
  match attribute with
  | None => True
  | Some a => JsString.truthy a = true /\ JsString.lacks "#" a = true
  end.

(** *** Where an extracted entry comes from *)

(** [r] is [top] or a descendant of it reached through children that the
    child filter keeps. *)
Inductive kept_path (root : node) (top : ref) : ref -> Prop :=
| kept_top : kept_path root top top
| kept_child (r : ref) (i : nat) (c : node) :
    kept_path root top r ->
    nth_error (Dom.childNodes_at root r) i = Some c ->
    Dom.localizable_child c = true ->
    kept_path root top (i :: r).

(** The entry [key -> v] is what [processNode] writes for the text node,
    or for a listed attribute of the element, at some position below
    [top]. *)
Inductive emitted (root : node) (top : ref) : string -> value -> Prop :=
| emitted_text (r : ref) (d : string) :
    kept_path root top r -> r <> top ->
    Dom.node_at root r = Some (Text d) ->
    Dom.under_unlocalizable root r = false ->
    emitted root top (Dom.getPath root r None) (VStr (JsString.trim d))
| emitted_attribute (r : ref) (t : string) (attrs : list (string * string))
    (cs : list node) (names : list string) (a s : string) :
    kept_path root top r -> r <> top ->
    Dom.node_at root r = Some (Element t attrs cs) ->
    Dom.under_unlocalizable root r = false ->
    Dom.LOCALIZABLE_ATTRIBUTES (JsString.toLowerCase t) = Dom.Own names ->
    In a names ->
    Dom.getAttribute a attrs = Some s ->
    JsString.truthy s = true ->
    emitted root top (Dom.getPath root r (Some a)) (VStr s).

(** What [processNode] has to write for the node at [r] itself: the
    entry of a text node with non-blank text, and the entries of the
    listed attributes of an element that have non-empty values; nothing
    for a node below a [script] or a [style]. *)
Inductive source (root : node) (r : ref) : string -> value -> Prop :=
| source_text (d : string) :
    Dom.node_at root r = Some (Text d) ->
    Dom.under_unlocalizable root r = false ->
    JsString.truthy (JsString.trim d) = true ->
    source root r (Dom.getPath root r None) (VStr (JsString.trim d))
| source_attribute (t : string) (attrs : list (string * string)) (cs : list node)
    (names : list string) (a s : string) :
    Dom.node_at root r = Some (Element t attrs cs) ->
    Dom.under_unlocalizable root r = false ->
    Dom.LOCALIZABLE_ATTRIBUTES (JsString.toLowerCase t) = Dom.Own names ->
    In a names ->
    Dom.getAttribute a attrs = Some s ->
    JsString.truthy s = true ->
    source root r (Dom.getPath root r (Some a)) (VStr s).

(** "Any element under (including as a descendant of) a tag in the
    unlocalizable set": the node at [r] is a [script] or [style] element,
    or one of its ancestors is. *)
Definition unlocalizable_element (n : option node) : bool :=
  match n with
  | Some (Element t _ _) =>
      existsb (String.eqb (JsString.toLowerCase t)) ["script"; "style"]
  | _ => false
  end.

Fixpoint inside_unlocalizable (root : node) (r : ref) : bool :=
  unlocalizable_element (Dom.node_at root r)
  || match r with
     | [] => false
     | _ :: parent => inside_unlocalizable root parent
     end.

(** "The input except for the root element's [lang] attribute, which is
    set to the target locale". *)
Definition with_lang (targetLocale : string) (document : node) : node :=
  match document with
  | Element t attrs cs => Element t (Dom.set_attr "lang" targetLocale attrs) cs
  | n => n
  end.

(** What the lookup of a key sees of a node: its type, its name, whether
    the child filter keeps it and how many children it has.  Two
    documents have the same outline when they agree on that at every
    position. *)
Definition outline (n : node) : nat * string * bool * nat :=
  (Dom.nodeType n, Dom.nodeName n, Dom.localizable_child n, length (Dom.children n)).

Definition same_outline (d d' : node) : Prop :=
  forall q, option_map outline (Dom.node_at d q) = option_map outline (Dom.node_at d' q).

(** The node at [r] holds the string [s]: as its text when there is no
    attribute name, as the value of that attribute otherwise. *)
Definition holds_at (d : node) (r : ref) (attribute : option string) (s : string) : Prop :=
  match attribute with
  | None => Dom.node_at d r = Some (Text s)
  | Some a =>
      exists t attrs cs,
        Dom.node_at d r = Some (Element t attrs cs) /\ Dom.getAttribute a attrs = Some s
  end.

(** [n'] is [n] up to the children of an element. *)
Definition same_root (n n' : node) : Prop :=
  match n with
  | Element t a _ => exists cs', n' = Element t a cs'
  | _ => n' = n
  end.

(** The entry [key -> v] holds the trimmed text of the text node at [r],
    or the value of an attribute of the element at [r]. *)
Definition content_of (root : node) (r : ref) (key : string) (v : value) : Prop :=
  (exists d, Dom.node_at root r = Some (Text d)
             /\ key = Dom.getPath root r None
             /\ v = VStr (JsString.trim d))
  \/ (exists t attrs cs a s,
         Dom.node_at root r = Some (Element t attrs cs)
         /\ Dom.getAttribute a attrs = Some s
         /\ key = Dom.getPath root r (Some a)
         /\ v = VStr s).

(* ================================================================== *)
(** ** Chat transcripts *)

Module Chat.
(** One message of the transcript given to [localizeChat]. *)
Record message := { name : string; text : string }.
(** One message of the transcript it returns; the text is whatever value
    the provider sent. *)
Record localized := { name' : string; text' : value }.
End Chat.

(* ================================================================== *)
(** ** The engine over an explicit environment *)

Module Engine.

Section Methods.

(** Everything outside the class: the state of the world ([Env]), the
    caller's [AbortSignal], the provider behind [fetch], [createId], the
    caller's progress callback and the locale schema of [@lingo.dev/_spec]. *)
Variable Env : Type.
Variable signal_aborted : Env -> bool.                 (* [signal?.aborted] *)
Variable fetch : request -> Env -> result response * Env.
Variable createId : Env -> string * Env.
Variable progressCallback : option (progress -> Env -> result unit * Env).
Variable localeCodeSchema : string -> bool.
Variable ZodError : localizationParams -> error.
Variable valid_attribute_name : string -> bool.        (* jsdom's name check *)
Variable in_html_namespace : ref -> bool.              (* jsdom's namespaces *)
Variable cfg : config.

(** The world a call runs in: the environment and the requests handed to
    [fetch] so far. *)
Record world := { env : Env; sent : list request }.

Definition M (A : Type) : Type := world -> result A * world.

Definition ret {A} (a : A) : M A := fun w => (Ok a, w).
Definition throw {A} (e : error) : M A := fun w => (Throw e, w).
Definition bind {A B} (m : M A) (k : A -> M B) : M B :=
  fun w => match m w with
           | (Ok a, w') => k a w'
           | (Throw e, w') => (Throw e, w')
           end.
Definition try_catch {A} (m : M A) (handler : error -> M A) : M A :=
  fun w => match m w with
           | (Ok a, w') => (Ok a, w')
           | (Throw e, w') => handler e w'
           end.
Definition lift {A} (r : result A) : M A := fun w => (r, w).

Notation "x <- m ;; k" := (bind m (fun x => k))
  (at level 61, m at next level, right associativity).

Definition aborted : M bool := fun w => (Ok (signal_aborted (env w)), w).

Definition await_fetch (req : request) : M response :=
  fun w => let '(r, e') := fetch req (env w) in
           (r, {| env := e'; sent := sent w ++ [req] |}).

Definition call_progress (p : progress) : M unit :=
  match progressCallback with
  | None => ret tt
  | Some callback =>
      fun w => let '(r, e') := callback p (env w) in
               (r, {| env := e'; sent := sent w |})
  end.

Definition call_createId : M string :=
  fun w => let '(id, e') := createId (env w) in
           (Ok id, {| env := e'; sent := sent w |}).

(** The test of both [catch] blocks. *)
Definition is_abort_error (e : error) : bool :=
  String.eqb (name e) "AbortError"
  || (JsString.truthy (message e) && JsString.includes (message e) "aborted").

Definition normalize_abort {A} (e : error) : M A :=
  if is_abort_error e then throw (Error aborted_message) else throw e.

(** What that handler makes of [new Error(msg)]. *)
Definition surfaced (msg : string) : error :=
  if JsString.includes msg "aborted" then Error aborted_message else Error msg.

(** The request of [localizeChunk]: URL, [Authorization] header and the
    fields of the JSON body. *)
Definition chunk_request (sourceLocale : option string) (targetLocale : string)
    (data : object) (reference : option (list (string * object)))
    (workflowId : string) (fast : bool) : request :=
  {| req_url := apiUrl cfg ++ "/i18n";
     req_authorization := "Bearer " ++ apiKey cfg;
     req_workflowId := workflowId;
     req_fast := fast;
     req_source := sourceLocale;
     req_target := targetLocale;
     req_data := data;
     req_reference := reference |}.

(** The body of the [try] block of [localizeChunk]. *)
Definition localizeChunk_try (sourceLocale : option string) (targetLocale : string)
    (data : object) (ref : option (list (string * object)))
    (workflowId : string) (fast : bool) : M value :=
  res <- await_fetch
           (chunk_request sourceLocale targetLocale data ref workflowId fast) ;;
  if negb (ok res) then
    if (status res =? 400)%N
    then throw (Error ("Invalid request: " ++ statusText res))
    else errorText <- lift (text res) ;; throw (Error errorText)
  else
    jsonResponse <- lift (json res) ;;
    data_field <- lift (read_field "data" jsonResponse) ;;
    error_field <- lift (read_field "error" jsonResponse) ;;
    if negb (truthy_field data_field) && truthy_field error_field
    then msg <- lift (match error_field with Some v => to_string v | None => Ok "" end) ;;
         throw (Error msg)
    else ret (match data_field with
              | Some d => if truthy d then d else VObj []
              | None => VObj []
              end).

Definition localizeChunk (sourceLocale : option string) (targetLocale : string)
    (data : object) (ref : option (list (string * object)))
    (workflowId : string) (fast : bool) : M value :=
  a <- aborted ;;
  if a then throw (Error aborted_message)
  else try_catch (localizeChunk_try sourceLocale targetLocale data ref workflowId fast)
                 normalize_abort.

(** [localizationParamsSchema.parse(params)] *)
Definition valid_params (params : localizationParams) : bool :=
  match sourceLocale params with Some l => localeCodeSchema l | None => true end
  && localeCodeSchema (targetLocale params)
  && match reference params with
     | Some r => forallb (fun kv => localeCodeSchema (fst kv)) r
     | None => true
     end.

(** The [for] loop of [_localizeRaw]. *)
Fixpoint _localizeRaw_loop (params : localizationParams) (workflowId : string)
    (len : nat) (chunkedPayload : list object) (i : nat)
    (processedPayloadChunks : list value) : M (list value) :=
  match chunkedPayload with
  | [] => ret processedPayloadChunks
  | chunk :: rest =>
      a <- aborted ;;
      if a then throw (Error aborted_message)
      else
        processedPayloadChunk <-
          localizeChunk (sourceLocale params) (targetLocale params)
                        chunk (reference params) workflowId
                        (match fast params with Some b => b | None => false end) ;;
        _ <- call_progress {| completed := i + 1; total := len;
                              sourceChunk := chunk;
                              processedChunk := processedPayloadChunk |} ;;
        _localizeRaw_loop params workflowId len rest (S i)
          (processedPayloadChunks ++ [processedPayloadChunk])
  end.

Definition _localizeRaw (payload : object) (params : localizationParams) : M object :=
  a <- aborted ;;
  if a then throw (Error aborted_message)
  else
    let finalPayload := payloadSchema_parse payload in
    if negb (valid_params params) then throw (ZodError params)
    else
      let chunkedPayload := extractPayloadChunks cfg finalPayload in
      workflowId <- call_createId ;;
      processedPayloadChunks <-
        _localizeRaw_loop params workflowId (length chunkedPayload) chunkedPayload 0 [] ;;
      ret (Object_assign [] processedPayloadChunks).

(** *** [localizeChat] *)

Definition chat_value (chat : list Chat.message) : value :=
  VArr (map (fun m => VObj [("name", VStr (Chat.name m)); ("text", VStr (Chat.text m))])
            chat).

(** [Object.entries(localized).map(([key, value]) => ...)]: the callback
    reads [chat[parseInt(key.split("_")[1])].name]; a missing element of
    [split] is [undefined], which [parseInt] reads as the text
    "undefined". *)
Definition chat_index (key : string) : JsNumber.parsed :=
  JsNumber.parseInt
    (match nth_error (JsString.split "_" key) 1 with
     | Some s => s
     | None => "undefined"
     end).

Fixpoint recombine (chat : list Chat.message) (entries : list (string * value))
  : result (list Chat.localized) :=
  match entries with
  | [] => Ok []
  | (key, v) :: rest =>
      match JsNumber.index chat (chat_index key) with
      | None => Throw missing_name
      | Some m =>
          match recombine chat rest with
          | Ok out => Ok ({| Chat.name' := Chat.name m; Chat.text' := v |} :: out)
          | Throw e => Throw e
          end
      end
  end.

Definition localizeChat (chat : list Chat.message) (params : localizationParams)
  : M (list Chat.localized) :=
  localized <- _localizeRaw [("chat", chat_value chat)] params ;;
  lift (recombine chat (JsObject.entries localized)).

(** *** [localizeHtml], from the parsed document to the document that is
    serialized *)

Definition localizeHtml (document : node) (params : localizationParams) : M node :=
  a <- aborted ;;
  if a then throw (Error aborted_message)
  else
    try_catch
      (extractedContent <- lift (extractContent document) ;;
       localizedContent <- _localizeRaw extractedContent params ;;
       document' <- lift (setAttribute valid_attribute_name (in_html_namespace [])
                                       "lang" (targetLocale params) document) ;;
       lift (applyEntries valid_attribute_name in_html_namespace document'
                          (JsObject.entries localizedContent)))
      normalize_abort.

(** *** [localizeObject] and [localizeText] *)

Definition localizeObject (obj : object) (params : localizationParams) : M object :=
  _localizeRaw obj params.

(** [response.text || ""].  The read is one of an own property: the
    aggregate of [_localizeRaw] is kept as its own entries, so a [text]
    that the aggregate would inherit from a prototype installed by an own
    ["__proto__"] entry of a provider answer is outside this model. *)
Definition text_or_empty (response : object) : value :=
  match JsObject.get "text" response with
  | Some v => if truthy v then v else VStr ""
  | None => VStr ""
  end.

Definition localizeText (text : string) (params : localizationParams) : M value :=
  response <- _localizeRaw [("text", VStr text)] params ;;
  ret (text_or_empty response).

(** *** Assumptions on the environment used by the round-trip statement *)

(** An identity translation: the provider answers every request with a
    success response whose [data] is the data it was sent. *)
Definition identity_translation : Prop :=
  forall req e,
    exists res e' o,
      fetch req e = (Ok res, e') /\ ok res = true
      /\ json res = Ok (VObj o)
      /\ JsObject.get "data" o = Some (VObj (req_data req)).

(** A provider that translates entry by entry: it answers every request
    with a success response whose [data] has the keys of the data it was
    sent, in their order, each with the value [translate] gives for the
    key and the value sent. *)
Definition translated (translate : string -> value -> value) (o : object) : object :=
  map (fun kv => (fst kv, translate (fst kv) (snd kv))) o.

Definition translation (translate : string -> value -> value) : Prop :=
  forall req e,
    exists res e' o,
      fetch req e = (Ok res, e') /\ ok res = true
      /\ json res = Ok (VObj o)
      /\ JsObject.get "data" o = Some (VObj (translated translate (req_data req))).

(** The caller never aborts, and its progress callback returns. *)
Definition never_aborted : Prop := forall e, signal_aborted e = false.

Definition callback_returns : Prop :=
  forall callback, progressCallback = Some callback ->
                   forall p e, fst (callback p e) = Ok tt.

End Methods.

Arguments env {Env} _.
Arguments sent {Env} _.
Arguments ret {Env A} _ _.
Arguments throw {Env A} _ _.
Arguments bind {Env A B} _ _ _.
Arguments try_catch {Env A} _ _ _.
Arguments lift {Env A} _ _.
Arguments aborted {Env} _ _.
Arguments await_fetch {Env} _ _ _.
Arguments call_progress {Env} _ _ _.
Arguments call_createId {Env} _ _.
Arguments normalize_abort {Env A} _ _.
Arguments localizeChunk_try {Env} _ _ _ _ _ _ _ _ _.
Arguments localizeChunk {Env} _ _ _ _ _ _ _ _ _ _.
Arguments _localizeRaw_loop {Env} _ _ _ _ _ _ _ _ _ _ _.
Arguments _localizeRaw {Env} _ _ _ _ _ _ _ _ _ _.
Arguments localizeChat {Env} _ _ _ _ _ _ _ _ _ _.
Arguments localizeObject {Env} _ _ _ _ _ _ _ _ _ _.
Arguments localizeText {Env} _ _ _ _ _ _ _ _ _ _.
Arguments localizeHtml {Env} _ _ _ _ _ _ _ _ _ _ _ _.
Arguments identity_translation {Env} _.
Arguments translation {Env} _ _.
Arguments never_aborted {Env} _.
Arguments callback_returns {Env} _.

End Engine.

Import Engine.

(* ================================================================== *)
(** ** The constructor: [engineParamsSchema.parse] *)

Module Construction.

(** A number of the configuration handed to the constructor: an integer,
    or a number that [int()] refuses (a fraction, [NaN], an infinity). *)
Inductive number :=
| Integer (z : Z)
| NotInteger.

(** [Partial<...>]: every field may be missing. *)
Record rawConfig := {
  raw_apiKey : option string;
  raw_apiUrl : option string;
  raw_batchSize : option number;
  raw_idealBatchItemSize : option number
}.

Section Parse.

(** zod's URL check and the error it throws are zod's. *)
Variable valid_url : string -> bool.
Variable ZodError : rawConfig -> error.

(** [Z.number().int().gt(lower).lte(upper).default(d)] *)
Definition bounded (lower upper d : Z) (raw : option number) : option nat :=
  match raw with
  | None => Some (Z.to_nat d)
  | Some (Integer z) =>
      if ((lower <? z) && (z <=? upper))%Z then Some (Z.to_nat z) else None
  | Some NotInteger => None
  end.

(** [Z.string().url().default("https://engine.lingo.dev")] *)
Definition url_or_default (raw : option string) : option string :=
  match raw with
  | None => Some "https://engine.lingo.dev"
  | Some u => if valid_url u then Some u else None
  end.

(** [this.config = engineParamsSchema.parse(config)] *)
Definition engineParamsSchema_parse (raw : rawConfig) : result config :=
  match raw_apiKey raw, url_or_default (raw_apiUrl raw),
        bounded 0 250 25 (raw_batchSize raw),
        bounded 0 2500 250 (raw_idealBatchItemSize raw) with
  | Some key, Some url, Some size, Some words =>
      Ok {| apiKey := key; apiUrl := url; batchSize := size;
            idealBatchItemSize := words |}
  | _, _, _, _ => Throw (ZodError raw)
  end.

End Parse.

End Construction.

(* ================================================================== *)
(** ** A progress callback that records its calls *)

Module Recorder.

(** What a caller sees of a run of [_localizeRaw]: the requests handed
    to [fetch], each with the way [fetch] settled, and the calls of its
    progress callback, in the order in which they happen. *)
Inductive event :=
| Fetched (req : request) (answer : result response)
| Reported (p : progress).

Section Recorder.

Variable Env : Type.
Variable signal_aborted : Env -> bool.
Variable fetch : request -> Env -> result response * Env.
Variable createId : Env -> string * Env.

(** The world of a caller that keeps these events. *)
Definition recorded : Type := (Env * list event)%type.

Definition aborted (el : recorded) : bool := signal_aborted (fst el).

Definition fetching (req : request) (el : recorded) : result response * recorded :=
  let '(r, e') := fetch req (fst el) in (r, (e', snd el ++ [Fetched req r])).

Definition drawing (el : recorded) : string * recorded :=
  let '(id, e') := createId (fst el) in (id, (e', snd el)).

Definition callback : option (progress -> recorded -> result unit * recorded) :=
  Some (fun p el => (Ok tt, (fst el, snd el ++ [Reported p]))).

End Recorder.

Arguments aborted {Env} _ _.
Arguments fetching {Env} _ _ _.
Arguments drawing {Env} _ _.
Arguments callback {Env}.



End Recorder.

(* ================================================================== *)
(** ** [recognizeLocale] *)

Module Recognition.

(** What [recognizeLocale] hands to [fetch]: the URL, the bearer token
    and the one field of the JSON body. *)
Record request := {
  req_url : string;
  req_authorization : string;
  req_text : string
}.

Definition aborted_message : string := "Locale recognition was aborted".

Section Methods.

Variable Env : Type.
Variable signal_aborted : Env -> bool.
Variable fetch : request -> Env -> result response * Env.
Variable cfg : config.

Definition recognize_request (text : string) : request :=
  {| req_url := apiUrl cfg ++ "/recognize";
     req_authorization := "Bearer " ++ apiKey cfg;
     req_text := text |}.

(** The body of the [try] block; [jsonResponse.locale] may be
    [undefined] ([None]). *)
Definition recognizeLocale_try (text : string) (e : Env)
  : result (option value) * Env :=
  match fetch (recognize_request text) e with
  | (Throw err, e1) => (Throw err, e1)
  | (Ok res, e1) =>
      if negb (ok res)
      then (Throw (Error ("Error recognizing locale: " ++ statusText res)), e1)
      else match json res with
           | Throw err => (Throw err, e1)
           | Ok jsonResponse => (read_field "locale" jsonResponse, e1)
           end
  end.

Definition recognizeLocale (text : string) (e : Env) : result (option value) * Env :=
  if signal_aborted e then (Throw (Error aborted_message), e)
  else
    match recognizeLocale_try text e with
    | (Ok locale, e1) => (Ok locale, e1)
    | (Throw err, e1) =>
        if is_abort_error err then (Throw (Error aborted_message), e1)
        else (Throw err, e1)
    end.

End Methods.

Arguments recognizeLocale_try {Env} _ _ _ _.
Arguments recognizeLocale {Env} _ _ _ _ _.

End Recognition.

(* ================================================================== *)
(** ** Bucket path patterns: [expandPlaceholderedGlob] *)

Module Buckets.

(** [s.startsWith(t)] *)
Definition startsWith (s t : string) : bool := prefix t s.

(** [s.indexOf(t)]; [None] is [-1]. *)
Fixpoint indexOf_from (s t : string) (i : nat) : option nat :=
  if prefix t s then Some i
  else match s with
       | EmptyString => None
       | String _ s' => indexOf_from s' t (S i)
       end.

Definition indexOf (s t : string) : option nat := indexOf_from s t 0.

(** [s.substring(0, n)] and [s.substring(n)] for an index that is no
    negative number. *)
Fixpoint substring_to (n : nat) (s : string) : string :=
  match n, s with
  | S n', String c s' => String c (substring_to n' s')
  | _, _ => EmptyString
  end.

Fixpoint substring_from (n : nat) (s : string) : string :=
  match n, s with
  | S n', String _ s' => substring_from n' s'
  | _, _ => s
  end.

(** [s.split(sep)] for a separator string that is not empty: the
    occurrences are taken from left to right; [skip] counts the
    characters of an occurrence still to pass over. *)
Fixpoint split_string_go (sep s : string) (cur : string) (skip : nat) : list string :=
  match s with
  | EmptyString => [cur]
  | String c s' =>
      match skip with
      | S k => split_string_go sep s' cur k
      | 0 =>
          if prefix sep s
          then cur :: split_string_go sep s' "" (String.length sep - 1)
          else split_string_go sep s' (cur ++ String c "") 0
      end
  end.

Definition split_string (sep s : string) : list string := split_string_go sep s "" 0.

(** The expansion of a replacement text for one match: ["$$"] is a
    dollar sign, ["$&"] the matched text, ["$`"] the part of the string
    before the match and ["$'"] the part after it.  The pattern has no
    capture group, so every other ["$"] is kept as it is. *)
Fixpoint getSubstitution (matched before after template : string) : string :=
  match template with
  | EmptyString => EmptyString
  | String c rest =>
      if Ascii.eqb c "$"
      then match rest with
           | String d rest' =>
               if Ascii.eqb d "$"
               then String "$" (getSubstitution matched before after rest')
               else if Ascii.eqb d "&"
               then matched ++ getSubstitution matched before after rest'
               else if Ascii.eqb d "`"
               then before ++ getSubstitution matched before after rest'
               else if Ascii.eqb d "'"
               then after ++ getSubstitution matched before after rest'
               else String c (getSubstitution matched before after rest)
           | EmptyString => String c EmptyString
           end
      else String c (getSubstitution matched before after rest)
  end.

(** [s.replace(/<pattern>/g, replacement)] for a pattern that is a plain
    text and not empty: the occurrences are taken from left to right;
    [before] is the part of the string already passed, [skip] counts the
    characters of an occurrence still to pass over. *)
Fixpoint replaceAll_go (pattern replacement before s : string) (skip : nat) : string :=
  match s with
  | EmptyString => EmptyString
  | String c s' =>
      match skip with
      | S k => replaceAll_go pattern replacement (before ++ String c "") s' k
      | 0 =>
          if prefix pattern s
          then getSubstitution pattern before
                               (substring_from (String.length pattern) s) replacement
                 ++ replaceAll_go pattern replacement (before ++ String c "") s'
                                  (String.length pattern - 1)
          else String c (replaceAll_go pattern replacement (before ++ String c "") s' 0)
      end
  end.

Definition replaceAll (pattern replacement s : string) : string :=
  replaceAll_go pattern replacement "" s 0.

(** [xs.findIndex(p)]; [None] is [-1]. *)
Fixpoint findIndex_from {A} (p : A -> bool) (xs : list A) (i : nat) : option nat :=
  match xs with
  | [] => None
  | x :: rest => if p x then Some i else findIndex_from p rest (S i)
  end.

Definition findIndex {A} (p : A -> bool) (xs : list A) : option nat :=
  findIndex_from p xs 0.

(** [xs[i] = x] for an index within the array. *)
Fixpoint assign_at {A} (xs : list A) (i : nat) (x : A) : list A :=
  match xs, i with
  | [], _ => []
  | _ :: rest, 0 => x :: rest
  | y :: rest, S i' => y :: assign_at rest i' x
  end.

Record BucketItem := { path : string; delimiter : option string }.

(** A bucket entry of the configuration: a path, or an item. *)
Inductive bucketEntry :=
| EntryPath (p : string)
| EntryItem (item : BucketItem).

Definition resolveBucketItem (bucketItem : bucketEntry) : BucketItem :=
  match bucketItem with
  | EntryPath p => {| path := p; delimiter := None |}
  | EntryItem item => item
  end.

(** What [expandPlaceholderedGlob] throws: a [CLIError] with its message
    and documentation key, or the [TypeError] of a read on [undefined]. *)
Inductive failure :=
| CLIError (message docUrl : string)
| Uncaught (e : error).

Inductive attempt (A : Type) : Type :=
| Done (a : A)
| Failed (f : failure).
Arguments Done {A} a.
Arguments Failed {A} f.

Definition placeholder : string := "[locale]".

(** The failure of [placeholderedPathChunk.substring] on a path that has
    no segment at the place of the placeholder. *)
Definition no_segment : failure :=
  Uncaught (TypeError "Cannot read properties of undefined (reading 'substring')").

Section Expand.

(** Outside the function: [path.sep], [path.resolve], the path relative
    to [process.cwd()], and the full paths of the files and symbolic
    links that [glob.sync] finds for a pattern. *)
Variable sep : ascii.
Variable path_resolve : string -> string.
Variable path_relative_to_cwd : string -> string.
Variable glob_files : string -> list string.

(** The callback of [sourcePaths.map]. *)
Definition placeholderedPath (localeSegmentIndex localePlaceholderIndex : option nat)
    (sourceLocale sourcePath : string) : attempt string :=
  let sourcePathChunks := JsString.split sep sourcePath in
  match localeSegmentIndex, localePlaceholderIndex with
  | Some segmentIndex, Some placeholderIndex =>
      match nth_error sourcePathChunks segmentIndex with
      | None => Failed no_segment
      | Some placeholderedPathChunk =>
          let placeholderedSegment :=
            (substring_to placeholderIndex placeholderedPathChunk
             ++ placeholder
             ++ substring_from (placeholderIndex + String.length sourceLocale)
                               placeholderedPathChunk)%string in
          Done (JsString.join (String sep "")
                  (assign_at sourcePathChunks segmentIndex placeholderedSegment))
      end
  | _, _ => Done (JsString.join (String sep "") sourcePathChunks)
  end.

(** [xs.map(f)] for a callback that may throw. *)
Fixpoint map_attempt {A B} (f : A -> attempt B) (xs : list A) : attempt (list B) :=
  match xs with
  | [] => Done []
  | x :: rest =>
      match f x with
      | Failed e => Failed e
      | Done y =>
          match map_attempt f rest with
          | Failed e => Failed e
          | Done ys => Done (y :: ys)
          end
      end
  end.

Definition expandPlaceholderedGlob (_pathPattern sourceLocale : string)
  : attempt (list string) :=
  let absolutePathPattern := path_resolve _pathPattern in
  let pathPattern := path_relative_to_cwd absolutePathPattern in
  if startsWith (path_relative_to_cwd pathPattern) ".." then
    Failed (CLIError ("Invalid path pattern: " ++ pathPattern
                      ++ ". Path pattern must be within the current working directory.")
                     "invalidPathPattern")
  else if JsString.includes pathPattern "**" then
    Failed (CLIError ("Invalid path pattern: " ++ pathPattern
                      ++ ". Recursive path patterns are not supported.")
                     "invalidPathPattern")
  else if 2 <? length (split_string placeholder pathPattern) then
    Failed (CLIError ("Invalid path pattern: " ++ pathPattern
                      ++ ". Path pattern must contain at most one "
                      ++ String "034" ("[locale]" ++ String "034" " placeholder."))
                     "invalidPathPattern")
  else
    let pathPatternChunks := JsString.split sep pathPattern in
    let localeSegmentIndex :=
      findIndex (fun segment => JsString.includes segment placeholder)
                pathPatternChunks in
    let localePlaceholderIndex :=
      match localeSegmentIndex with
      | Some i =>
          match nth_error pathPatternChunks i with
          | Some segment => indexOf segment placeholder
          | None => None
          end
      | None => None
      end in
    let sourcePathPattern := replaceAll placeholder sourceLocale pathPattern in
    let sourcePaths := map path_relative_to_cwd (glob_files sourcePathPattern) in
    map_attempt
      (placeholderedPath localeSegmentIndex localePlaceholderIndex sourceLocale)
      sourcePaths.

End Expand.

End Buckets.

(* ================================================================== *)
(** ** Concrete inputs *)

Module Example.

(** An engine configuration with one entry per chunk. *)
Definition config1 : config :=
  {| apiKey := "key"; apiUrl := "https://engine.lingo.dev";
     batchSize := 1; idealBatchItemSize := 250 |}.

(** The default configuration. *)
Definition config25 : config :=
  {| apiKey := "key"; apiUrl := "https://engine.lingo.dev";
     batchSize := 25; idealBatchItemSize := 250 |}.

Definition params : localizationParams :=
  {| sourceLocale := Some "en"; targetLocale := "es"; fast := None; reference := None |}.

Definition localeCodeSchema (l : string) : bool :=
  existsb (String.eqb l) ["en"; "es"; "fr"].

Definition ZodError (_ : localizationParams) : error :=
  {| name := "ZodError"; message := "Invalid enum value" |}.

(** The state of the world is the state of the caller's signal. *)
Definition Env : Type := bool.
Definition signal_aborted (e : Env) : bool := e.
Definition createId {E : Type} (e : E) : string * E := ("workflow-1", e).

(** A caller with no signal: the world has no state. *)
Definition no_signal (_ : unit) : bool := false.
Definition quiet : Engine.world unit := {| Engine.env := tt; Engine.sent := [] |}.

(** A provider that answers every request with the same response. *)
Definition respond {E : Type} (res : response) (_ : request) (e : E)
  : result response * E :=
  (Ok res, e).

(** A provider that translates every value to itself. *)
Definition identity_provider {E : Type} (req : request) (e : E) : result response * E :=
  (Ok {| status := 200; statusText := "OK";
         text := Ok "";                       (* never read on success *)
         json := Ok (VObj [("data", VObj (req_data req))]) |}, e).

(** A provider that puts every string it is sent in brackets. *)
Definition bracket (_ : string) (v : value) : value :=
  match v with
  | VStr s => VStr ("[" ++ s ++ "]")
  | _ => v
  end.

Definition bracketing_provider {E : Type} (req : request) (e : E)
  : result response * E :=
  (Ok {| status := 200; statusText := "OK"; text := Ok "";
         json := Ok (VObj [("data", VObj (Engine.translated bracket (req_data req)))]) |},
   e).

(** A caller whose progress callback aborts the signal. *)
Definition aborting_callback : option (progress -> Env -> result unit * Env) :=
  Some (fun _ _ => (Ok tt, true)).

Definition any_name (_ : string) : bool := true.

(** A document all of whose elements are HTML elements. *)
Definition html_document (_ : ref) : bool := true.

Definition start : Engine.world Env := {| Engine.env := false; Engine.sent := [] |}.
Definition start_aborted : Engine.world Env := {| Engine.env := true; Engine.sent := [] |}.

Definition not_json : result value :=
  Throw {| name := "SyntaxError"; message := "Unexpected token" |}.

Definition bad_request : response :=
  {| status := 400; statusText := "Bad Request"; text := Ok "{}"; json := Ok (VObj []) |}.

Definition server_error : response :=
  {| status := 500; statusText := "Internal Server Error";
     text := Ok "upstream aborted the request"; json := not_json |}.

Definition overloaded : response :=
  {| status := 503; statusText := "Service Unavailable";
     text := Ok "try again later"; json := not_json |}.

Definition rate_limited : response :=
  {| status := 200; statusText := "OK"; text := Ok "";
     json := Ok (VObj [("error", VStr "rate limited")]) |}.

(** An error that is an object with an own [toString] property. *)
Definition unprintable_error : response :=
  {| status := 200; statusText := "OK"; text := Ok "";
     json := Ok (VObj [("error", VObj [("toString", VNum "1")])]) |}.

Definition translated : response :=
  {| status := 200; statusText := "OK"; text := Ok "";
     json := Ok (VObj [("data", VObj [("text", VStr "Hola")])]) |}.

Definition no_data : response :=
  {| status := 200; statusText := "OK"; text := Ok ""; json := Ok (VObj []) |}.

Definition empty_data : response :=
  {| status := 200; statusText := "OK"; text := Ok "";
     json := Ok (VObj [("data", VObj [])]) |}.

(** The answer to the transcript [chatA] of a provider that keys the
    translated messages by their index. *)
Definition chat_answer : response :=
  {| status := 200; statusText := "OK"; text := Ok "";
     json := Ok (VObj [("data", VObj [("chat_0", VStr "Hola");
                                      ("chat_1", VStr "Adios")])]) |}.

Definition null_body : response :=
  {| status := 200; statusText := "OK"; text := Ok ""; json := Ok VNull |}.

Definition unreachable {E : Type} (_ : request) (e : E) : result response * E :=
  (Throw (TypeError "fetch failed"), e).

(** A configuration whose word limit the first two entries of [payload3]
    exceed. *)
Definition tight : config :=
  {| apiKey := "key"; apiUrl := "https://engine.lingo.dev";
     batchSize := 25; idealBatchItemSize := 2 |}.

(** A three-entry payload; with [config1] it makes three chunks. *)
Definition payload3 : object :=
  [("7", VStr "seven"); ("title", VStr "Hello world"); ("body", VStr "Good morning")].

(** The same payload as [JSON.parse] gives it when the text has a
    ["__proto__"] member as well: an own property, enumerated after the
    array index. *)
Definition payload_with_proto : object :=
  [("7", VStr "seven"); ("__proto__", VStr "x y"); ("title", VStr "Hello world");
   ("body", VStr "Good morning")].

(** [<html><head><script>alert(1)</script></head>
     <body><p>Hello</p><style>p { color: red }</style></body></html>] *)
Definition script_document : node :=
  Element "HTML" []
    [Element "HEAD" [] [Element "SCRIPT" [] [Text "alert(1)"]];
     Element "BODY" []
       [Element "P" [] [Text "Hello"];
        Element "STYLE" [] [Text "p { color: red }"]]].

(** [<html><head><title>Hi</title></head><body> hi </body></html>] *)
Definition padded_document : node :=
  Element "HTML" []
    [Element "HEAD" [] [Element "TITLE" [] [Text "Hi"]];
     Element "BODY" [] [Text " hi "]].

(** [<html lang="en"><head><title>Hi</title><meta name="description"
     content="A page"></head><body><div><p>Keep</p></div>
     <img alt="A cat"></body></html>] *)
Definition plain_document : node :=
  Element "HTML" [("lang", "en")]
    [Element "HEAD" []
       [Element "TITLE" [] [Text "Hi"];
        Element "META" [("name", "description"); ("content", "A page")] []];
     Element "BODY" []
       [Element "DIV" [] [Element "P" [] [Text "Keep"]];
        Element "IMG" [("alt", "A cat")] []]].

(** [<html><head></head><body><script>let x</script><!-- note -->
     </body></html>] *)
Definition bare_document : node :=
  Element "HTML" []
    [Element "HEAD" [] [];
     Element "BODY" [] [Element "SCRIPT" [] [Text "let x"]; Comment " note "]].

(** A project in [/work] that holds a [README.md] and the messages of the
    locale [en]: [path.resolve], the path relative to the working
    directory, and what [glob] finds. *)
Definition resolve_in_work (p : string) : string := "/work/" ++ p.
Definition relative_to_work (p : string) : string :=
  if prefix "/work/" p then Buckets.substring_from 6 p else p.
Definition found (pattern : string) : list string :=
  if String.eqb pattern "locales/en/*.json"
  then ["/work/locales/en/app.json"; "/work/locales/en/errors.json"]
  else if String.eqb pattern "{i18n,locales/en}/en.json"
  then ["/work/i18n/en.json"; "/work/locales/en/en.json"]
  else if String.eqb pattern "README.md" then ["/work/README.md"]
  else [].

Definition chatA : list Chat.message :=
  [{| Chat.name := "Alice"; Chat.text := "Hello" |};
   {| Chat.name := "Bob"; Chat.text := "Bye" |}].

Definition chatB : list Chat.message :=
  [{| Chat.name := "Carol"; Chat.text := "Hello" |};
   {| Chat.name := "Dave"; Chat.text := "Bye" |}].

End Example.

(* ================================================================== *)
(** ** Reference definitions taken from the specification's wording *)

(** "Word counting splits on whitespace runs and drops empty tokens": the
    words of a string are its maximal runs of characters that are not
    white space.  [in_word] tells that the previous character belonged to
    a word. *)
Fixpoint word_runs (s : string) (in_word : bool) : nat :=
  match s with
  | EmptyString => 0
  | String c s' =>
      if JsString.is_ws c then word_runs s' false
      else (if in_word then 0 else 1) + word_runs s' true
  end.

(** The payload of the specification's word-count example. *)
Definition word_count_example : value :=
  VObj [("a", VStr "hello world"); ("b", VArr [VStr "foo"; VStr "bar baz"])].

(* ================================================================== *)
(** ** Word counting *)

Section WordCount.

Import JsString.

Lemma split_ws_go_count (s : string) :
  forall cur in_sep,
    (in_sep = true -> cur = "") ->
    length (filter truthy (split_ws_go s cur in_sep))
    = word_runs s (truthy cur) + (if truthy cur then 1 else 0).
Proof.
  induction s as [|c s IH]; intros cur in_sep Hsep; simpl.
  - destruct (truthy cur); reflexivity.
  - destruct (is_ws c).
    + destruct in_sep.
      * rewrite (Hsep eq_refl). rewrite IH by reflexivity. reflexivity.
      * simpl. destruct (truthy cur); simpl; rewrite IH by reflexivity; simpl; lia.
    + rewrite IH by discriminate.
      assert (Ht : truthy (cur ++ String c "") = true)
        by (destruct cur; reflexivity).
      rewrite Ht. destruct (truthy cur); lia.
Qed.

Lemma word_runs_trimStart (s : string) :
  word_runs (trimStart s) false = word_runs s false.
Proof.
  induction s as [|c s IH]; simpl; [reflexivity|].
  destruct (is_ws c) eqn:E; [exact IH|]. simpl. rewrite E. reflexivity.
Qed.

Lemma word_runs_trimEnd (s : string) :
  forall b, word_runs (trimEnd s) b = word_runs s b.
Proof.
  induction s as [|c s IH]; intro b; simpl; [reflexivity|].
  destruct (trimEnd s) as [|c' r] eqn:E.
  - destruct (is_ws c) eqn:Ec; simpl.
    + rewrite <- IH. reflexivity.
    + rewrite Ec. rewrite <- IH. reflexivity.
  - simpl. destruct (is_ws c) eqn:Ec.
    + rewrite <- IH. reflexivity.
    + rewrite <- IH. reflexivity.
Qed.

Lemma countWordsInString_runs (s : string) :
  countWordsInString s = word_runs s false.
Proof.
  unfold countWordsInString, split_ws, trim.
  rewrite split_ws_go_count by discriminate. simpl.
  rewrite word_runs_trimEnd, word_runs_trimStart. lia.
Qed.

End WordCount.

Lemma fold_left_add_sum {A} (f : A -> nat) (l : list A) :
  forall a, fold_left (fun acc x => acc + f x) l a = a + list_sum (map f l).
Proof.
  induction l as [|x l IH]; intro a; simpl; [lia|]. rewrite IH. lia.
Qed.

Lemma countWordsInRecord_array (items : list value) :
  countWordsInRecord (VArr items) = list_sum (map countWordsInRecord items).
Proof. simpl. rewrite fold_left_add_sum. reflexivity. Qed.

Lemma countWordsInRecord_object (o : object) :
  countWordsInRecord (VObj o)
  = list_sum (map countWordsInRecord (JsObject.values o)).
Proof.
  simpl. rewrite (fold_left_add_sum (fun e => countWordsInRecord (snd e))).
  unfold JsObject.values. rewrite map_map. reflexivity.
Qed.

(** C8, as the specification states it, fails: the example payload holds
    five words (hello, world, foo, bar, baz), so its count is not 4. *)
Lemma word_count_example_is_not_4 :
  (countWordsInRecord word_count_example =? 4) = false.
Proof. reflexivity. Qed.

(** C8 (amended): the recursive word count of
    [{"a":"hello world", "b":["foo","bar baz"]}] is 5; a string counts its
    maximal runs of non-white-space characters (split on white-space runs,
    empty tokens dropped), arrays and nested objects sum the counts of
    their items, and every other value counts zero. *)
Theorem word_count_example_is_5 :
  countWordsInRecord word_count_example = 5
  /\ (forall s, countWordsInRecord (VStr s) = word_runs s false)
  /\ (forall items,
        countWordsInRecord (VArr items) = list_sum (map countWordsInRecord items))
  /\ (forall o,
        countWordsInRecord (VObj o)
        = list_sum (map countWordsInRecord (JsObject.values o)))
  /\ countWordsInRecord VNull = 0
  /\ (forall b, countWordsInRecord (VBool b) = 0)
  /\ (forall t, countWordsInRecord (VNum t) = 0).
Proof.
  split; [reflexivity|].
  split; [exact countWordsInString_runs|].
  split; [exact countWordsInRecord_array|].
  split; [exact countWordsInRecord_object|].
  repeat split.
Qed.

(* ================================================================== *)
(** ** The chunker *)

Section Chunker.

Import JsObject.

Let follows (e e' : string * value) : Prop := in_order (fst e) (fst e') = true.

Lemma wf_app_r (l1 l2 : object) : wf (l1 ++ l2) -> wf l2.
Proof.
  unfold wf, keys. rewrite map_app. intros (Hnd & Hs & Hp).
  split; [|split].
  - clear Hs Hp. induction (map fst l1); simpl in Hnd; [assumption|].
    inversion Hnd; auto.
  - clear Hnd Hp. induction l1; simpl in Hs; [assumption|].
    inversion Hs; auto.
  - intro H. apply Hp. apply in_or_app. now right.
Qed.

Lemma wf_app_mid (l1 l2 : object) (k : string) (v : value) :
  wf (l1 ++ (k, v) :: l2) ->
  ~ In k (keys l1) /\ Forall (fun e => follows e (k, v)) l1 /\ k <> "__proto__".
Proof.
  unfold wf, keys. rewrite map_app. simpl. intros (Hnd & Hs & Hp).
  split; [|split].
  - apply NoDup_remove_2 in Hnd. intro H. apply Hnd. apply in_or_app. now left.
  - clear Hnd Hp. induction l1 as [|e l1 IH]; simpl in Hs; constructor.
    + inversion Hs as [|? ? _ Hall]; subst.
      rewrite Forall_forall in Hall. apply Hall. apply in_or_app. right. now left.
    + apply IH. now inversion Hs.
  - intro E. apply Hp. apply in_or_app. right. left. exact E.
Qed.

(** A key that is new and that the enumeration order puts after every
    key of the object becomes its last entry. *)
Lemma define_append (k : string) (v : value) (o : object) :
  ~ In k (keys o) ->
  Forall (fun e => follows e (k, v)) o ->
  define k v o = o ++ [(k, v)].
Proof.
  induction o as [|[k' v'] o IH]; intros Hni Hall; simpl; [reflexivity|].
  inversion Hall as [|? ? Hf Hall']; subst.
  destruct (String.eqb_spec k k') as [->|Hne].
  - exfalso. apply Hni. now left.
  - assert (Hg : goes_before k k' = false).
    { unfold follows, in_order in Hf. simpl in Hf. unfold goes_before.
      destruct (array_index k) as [n|], (array_index k') as [n'|];
        try reflexivity; try discriminate.
      apply N.ltb_lt in Hf. apply N.ltb_ge. lia. }
    rewrite Hg. f_equal. apply IH; [|assumption].
    intro H. apply Hni. now right.
Qed.

Lemma set_append (k : string) (v : value) (l1 l2 : object) :
  wf (l1 ++ (k, v) :: l2) -> set k v l1 = l1 ++ [(k, v)].
Proof.
  intro H. destruct (wf_app_mid _ _ _ _ H) as (Hni & Hall & Hp).
  unfold set. destruct (String.eqb_spec k "__proto__") as [E|_]; [contradiction|].
  now apply define_append.
Qed.

(** [payloadSchema.parse] gives a payload without an own ["__proto__"]
    back as it is. *)
Lemma payloadSchema_parse_loop (source : list (string * value)) :
  forall final : object,
    wf (final ++ source) ->
    fold_left (fun final kv =>
                 if String.eqb (fst kv) "__proto__" then final
                 else set (fst kv) (snd kv) final) source final
    = final ++ source.
Proof.
  induction source as [|[k v] source IH]; intros final Hwf; simpl.
  - now rewrite app_nil_r.
  - destruct (wf_app_mid _ _ _ _ Hwf) as (_ & _ & Hp).
    apply String.eqb_neq in Hp. rewrite Hp.
    rewrite (set_append k v final source Hwf).
    rewrite IH; rewrite <- app_assoc; [reflexivity | exact Hwf].
Qed.

Lemma payloadSchema_parse_wf (payload : object) :
  wf payload -> payloadSchema_parse payload = payload.
Proof.
  intro Hwf. unfold payloadSchema_parse, entries.
  now rewrite (payloadSchema_parse_loop payload [] Hwf).
Qed.

Variable cfg : config.

Lemma extractPayloadChunks_loop_concat (len : nat) (payloadEntries : list (string * value)) :
  forall i currentChunk count result,
    i + length payloadEntries = len ->
    (payloadEntries = [] -> currentChunk = []) ->
    wf (currentChunk ++ payloadEntries) ->
    concat (extractPayloadChunks_loop cfg len payloadEntries i currentChunk count result)
    = concat result ++ currentChunk ++ payloadEntries.
Proof.
  induction payloadEntries as [|[k v] rest IH];
    intros i cur count result Hlen Hcur Hwf; simpl.
  - rewrite (Hcur eq_refl). now rewrite app_nil_r.
  - rewrite (set_append _ _ _ _ Hwf).
    assert (Hwf' : wf ((cur ++ [(k, v)]) ++ rest))
      by (now rewrite <- app_assoc).
    simpl in Hlen.
    destruct ((idealBatchItemSize cfg <? _) || (batchSize cfg <=? S count) || (i =? len - 1))
      eqn:Hclose.
    + rewrite IH.
      * rewrite concat_app. simpl. rewrite app_nil_r, <- !app_assoc. reflexivity.
      * lia.
      * reflexivity.
      * simpl. exact (wf_app_r _ _ Hwf').
    + rewrite IH.
      * rewrite <- !app_assoc. reflexivity.
      * lia.
      * intros ->. simpl in Hlen.
        apply orb_false_iff in Hclose. destruct Hclose as [_ Hlast].
        apply Nat.eqb_neq in Hlast. lia.
      * exact Hwf'.
Qed.

Lemma extractPayloadChunks_concat (payload : object) :
  wf payload ->
  concat (map entries (extractPayloadChunks cfg payload)) = entries payload.
Proof.
  intro Hwf. unfold extractPayloadChunks, entries. rewrite map_id.
  rewrite extractPayloadChunks_loop_concat; auto.
Qed.

End Chunker.

(** Among lists whose concatenation has no duplicate, an element belongs
    to one list only. *)
Lemma NoDup_concat_unique {A} (ls : list (list A)) :
  NoDup (concat ls) ->
  forall i j a b x,
    nth_error ls i = Some a -> nth_error ls j = Some b ->
    In x a -> In x b -> i = j.
Proof.
  induction ls as [|l ls IH]; intros Hnd i j a b x Hi Hj Ha Hb.
  - destruct i; discriminate.
  - simpl in Hnd.
    assert (Hdisj : forall y, In y l -> ~ In y (concat ls)).
    { intros y Hy Hc. revert Hnd Hy Hc. clear. induction l as [|z l IHl]; simpl.
      - tauto.
      - intros Hnd [-> | Hy] Hc.
        + inversion Hnd; subst. apply H1. apply in_or_app. now right.
        + inversion Hnd; subst. now apply IHl. }
    assert (Htail : NoDup (concat ls)).
    { revert Hnd. clear. induction l; simpl; [tauto|]. intro H. inversion H; auto. }
    assert (Hin : forall n c, nth_error ls n = Some c -> In x c -> In x (concat ls)).
    { intros n c Hn Hc. apply in_concat. exists c. split; [|assumption].
      eapply nth_error_In; eassumption. }
    destruct i as [|i], j as [|j]; simpl in Hi, Hj.
    + reflexivity.
    + injection Hi as <-. exfalso. eapply Hdisj; eauto.
    + injection Hj as <-. exfalso. eapply Hdisj; eauto.
    + f_equal. eapply IH; eauto.
Qed.

Ltac solve_wf :=
  unfold JsObject.wf, JsObject.keys; simpl;
  repeat split;
  [ repeat constructor; simpl; intuition discriminate
  | repeat constructor
  | intuition discriminate ].

(** C1: for every payload (an object as [payloadSchema.parse] returns it),
    the chunks of [extractPayloadChunks], concatenated in order, are
    exactly the entries of the payload in their original order; no key is
    duplicated, and every key of the payload is in exactly one chunk. *)
Theorem extractPayloadChunks_partition (cfg : config) (payload : object) :
  JsObject.wf payload ->
  let chunks := extractPayloadChunks cfg payload in
  concat (map JsObject.entries chunks) = JsObject.entries payload
  /\ NoDup (JsObject.keys (concat (map JsObject.entries chunks)))
  /\ (forall k, In k (JsObject.keys payload) ->
        exists i c,
          nth_error chunks i = Some c /\ In k (JsObject.keys c)
          /\ forall j c', nth_error chunks j = Some c' ->
                          In k (JsObject.keys c') -> j = i).
Proof.
  intros Hwf chunks.
  pose proof (extractPayloadChunks_concat cfg payload Hwf) as Hcat.
  fold chunks in Hcat.
  assert (Hnd : NoDup (JsObject.keys (concat (map JsObject.entries chunks))))
    by (rewrite Hcat; exact (proj1 Hwf)).
  split; [exact Hcat|]. split; [exact Hnd|].
  intros k Hk.
  unfold JsObject.entries in Hcat, Hnd. rewrite map_id in Hcat, Hnd.
  assert (Hkc : In k (JsObject.keys (concat chunks))) by (rewrite Hcat; exact Hk).
  unfold JsObject.keys in Hkc, Hnd. rewrite concat_map in Hkc, Hnd.
  apply in_concat in Hkc. destruct Hkc as (ks & Hks & Hkin).
  apply in_map_iff in Hks. destruct Hks as (c & <- & Hc).
  apply In_nth_error in Hc. destruct Hc as (i & Hi).
  exists i, c. split; [exact Hi|]. split; [exact Hkin|].
  intros j c' Hj Hkin'.
  eapply (NoDup_concat_unique _ Hnd j i (map fst c') (map fst c) k); auto.
  - apply map_nth_error. exact Hj.
  - apply map_nth_error. exact Hi.
Qed.

(* ================================================================== *)
(** ** The per-chunk call and the batch loop *)

Lemma includes_truthy (s t : string) :
  JsString.truthy t = true ->
  (JsString.truthy s && JsString.includes s t)%bool = JsString.includes s t.
Proof.
  intro Ht. destruct s; simpl; [|reflexivity].
  destruct t; [discriminate|reflexivity].
Qed.

(** Induction on a JSON value, with the property at hand for the items
    of an array. *)
Lemma value_induction (P : value -> Prop) :
  P VNull -> (forall b, P (VBool b)) -> (forall t, P (VNum t)) ->
  (forall s, P (VStr s)) ->
  (forall items, Forall P items -> P (VArr items)) ->
  (forall o, P (VObj o)) ->
  forall v, P v.
Proof.
  intros Hnull Hbool Hnum Hstr Harr Hobj.
  fix IH 1. intros [|b|t|s|items|o].
  - exact Hnull.
  - apply Hbool.
  - apply Hnum.
  - apply Hstr.
  - apply Harr.
    induction items as [|item rest IHrest]; constructor; [apply IH | exact IHrest].
  - apply Hobj.
Qed.

(** The only failure of [ToString] on a JSON value. *)
Lemma to_string_Throw (v : value) (e : error) :
  to_string v = Throw e -> e = cannot_convert.
Proof.
  revert e. induction v as [|b|t|s|items IHitems|o] using value_induction; intro e;
    try (destruct b); simpl; try discriminate.
  - induction IHitems as [|item rest Hitem _ IHrest]; [discriminate|].
    intro H.
    destruct (match item with VNull => Ok "" | _ => to_string item end) as [s|e'] eqn:E.
    + destruct rest as [|item' rest']; [discriminate|].
      apply IHrest.
      lazymatch type of H with
      | match ?j with _ => _ end = _ => destruct j; [discriminate|]
      end.
      congruence.
    + injection H as <-. destruct item; try discriminate; exact (Hitem _ E).
  - destruct (existsb _ _); [|discriminate]. now intros [= <-].
Qed.

Section EngineFacts.

Variable Env : Type.
Variable signal_aborted : Env -> bool.
Variable fetch : request -> Env -> result response * Env.
Variable createId : Env -> string * Env.
Variable progressCallback : option (progress -> Env -> result unit * Env).
Variable localeCodeSchema : string -> bool.
Variable ZodError : localizationParams -> error.
Variable valid_attribute_name : string -> bool.
Variable in_html_namespace : ref -> bool.
Variable cfg : config.

Local Abbreviation world := (Engine.world Env).
Local Abbreviation localizeChunk_try := (Engine.localizeChunk_try fetch cfg).
Local Abbreviation localizeChunk := (Engine.localizeChunk signal_aborted fetch cfg).
Local Abbreviation call_progress := (Engine.call_progress progressCallback).
Local Abbreviation call_createId := (Engine.call_createId createId).
Local Abbreviation _localizeRaw_loop := (Engine._localizeRaw_loop signal_aborted fetch progressCallback cfg).
Local Abbreviation _localizeRaw :=
  (Engine._localizeRaw signal_aborted fetch createId progressCallback localeCodeSchema ZodError cfg).
Local Abbreviation localizeChat :=
  (Engine.localizeChat signal_aborted fetch createId progressCallback localeCodeSchema ZodError cfg).

Lemma normalize_abort_Error {A} (msg : string) (w : world) :
  @normalize_abort Env A (Error msg) w = (Throw (surfaced msg), w).
Proof.
  unfold normalize_abort, is_abort_error, surfaced. simpl.
  rewrite includes_truthy by reflexivity.
  destruct (JsString.includes msg "aborted"); reflexivity.
Qed.


Lemma normalize_abort_includes {A} (e : error) (w : world) :
  JsString.includes (message e) "aborted" = true ->
  @normalize_abort Env A e w = (Throw (Error aborted_message), w).
Proof.
  intro H. unfold normalize_abort, is_abort_error.
  rewrite includes_truthy by reflexivity. rewrite H, orb_true_r. reflexivity.
Qed.

Section OneChunk.

Variables (sourceLocale : option string) (targetLocale : string)
          (data : object) (reference : option (list (string * object)))
          (workflowId : string) (fast : bool).

Let req := chunk_request cfg sourceLocale targetLocale data reference workflowId fast.
Let run := localizeChunk sourceLocale targetLocale data reference workflowId fast.
Let try_body :=
  localizeChunk_try sourceLocale targetLocale data reference workflowId fast.

Lemma localizeChunk_unfold (w : world) :
  signal_aborted (env w) = false ->
  run w = try_catch try_body normalize_abort w.
Proof.
  intro H. unfold run, Engine.localizeChunk, bind, aborted. rewrite H. reflexivity.
Qed.

Lemma localizeChunk_aborted (w : world) :
  signal_aborted (env w) = true ->
  run w = (Throw (Error aborted_message), w).
Proof.
  intro H. unfold run, Engine.localizeChunk, bind, aborted. rewrite H. reflexivity.
Qed.

(** The [try] block hands exactly one request to [fetch]. *)
Lemma localizeChunk_try_sent (w : world) :
  sent (snd (try_body w)) = sent w ++ [req].
Proof.
  unfold try_body, Engine.localizeChunk_try, bind, await_fetch.
  fold req. destruct (fetch req (env w)) as [[res|e] e1]; simpl; [|reflexivity].
  destruct (negb (ok res)).
  - destruct (status res =? 400)%N; [reflexivity|].
    unfold lift. destruct (text res); reflexivity.
  - unfold lift. destruct (json res) as [j|]; [|reflexivity].
    destruct (read_field "data" j); [|reflexivity].
    destruct (read_field "error" j) as [err|]; [|reflexivity].
    destruct (_ && _)%bool; [|reflexivity].
    destruct (match err with Some v => to_string v | None => Ok "" end); reflexivity.
Qed.

Lemma localizeChunk_sent (w : world) :
  signal_aborted (env w) = false ->
  sent (snd (run w)) = sent w ++ [req].
Proof.
  intro H. rewrite localizeChunk_unfold by assumption.
  unfold try_catch. pose proof (localizeChunk_try_sent w) as Hs.
  destruct (try_body w) as [[v|e] w']; simpl in *; [assumption|].
  unfold normalize_abort. destruct (is_abort_error e); assumption.
Qed.

Lemma localizeChunk_Ok_not_aborted (w w' : world) (v : value) :
  run w = (Ok v, w') -> signal_aborted (env w) = false.
Proof.
  intro H. destruct (signal_aborted (env w)) eqn:E; [|reflexivity].
  rewrite localizeChunk_aborted in H by assumption. discriminate.
Qed.

End OneChunk.

(** C9: in [localizeChunk], a failure thrown inside the [try] block whose
    message contains "aborted" leaves the call as the canonical failure
    "Localization was aborted", whatever the abort signal says; this
    includes the failure made from the body of a non-success response
    (other than 400) that contains the substring. *)
Theorem localizeChunk_aborted_substring
    (sourceLocale : option string) (targetLocale : string)
    (data : object) (reference : option (list (string * object)))
    (workflowId : string) (fast : bool) (w : world) :
  signal_aborted (env w) = false ->
  (forall e w',
      localizeChunk_try sourceLocale targetLocale data reference workflowId fast w
      = (Throw e, w') ->
      JsString.includes (message e) "aborted" = true ->
      localizeChunk sourceLocale targetLocale data reference workflowId fast w
      = (Throw (Error aborted_message), w'))
  /\ (forall res e1 body,
        fetch (chunk_request cfg sourceLocale targetLocale data reference workflowId fast)
              (env w) = (Ok res, e1) ->
        ok res = false -> status res <> 400%N -> text res = Ok body ->
        JsString.includes body "aborted" = true ->
        localizeChunk sourceLocale targetLocale data reference workflowId fast w
        = (Throw (Error aborted_message),
           {| env := e1;
              sent := sent w ++ [chunk_request cfg sourceLocale targetLocale data
                                               reference workflowId fast] |})).
Proof.
  intro Hsig. split.
  - intros e w' Htry Hinc.
    rewrite localizeChunk_unfold by assumption.
    unfold try_catch. rewrite Htry. now apply normalize_abort_includes.
  - intros res e1 body Hfetch Hok Hst Hbody Hinc.
    rewrite localizeChunk_unfold by assumption.
    unfold try_catch, Engine.localizeChunk_try, bind, await_fetch.
    rewrite Hfetch, Hok. simpl.
    apply N.eqb_neq in Hst. rewrite Hst.
    unfold lift. rewrite Hbody. unfold throw.
    now apply normalize_abort_includes.
Qed.

(** C4 (amended): what [localizeChunk] makes of a provider response.
    Status 400 raises "Invalid request: <status text>"; any other
    non-success status raises the raw body text; a success response whose
    JSON object has no truthy [data] but a truthy [error] raises that
    error converted to a string; in these three cases a message that
    contains "aborted" is replaced by the canonical cancellation failure.
    When the [error] cannot be converted to a string (it is an object
    with an own [toString] property, or an array that holds one) the
    [TypeError] of the conversion is raised instead.  Any other success
    response with a JSON object returns its [data], or the empty mapping
    when [data] is absent or falsy. *)
Theorem localizeChunk_response
    (sourceLocale : option string) (targetLocale : string)
    (data : object) (reference : option (list (string * object)))
    (workflowId : string) (fast : bool) (w : world)
    (res : response) (e1 : Env) :
  signal_aborted (env w) = false ->
  fetch (chunk_request cfg sourceLocale targetLocale data reference workflowId fast)
        (env w) = (Ok res, e1) ->
  let w1 := {| env := e1;
               sent := sent w ++ [chunk_request cfg sourceLocale targetLocale data
                                                reference workflowId fast] |} in
  let run := localizeChunk sourceLocale targetLocale data reference workflowId fast w in
  (status res = 400%N ->
     run = (Throw (surfaced ("Invalid request: " ++ statusText res)), w1))
  /\ (ok res = false -> status res <> 400%N ->
      forall body, text res = Ok body -> run = (Throw (surfaced body), w1))
  /\ (ok res = true ->
      forall o, json res = Ok (VObj o) ->
        truthy_field (JsObject.get "data" o) = false ->
        forall err, JsObject.get "error" o = Some err -> truthy err = true ->
        match to_string err with
        | Ok msg => run = (Throw (surfaced msg), w1)
        | Throw _ => run = (Throw cannot_convert, w1)
        end)
  /\ (ok res = true ->
      forall o, json res = Ok (VObj o) ->
        truthy_field (JsObject.get "data" o) = true
        \/ truthy_field (JsObject.get "error" o) = false ->
        run = (Ok (match JsObject.get "data" o with
                   | Some d => if truthy d then d else VObj []
                   | None => VObj []
                   end), w1)).
Proof.
  intros Hsig Hfetch w1 run. subst run.
  rewrite localizeChunk_unfold by assumption.
  unfold try_catch, Engine.localizeChunk_try, bind, await_fetch.
  rewrite Hfetch. fold w1.
  split; [|split; [|split]].
  - intro Hst.
    assert (Hok : ok res = false) by (unfold ok; rewrite Hst; reflexivity).
    rewrite Hok, Hst. simpl. apply normalize_abort_Error.
  - intros Hok Hst body Hbody. rewrite Hok. simpl.
    apply N.eqb_neq in Hst. rewrite Hst.
    unfold lift. rewrite Hbody. apply normalize_abort_Error.
  - intros Hok o Hjson Hdata err Herr Htruthy. rewrite Hok. simpl.
    unfold lift. rewrite Hjson. simpl. rewrite Hdata, Herr. simpl.
    rewrite Htruthy. simpl.
    destruct (to_string err) as [msg|e] eqn:E; simpl.
    + apply normalize_abort_Error.
    + rewrite (to_string_Throw _ _ E). reflexivity.
  - intros Hok o Hjson Hcase. rewrite Hok. simpl.
    unfold lift. rewrite Hjson. simpl.
    destruct Hcase as [Hd | He].
    + rewrite Hd. reflexivity.
    + rewrite He, andb_false_r. reflexivity.
Qed.

Lemma call_progress_sent (p : progress) (w : world) :
  sent (snd (call_progress p w)) = sent w.
Proof.
  unfold Engine.call_progress. destruct progressCallback as [callback|]; [|reflexivity].
  destruct (callback p (env w)); reflexivity.
Qed.

Lemma payloadSchema_parse_single (k : string) (v : value) :
  k <> "__proto__" -> payloadSchema_parse [(k, v)] = [(k, v)].
Proof.
  intro Hk. unfold payloadSchema_parse, JsObject.set. simpl.
  apply String.eqb_neq in Hk. now rewrite Hk.
Qed.

Lemma extractPayloadChunks_single (k : string) (v : value) :
  k <> "__proto__" -> extractPayloadChunks cfg [(k, v)] = [[(k, v)]].
Proof.
  intro Hk. unfold extractPayloadChunks. simpl.
  unfold JsObject.set. apply String.eqb_neq in Hk. rewrite Hk. simpl.
  rewrite orb_true_r. reflexivity.
Qed.

(** C5: [_localizeRaw] checks the signal on entry and before each chunk.
    If the signal is aborted on entry the call fails with the
    cancellation failure and the world is untouched, so no request was
    sent.  Whenever the loop is about to dispatch a chunk and the signal
    is aborted, it fails with the cancellation failure and dispatches
    nothing more.  If the payload, as [payloadSchema.parse] returns it,
    makes three chunks, the first chunk is localized and reported, and
    the signal is aborted by then, the call fails with the cancellation
    failure having sent exactly one request, the one of the first
    chunk. *)
Theorem _localizeRaw_cancellation (payload : object) (params : localizationParams)
    (w : world) :
  (signal_aborted (env w) = true ->
     _localizeRaw payload params w = (Throw (Error aborted_message), w))
  /\ (forall workflowId len chunk rest i processed w0,
        signal_aborted (env w0) = true ->
        _localizeRaw_loop params workflowId len (chunk :: rest) i processed w0
        = (Throw (Error aborted_message), w0))
  /\ (forall c1 c2 c3 id v w1 w2 w3,
        extractPayloadChunks cfg (payloadSchema_parse payload) = [c1; c2; c3] ->
        signal_aborted (env w) = false ->
        valid_params localeCodeSchema params = true ->
        call_createId w = (Ok id, w1) ->
        localizeChunk (sourceLocale params) (targetLocale params) c1
                      (reference params) id
                      (match fast params with Some b => b | None => false end) w1
        = (Ok v, w2) ->
        call_progress {| completed := 1; total := 3;
                         sourceChunk := c1; processedChunk := v |} w2
        = (Ok tt, w3) ->
        signal_aborted (env w3) = true ->
        _localizeRaw payload params w = (Throw (Error aborted_message), w3)
        /\ sent w3
           = sent w ++ [chunk_request cfg (sourceLocale params) (targetLocale params) c1
                          (reference params) id
                          (match fast params with Some b => b | None => false end)]).
Proof.
  split; [|split].
  - intro H. unfold Engine._localizeRaw, bind, aborted. rewrite H. reflexivity.
  - intros workflowId len chunk rest i processed w0 H.
    simpl. unfold bind, aborted. rewrite H. reflexivity.
  - intros c1 c2 c3 id v w1 w2 w3 Hchunks Hsig Hvalid Hid Hchunk Hprog Hab.
    pose proof (localizeChunk_Ok_not_aborted _ _ _ _ _ _ _ _ _ Hchunk) as Hsig1.
    split.
    + unfold Engine._localizeRaw, bind, aborted. rewrite Hsig, Hvalid. simpl.
      rewrite Hid, Hchunks. simpl.
      unfold bind, aborted. rewrite Hsig1, Hchunk, Hprog, Hab. reflexivity.
    + pose proof (localizeChunk_sent (sourceLocale params) (targetLocale params) c1
                    (reference params) id
                    (match fast params with Some b => b | None => false end)
                    w1 Hsig1) as Hsent.
      rewrite Hchunk in Hsent. simpl in Hsent.
      pose proof (call_progress_sent
                    {| completed := 1; total := 3;
                       sourceChunk := c1; processedChunk := v |} w2) as Hp.
      rewrite Hprog in Hp. simpl in Hp.
      assert (Hw1 : sent w1 = sent w).
      { unfold Engine.call_createId in Hid.
        destruct (createId (env w)). injection Hid as _ <-. reflexivity. }
      rewrite Hp, Hsent, Hw1. reflexivity.
Qed.

Lemma chat_value_injective (chat chat' : list Chat.message) :
  chat_value chat = chat_value chat' -> chat = chat'.
Proof.
  unfold chat_value. intro H. injection H as H. revert chat' H.
  induction chat as [|[n t] chat IH]; intros [|[n' t'] chat'] H;
    try discriminate; [reflexivity|].
  simpl in H. injection H as -> -> H. f_equal. now apply IH.
Qed.

(** C2 (amended): when [localizeChat] runs (signal not aborted, valid
    parameters) it sends exactly one request, and the data of that
    request is the one-entry mapping from ["chat"] to the whole
    transcript, every message with its [name] and its [text]; the
    provider-bound data of two transcripts are equal only if the
    transcripts are equal, names included. *)
Theorem localizeChat_request (chat : list Chat.message) (params : localizationParams)
    (w : world) (id : string) (e1 : Env) :
  signal_aborted (env w) = false ->
  valid_params localeCodeSchema params = true ->
  createId (env w) = (id, e1) ->
  signal_aborted e1 = false ->
  sent (snd (localizeChat chat params w))
  = sent w ++ [chunk_request cfg (sourceLocale params) (targetLocale params)
                 [("chat", chat_value chat)] (reference params) id
                 (match fast params with Some b => b | None => false end)]
  /\ (forall chat', chat_value chat = chat_value chat' -> chat = chat').
Proof.
  intros Hsig Hvalid Hid Hsig1. split; [|apply chat_value_injective].
  unfold Engine.localizeChat, Engine._localizeRaw, bind, aborted.
  rewrite Hsig, Hvalid. simpl.
  unfold Engine.call_createId. rewrite Hid.
  rewrite payloadSchema_parse_single, extractPayloadChunks_single by discriminate. simpl.
  unfold bind, aborted. simpl. rewrite Hsig1.
  set (w1 := {| env := e1; sent := sent w |}).
  pose proof (localizeChunk_sent (sourceLocale params) (targetLocale params)
                [("chat", chat_value chat)] (reference params) id
                (match fast params with Some b => b | None => false end)
                w1 Hsig1) as Hsent.
  destruct (localizeChunk _ _ _ _ _ _ w1) as [[v|e] w2]; simpl in Hsent;
    [|exact Hsent].
  match goal with |- context [call_progress ?p w2] =>
    pose proof (call_progress_sent p w2) as Hp;
    destruct (call_progress p w2) as [[[]|e] w3] end;
    simpl in Hp; unfold ret, lift; simpl; rewrite Hp; exact Hsent.
Qed.

End EngineFacts.

(* ================================================================== *)
(** ** The theorems above at concrete inputs *)

Section Instances.

Import Example.

Let chunk := Engine.localizeChunk signal_aborted.
Let chatRun :=
  Engine.localizeChat signal_aborted identity_provider createId None
                      localeCodeSchema ZodError config25.

(** C1 at a three-entry payload with an array-index key. *)
Lemma extractPayloadChunks_partition_witness :
  JsObject.wf payload3
  /\ concat (map JsObject.entries (extractPayloadChunks config1 payload3))
     = JsObject.entries payload3
  /\ length (extractPayloadChunks config1 payload3) = 3.
Proof.
  split; [solve_wf|]. split; [|reflexivity].
  apply (extractPayloadChunks_partition config1 payload3). solve_wf.
Defined.

(** C9 at a provider that answers 500 with a body that mentions
    "aborted", the signal never being aborted. *)
Lemma localizeChunk_aborted_substring_witness :
  signal_aborted (Engine.env start) = false
  /\ fst (chunk (respond server_error) config25 (Some "en") "es"
                [("text", VStr "Hi")] None "workflow-1" false start)
     = Throw (Error aborted_message).
Proof.
  split; [reflexivity|].
  destruct (localizeChunk_aborted_substring Env signal_aborted (respond server_error)
              config25 (Some "en") "es" [("text", VStr "Hi")] None "workflow-1"
              false start eq_refl) as [_ H].
  unfold chunk.
  rewrite (H server_error false "upstream aborted the request");
    [reflexivity | reflexivity | reflexivity | discriminate | reflexivity | reflexivity].
Defined.

(** C4, as stated, fails: a 500 response whose body mentions "aborted"
    does not surface its raw body. *)
Lemma raw_body_not_surfaced :
  ok server_error = false
  /\ (status server_error =? 400)%N = false
  /\ text server_error = Ok "upstream aborted the request"
  /\ fst (chunk (respond server_error) config25 (Some "en") "es"
                [("text", VStr "Hi")] None "workflow-1" false start)
     = Throw (Error aborted_message)
  /\ Error aborted_message <> Error "upstream aborted the request".
Proof. repeat split. discriminate. Qed.

(** C4 (amended) at six responses: 400, 503, an error body, an error
    that cannot be converted to a string, a data body and a body with
    neither. *)
Lemma localizeChunk_response_witness :
  let run res :=
    fst (chunk (respond res) config25 (Some "en") "es"
               [("text", VStr "Hi")] None "workflow-1" false start) in
  run bad_request = Throw (Error "Invalid request: Bad Request")
  /\ run overloaded = Throw (Error "try again later")
  /\ run rate_limited = Throw (Error "rate limited")
  /\ run unprintable_error = Throw cannot_convert
  /\ run translated = Ok (VObj [("text", VStr "Hola")])
  /\ run no_data = Ok (VObj []).
Proof.
  unfold chunk.
  pose proof (fun res =>
    localizeChunk_response Env signal_aborted (respond res) config25 (Some "en") "es"
      [("text", VStr "Hi")] None "workflow-1" false start res false eq_refl eq_refl) as H.
  cbv zeta in H |- *.
  split; [|split; [|split; [|split; [|split]]]].
  - destruct (H bad_request) as (H1 & _). rewrite H1; reflexivity.
  - destruct (H overloaded) as (_ & H2 & _).
    rewrite (H2 eq_refl) with (body := "try again later");
      [reflexivity | discriminate | reflexivity].
  - destruct (H rate_limited) as (_ & _ & H3 & _).
    rewrite (H3 eq_refl [("error", VStr "rate limited")] eq_refl eq_refl
                (VStr "rate limited") eq_refl eq_refl).
    reflexivity.
  - destruct (H unprintable_error) as (_ & _ & H3 & _).
    exact (f_equal fst
             (H3 eq_refl [("error", VObj [("toString", VNum "1")])] eq_refl eq_refl
                 (VObj [("toString", VNum "1")]) eq_refl eq_refl)).
  - destruct (H translated) as (_ & _ & _ & H4).
    rewrite (H4 eq_refl [("data", VObj [("text", VStr "Hola")])] eq_refl);
      [reflexivity | left; reflexivity].
  - destruct (H no_data) as (_ & _ & _ & H4).
    rewrite (H4 eq_refl [] eq_refl); [reflexivity | right; reflexivity].
Defined.

(** C5 at a caller that aborts on entry, and at a caller whose progress
    callback aborts after the first of three chunks; the payload has an
    own ["__proto__"] entry, which makes no chunk. *)
Lemma _localizeRaw_cancellation_witness :
  let raw :=
    Engine._localizeRaw signal_aborted identity_provider createId aborting_callback
                        localeCodeSchema ZodError config1 payload_with_proto params in
  raw start_aborted = (Throw (Error aborted_message), start_aborted)
  /\ length (extractPayloadChunks config1 (payloadSchema_parse payload_with_proto)) = 3
  /\ fst (raw start) = Throw (Error aborted_message)
  /\ map req_data (Engine.sent (snd (raw start))) = [[("7", VStr "seven")]].
Proof.
  cbv zeta.
  destruct (_localizeRaw_cancellation Env signal_aborted identity_provider createId
              aborting_callback localeCodeSchema ZodError config1 payload_with_proto
              params start_aborted) as (Hentry & _ & _).
  destruct (_localizeRaw_cancellation Env signal_aborted identity_provider createId
              aborting_callback localeCodeSchema ZodError config1 payload_with_proto
              params start) as (_ & _ & Hloop).
  split; [apply Hentry; reflexivity|]. split; [reflexivity|].
  edestruct Hloop as [Hrun Hsent];
    [reflexivity | reflexivity | reflexivity | reflexivity | reflexivity
    | reflexivity | reflexivity |].
  rewrite Hrun. split; [reflexivity|].
  etransitivity; [apply f_equal; exact Hsent | reflexivity].
Defined.

(** C2, as stated, fails: two transcripts with the same texts and
    different speakers send different data, the names are in the data,
    and no key [chat_0] is. *)
Lemma chat_payload_carries_names :
  map Chat.text chatA = map Chat.text chatB
  /\ map req_data (Engine.sent (snd (chatRun chatA params start)))
     = [[("chat", VArr [VObj [("name", VStr "Alice"); ("text", VStr "Hello")];
                        VObj [("name", VStr "Bob"); ("text", VStr "Bye")]])]]
  /\ map req_data (Engine.sent (snd (chatRun chatB params start)))
     = [[("chat", VArr [VObj [("name", VStr "Carol"); ("text", VStr "Hello")];
                        VObj [("name", VStr "Dave"); ("text", VStr "Bye")]])]]
  /\ map (fun req => JsObject.get "chat_0" (req_data req))
         (Engine.sent (snd (chatRun chatA params start))) = [None].
Proof. repeat split. Qed.

(** C2 (amended) at a two-message transcript. *)
Lemma localizeChat_request_witness :
  Engine.sent (snd (chatRun chatA params start))
  = [] ++ [Engine.chunk_request config25 (Some "en") "es"
             [("chat", Engine.chat_value chatA)] None "workflow-1" false]
  /\ (forall chat', Engine.chat_value chatA = Engine.chat_value chat' -> chatA = chat').
Proof.
  exact (localizeChat_request Env signal_aborted identity_provider createId None
           localeCodeSchema ZodError config25 chatA params start "workflow-1" false
           eq_refl eq_refl eq_refl eq_refl).
Defined.

End Instances.

(* ================================================================== *)
(** ** Printing and parsing indices, splitting paths *)

Section Strings.

Import JsString JsNumber.

Lemma append_assoc (a b c : string) : ((a ++ b) ++ c = a ++ (b ++ c))%string.
Proof. induction a as [|x a IH]; simpl; [reflexivity|]. now rewrite IH. Qed.

Lemma append_nil_r (a : string) : (a ++ "" = a)%string.
Proof. induction a as [|x a IH]; simpl; [reflexivity|]. now rewrite IH. Qed.

Lemma lacks_append (c : ascii) (a b : string) :
  lacks c (a ++ b) = (lacks c a && lacks c b)%bool.
Proof.
  induction a as [|x a IH]; simpl; [reflexivity|].
  rewrite IH. now rewrite andb_assoc.
Qed.

Lemma split_go_lacks (sep : ascii) (a b : string) :
  forall cur, lacks sep a = true ->
              split_go sep (a ++ b) cur = split_go sep b (cur ++ a).
Proof.
  induction a as [|x a IH]; intros cur H; simpl.
  - now rewrite append_nil_r.
  - simpl in H. apply andb_true_iff in H. destruct H as [Hx Ha].
    apply negb_true_iff in Hx. rewrite Hx. rewrite IH by assumption.
    now rewrite append_assoc.
Qed.

Lemma split_whole (sep : ascii) (a : string) :
  lacks sep a = true -> split sep a = [a].
Proof.
  intro H. unfold split. rewrite <- (append_nil_r a) at 1.
  rewrite split_go_lacks by assumption. reflexivity.
Qed.

Lemma split_cons (sep : ascii) (a b : string) :
  lacks sep a = true ->
  split sep (a ++ String sep b) = a :: split sep b.
Proof.
  intro H. unfold split. rewrite split_go_lacks by assumption.
  simpl. now rewrite Ascii.eqb_refl.
Qed.

Lemma split_join (sep : ascii) (xs : list string) (x : string) :
  Forall (fun y => lacks sep y = true) (x :: xs) ->
  split sep (join (String sep "") (x :: xs)) = x :: xs.
Proof.
  revert x. induction xs as [|y xs IH]; intros x H.
  - simpl. apply split_whole. now inversion H.
  - inversion H as [|? ? Hx Hrest]; subst.
    change (join (String sep "") (x :: y :: xs))
      with (x ++ String sep (join (String sep "") (y :: xs)))%string.
    rewrite split_cons by assumption. f_equal. now apply IH.
Qed.

Lemma digits_only_lacks (c : ascii) (s : string) :
  digit 10 c = None -> digits_only s = true -> lacks c s = true.
Proof.
  intros Hc. induction s as [|x s IH]; simpl; [reflexivity|].
  destruct (digit 10 x) eqn:Hx; [|discriminate].
  intro H. rewrite IH by assumption.
  destruct (Ascii.eqb_spec x c) as [->|_]; [congruence|reflexivity].
Qed.

Lemma digit_not_ws (c : ascii) (d : N) : digit 10 c = Some d -> is_ws c = false.
Proof.
  unfold digit, is_ws. generalize (N_of_ascii c) as n. intro n.
  repeat match goal with
         | |- context [(?a <=? ?b)%N] => destruct (N.leb_spec a b); simpl
         | |- context [(?a <? ?b)%N] => destruct (N.ltb_spec a b); simpl
         | |- context [(?a =? ?b)%N] => destruct (N.eqb_spec a b); simpl
         end;
    intro; try discriminate; try reflexivity; lia.
Qed.

Lemma parseInt_digits_only (s : string) :
  digits_only s = true -> s <> "" ->
  parseInt s = match digits 10 s 0%N false with
               | Some n => Int false n
               | None => NaN
               end.
Proof.
  intros Hd Hne. destruct s as [|c s]; [contradiction|clear Hne].
  simpl in Hd. destruct (digit 10 c) as [d|] eqn:Hc; [|discriminate].
  unfold parseInt. simpl trimStart. rewrite (digit_not_ws _ _ Hc).
  destruct (Ascii.eqb_spec c "-") as [->|_]; [discriminate|].
  destruct (Ascii.eqb_spec c "+") as [->|_]; [discriminate|].
  destruct s as [|x s]; [reflexivity|].
  simpl in Hd. destruct (digit 10 x) eqn:Hx; [|discriminate].
  destruct (Ascii.eqb_spec x "x") as [->|_]; [discriminate|].
  destruct (Ascii.eqb_spec x "X") as [->|_]; [discriminate|].
  rewrite andb_false_r. reflexivity.
Qed.

Lemma string_of_uint_digits_only (d : Decimal.uint) :
  digits_only (NilEmpty.string_of_uint d) = true.
Proof. induction d; simpl; auto. Qed.

Lemma digits_string_of_uint (d : Decimal.uint) :
  forall acc, digits 10 (NilEmpty.string_of_uint d) (N.of_nat acc) true
              = Some (N.of_nat (Nat.of_uint_acc d acc)).
Proof.
  induction d; intro acc; simpl; try reflexivity;
    rewrite Nat.tail_mul_spec;
    match goal with
    | |- digits 10 _ ?a true = Some (N.of_nat (Nat.of_uint_acc _ ?b)) =>
        replace a with (N.of_nat b) by lia
    end; apply IHd.
Qed.

Lemma to_uint_nonnil (n : nat) : Nat.to_uint n <> Decimal.Nil.
Proof.
  rewrite <- (DecimalNat.Unsigned.of_to n) at 1.
  rewrite DecimalNat.Unsigned.to_of. apply DecimalFacts.unorm_nonnil.
Qed.

Lemma toString_digits_only (n : nat) : digits_only (toString n) = true.
Proof. apply string_of_uint_digits_only. Qed.

Lemma toString_nonempty (n : nat) : toString n <> "".
Proof.
  unfold toString. pose proof (to_uint_nonnil n) as H.
  destruct (Nat.to_uint n); simpl; congruence.
Qed.

Lemma parseInt_toString (n : nat) : parseInt (toString n) = Int false (N.of_nat n).
Proof.
  rewrite parseInt_digits_only
    by (apply toString_digits_only || apply toString_nonempty).
  assert (H : digits 10 (toString n) 0%N false = digits 10 (toString n) (N.of_nat 0) true).
  { pose proof (toString_nonempty n) as Hne.
    pose proof (toString_digits_only n) as Hd.
    destruct (toString n) as [|c s]; [contradiction|].
    simpl in Hd |- *. destruct (digit 10 c); [reflexivity|discriminate]. }
  rewrite H. unfold toString. rewrite digits_string_of_uint.
  change (Nat.of_uint_acc (Nat.to_uint n) 0) with (Nat.of_uint (Nat.to_uint n)).
  now rewrite DecimalNat.Unsigned.of_to.
Qed.

Lemma index_of_nat {A} (xs : list A) (n : nat) :
  index xs (Int false (N.of_nat n)) = nth_error xs n.
Proof. unfold index. simpl. now rewrite Nat2N.id. Qed.

End Strings.

(* ================================================================== *)
(** ** The recombination step of [localizeChat] *)

Section ChatFacts.

Import JsString JsNumber.

Lemma chat_index_well_formed (i : nat) :
  chat_index ("chat_" ++ toString i) = Int false (N.of_nat i).
Proof.
  unfold chat_index.
  change ("chat_" ++ toString i)%string with ("chat" ++ String "_" (toString i))%string.
  rewrite split_cons by reflexivity.
  rewrite split_whole
    by (apply digits_only_lacks; [reflexivity | apply toString_digits_only]).
  simpl. apply parseInt_toString.
Qed.

Lemma chat_index_no_underscore (k : string) :
  lacks "_" k = true -> chat_index k = NaN.
Proof. intro H. unfold chat_index. rewrite split_whole by assumption. reflexivity. Qed.

Lemma recombine_Throw (chat : list Chat.message) (localized : list (string * value)) :
  forall e, recombine chat localized = Throw e -> e = missing_name.
Proof.
  induction localized as [|[k v] rest IH]; intros e H; simpl in H; [discriminate|].
  destruct (index chat (chat_index k)); [|now injection H].
  destruct (recombine chat rest); [discriminate|]. injection H as <-. now apply IH.
Qed.

Lemma recombine_fails_at (chat : list Chat.message) (localized : list (string * value))
    (k : string) (v : value) :
  In (k, v) localized -> index chat (chat_index k) = None ->
  recombine chat localized = Throw missing_name.
Proof.
  intros Hin Hk. induction localized as [|[k' v'] rest IH]; [contradiction|].
  simpl. destruct Hin as [E | Hin].
  - injection E as -> ->. rewrite Hk. reflexivity.
  - destruct (index chat (chat_index k')); [|reflexivity].
    rewrite (IH Hin). reflexivity.
Qed.

Variable Env : Type.
Variable signal_aborted : Env -> bool.
Variable fetch : request -> Env -> result response * Env.
Variable createId : Env -> string * Env.
Variable progressCallback : option (progress -> Env -> result unit * Env).
Variable localeCodeSchema : string -> bool.
Variable ZodError : localizationParams -> error.
Variable cfg : config.

(** C10: the recombination of [localizeChat] returns a transcript when
    every key of the localized result is [chat_<i>] with [i] an index of
    the chat array, each text joined to the name of message [i]; a key
    with no underscore, such as ["chat"], or a key [chat_<i>] with [i]
    past the end of the array, reads a missing message, and the call
    fails with a [TypeError] instead of returning a transcript. *)
Theorem recombine_requires_chat_keys (chat : list Chat.message) :
  (forall localized,
      Forall (fun kv => exists i, i < length chat
                                  /\ fst kv = ("chat_" ++ toString i)%string) localized ->
      exists out,
        recombine chat localized = Ok out
        /\ Forall2 (fun kv m =>
                      exists i msg,
                        fst kv = ("chat_" ++ toString i)%string
                        /\ nth_error chat i = Some msg
                        /\ m = {| Chat.name' := Chat.name msg; Chat.text' := snd kv |})
                   localized out)
  /\ (forall localized k v,
        In (k, v) localized ->
        lacks "_" k = true
        \/ (exists i, length chat <= i /\ k = ("chat_" ++ toString i)%string) ->
        recombine chat localized = Throw missing_name)
  /\ (forall params w localized w' v,
        Engine._localizeRaw signal_aborted fetch createId progressCallback
          localeCodeSchema ZodError cfg [("chat", chat_value chat)] params w
        = (Ok localized, w') ->
        In ("chat", v) localized ->
        Engine.localizeChat signal_aborted fetch createId progressCallback
          localeCodeSchema ZodError cfg chat params w
        = (Throw missing_name, w')).
Proof.
  split; [|split].
  - induction localized as [|[k v] rest IH]; intro H.
    + exists []. split; [reflexivity|constructor].
    + inversion H as [|? ? (i & Hi & Hk) Hrest]; subst. cbn [fst] in Hk. subst k.
      destruct (IH Hrest) as (out & Hout & Hall).
      destruct (nth_error chat i) as [msg|] eqn:Hmsg;
        [|apply nth_error_None in Hmsg; lia].
      exists ({| Chat.name' := Chat.name msg; Chat.text' := v |} :: out).
      split.
      * cbn [recombine].
        rewrite chat_index_well_formed, index_of_nat, Hmsg, Hout. reflexivity.
      * constructor; [|assumption]. exists i, msg. auto.
  - intros localized k v Hin Hk. apply (recombine_fails_at _ _ _ _ Hin).
    destruct Hk as [Hk | (i & Hi & ->)].
    + rewrite chat_index_no_underscore by assumption. reflexivity.
    + rewrite chat_index_well_formed, index_of_nat. now apply nth_error_None.
  - intros params w localized w' v Hraw Hin.
    unfold Engine.localizeChat, bind. rewrite Hraw. unfold lift, JsObject.entries.
    rewrite (recombine_fails_at chat localized "chat" v Hin); reflexivity.
Qed.

End ChatFacts.

(* ================================================================== *)
(** ** Extraction *)

Lemma node_induction (P : node -> Prop) :
  (forall t a cs, Forall P cs -> P (Element t a cs)) ->
  (forall d, P (Text d)) ->
  (forall d, P (Comment d)) ->
  forall n, P n.
Proof.
  intros HE HT HC. fix IH 1. intros [t a cs | d | d]; [apply HE | apply HT | apply HC].
  induction cs as [|c cs IHcs]; constructor; [apply IH | exact IHcs].
Qed.

Lemma define_In (k : string) (v : value) (o : object) :
  forall k' v', In (k', v') (JsObject.define k v o) -> (k', v') = (k, v) \/ In (k', v') o.
Proof.
  induction o as [|[k0 v0] o IH]; intros k' v' H; simpl in H.
  - destruct H as [<- | []]. now left.
  - destruct (String.eqb_spec k k0) as [->|_].
    + destruct H as [<- | H]; [now left | right; now right].
    + destruct (JsObject.goes_before k k0).
      * destruct H as [<- | H]; [now left | now right].
      * destruct H as [<- | H]; [right; now left|].
        destruct (IH _ _ H) as [E | Hin]; [now left | right; now right].
Qed.

Lemma set_In (k : string) (v : value) (o : object) :
  forall k' v', In (k', v') (JsObject.set k v o) -> (k', v') = (k, v) \/ In (k', v') o.
Proof.
  intros k' v'. unfold JsObject.set.
  destruct (String.eqb k "__proto__"); [now right | apply define_In].
Qed.

Lemma forEach_processChildren (root : node) (r : ref) (cs : list node) :
  forall i extracted,
    (fix forEach (cs : list node) (i : nat) (extracted : object) : result object :=
       match cs with
       | [] => Ok extracted
       | c :: rest =>
           if Dom.localizable_child c
           then match processNode root c (i :: r) extracted with
                | Ok extracted' => forEach rest (S i) extracted'
                | Throw e => Throw e
                end
           else forEach rest (S i) extracted
       end) cs i extracted
    = processChildren root cs i r extracted.
Proof.
  induction cs as [|c cs IH]; intros i ex; simpl; [reflexivity|].
  destruct (Dom.localizable_child c); [|apply IH].
  destruct (processNode root c (i :: r) ex); [apply IH | reflexivity].
Qed.

(** Unfolding [processNode] on an element: its inner loop is
    [processChildren]. *)
Lemma processNode_Element (root : node) (t : string) (attrs : list (string * string))
    (cs : list node) (r : ref) (extracted : object) :
  processNode root (Element t attrs cs) r extracted
  = if Dom.under_unlocalizable root r then Ok extracted
    else match Dom.LOCALIZABLE_ATTRIBUTES (JsString.toLowerCase t) with
         | Dom.Inherited => Throw (TypeError "attributes.forEach is not a function")
         | Dom.Own names =>
             processChildren root cs 0 r (extract_attributes root r attrs names extracted)
         | Dom.Undefined => processChildren root cs 0 r extracted
         end.
Proof.
  simpl. destruct (Dom.under_unlocalizable root r); [reflexivity|].
  destruct (Dom.LOCALIZABLE_ATTRIBUTES (JsString.toLowerCase t)) as [names| |];
    try reflexivity; apply forEach_processChildren.
Qed.

Lemma kept_path_length (root : node) (top r : ref) :
  kept_path root top r -> length top <= length r.
Proof. induction 1; simpl; lia. Qed.

Lemma kept_path_child_ne (root : node) (top r : ref) (i : nat) :
  kept_path root top r -> i :: r <> top.
Proof.
  intros H E. apply kept_path_length in H. rewrite <- E in H. simpl in H. lia.
Qed.

Lemma node_at_child (root : node) (r : ref) (i : nat) :
  Dom.node_at root (i :: r) = nth_error (Dom.childNodes_at root r) i.
Proof.
  simpl. unfold Dom.childNodes_at. destruct (Dom.node_at root r); [reflexivity|].
  now destruct i.
Qed.

Section Provenance.

Variable root : node.
Variable top : ref.
Variable Q : string -> value -> Prop.
Hypothesis Q_emitted : forall key v, emitted root top key v -> Q key v.

Let all_Q (o : object) : Prop := forall key v, In (key, v) o -> Q key v.

(** What [processNode] is to show of the node [n]. *)
Let node_ok (n : node) : Prop :=
  forall r extracted extracted',
    kept_path root top r -> r <> top ->
    Dom.node_at root r = Some n ->
    processNode root n r extracted = Ok extracted' ->
    all_Q extracted -> all_Q extracted'.

Lemma all_Q_set (key : string) (v : value) (o : object) :
  all_Q o -> Q key v -> all_Q (JsObject.set key v o).
Proof.
  intros Ho Hq k' v' H. destruct (set_In _ _ _ _ _ H) as [E | Hin].
  - injection E as -> ->. exact Hq.
  - now apply Ho.
Qed.

Lemma processChildren_provenance (cs : list node) :
  Forall node_ok cs ->
  forall i r extracted extracted',
    kept_path root top r ->
    (forall j c, nth_error cs j = Some c ->
                 nth_error (Dom.childNodes_at root r) (i + j) = Some c) ->
    processChildren root cs i r extracted = Ok extracted' ->
    all_Q extracted -> all_Q extracted'.
Proof.
  induction 1 as [|c cs Hc _ IH]; intros i r o o' Hpath Hcs Hrun Ho; simpl in Hrun.
  - injection Hrun as <-. exact Ho.
  - assert (Hi : nth_error (Dom.childNodes_at root r) i = Some c)
      by (rewrite <- (Nat.add_0_r i); apply Hcs; reflexivity).
    assert (Hcs' : forall j c', nth_error cs j = Some c' ->
                     nth_error (Dom.childNodes_at root r) (S i + j) = Some c')
      by (intros j c' Hj; replace (S i + j) with (i + S j) by lia; apply Hcs; exact Hj).
    destruct (Dom.localizable_child c) eqn:Hkeep; [|exact (IH _ _ _ _ Hpath Hcs' Hrun Ho)].
    destruct (processNode root c (i :: r) o) as [o1|] eqn:Hproc; [|discriminate].
    apply (IH _ _ _ _ Hpath Hcs' Hrun).
    apply (Hc (i :: r) o o1); auto.
    + econstructor; eassumption.
    + now apply kept_path_child_ne with (root := root).
    + now rewrite node_at_child.
Qed.

Lemma extract_attributes_provenance (r : ref) (t : string)
    (attrs : list (string * string)) (cs : list node) (names : list string) :
  kept_path root top r -> r <> top ->
  Dom.node_at root r = Some (Element t attrs cs) ->
  Dom.under_unlocalizable root r = false ->
  Dom.LOCALIZABLE_ATTRIBUTES (JsString.toLowerCase t) = Dom.Own names ->
  forall l o, (forall a, In a l -> In a names) -> all_Q o ->
              all_Q (extract_attributes root r attrs l o).
Proof.
  intros Hpath Hne Hn Hunder Hlook.
  induction l as [|a l IHl]; intros o Hsub Ho; simpl; [exact Ho|].
  apply IHl; [intros; apply Hsub; now right|].
  destruct (Dom.getAttribute a attrs) as [s|] eqn:Hs; [|exact Ho].
  destruct (JsString.truthy s) eqn:Hts; [|exact Ho].
  apply all_Q_set; [exact Ho|]. apply Q_emitted.
  eapply emitted_attribute; eauto. apply Hsub. now left.
Qed.

Lemma processNode_provenance (n : node) : node_ok n.
Proof.
  induction n as [t attrs cs IH | d | d] using node_induction;
    intros r ex ex' Hpath Hne Hn Hrun Hex.
  - rewrite processNode_Element in Hrun.
    destruct (Dom.under_unlocalizable root r) eqn:Hunder;
      [injection Hrun as <-; exact Hex|].
    assert (Hcs : forall j c, nth_error cs j = Some c ->
                              nth_error (Dom.childNodes_at root r) (0 + j) = Some c)
      by (intros j c Hj; unfold Dom.childNodes_at; rewrite Hn; exact Hj).
    destruct (Dom.LOCALIZABLE_ATTRIBUTES (JsString.toLowerCase t)) as [names| |] eqn:Hlook;
      [| discriminate |].
    + apply (processChildren_provenance cs IH _ _ _ _ Hpath Hcs Hrun).
      eapply extract_attributes_provenance; eauto.
    + exact (processChildren_provenance cs IH _ _ _ _ Hpath Hcs Hrun Hex).
  - simpl in Hrun.
    destruct (Dom.under_unlocalizable root r) eqn:Hunder;
      [injection Hrun as <-; exact Hex|].
    destruct (JsString.truthy (JsString.trim d)); injection Hrun as <-; [|exact Hex].
    apply all_Q_set; [exact Hex|]. apply Q_emitted. now apply emitted_text.
  - simpl in Hrun. destruct (Dom.under_unlocalizable root r);
      injection Hrun as <-; exact Hex.
Qed.

(** One walk of [localizeHtml]: the children of [top]. *)
Lemma walk_provenance (extracted extracted' : object) :
  processChildren root (Dom.childNodes_at root top) 0 top extracted = Ok extracted' ->
  all_Q extracted -> all_Q extracted'.
Proof.
  apply processChildren_provenance.
  - apply Forall_forall. intros c _. apply processNode_provenance.
  - constructor.
  - auto.
Qed.

End Provenance.

Lemma inside_unlocalizable_split (root : node) (r : ref) :
  inside_unlocalizable root r
  = (unlocalizable_element (Dom.node_at root r) || Dom.under_unlocalizable root r)%bool.
Proof.
  induction r as [|i parent IH]; [reflexivity|].
  cbn [inside_unlocalizable Dom.under_unlocalizable]. rewrite IH. f_equal. f_equal.
  unfold Dom.nodeName_at. destruct (Dom.node_at root parent) as [[t a cs | d | d]|];
    reflexivity.
Qed.

Lemma listed_attributes_not_unlocalizable (t : string) (names : list string) :
  Dom.LOCALIZABLE_ATTRIBUTES t = Dom.Own names ->
  existsb (String.eqb t) ["script"; "style"] = false.
Proof.
  unfold Dom.LOCALIZABLE_ATTRIBUTES.
  repeat match goal with
         | |- context [String.eqb t ?x] =>
             destruct (String.eqb_spec t x) as [->|_]; [reflexivity|]
         end.
  destruct (existsb _ _); discriminate.
Qed.

Lemma emitted_content (root : node) (top : ref) (key : string) (v : value) :
  emitted root top key v ->
  exists r, inside_unlocalizable root r = false /\ content_of root r key v.
Proof.
  intros [r d Hpath Hne Hn Hunder | r t attrs cs names a s Hpath Hne Hn Hunder Hlook Ha Hs Hts];
    exists r; rewrite inside_unlocalizable_split, Hn, Hunder;
    unfold unlocalizable_element.
  - split; [reflexivity|]. left. exists d. auto.
  - rewrite (listed_attributes_not_unlocalizable _ _ Hlook).
    split; [reflexivity|]. right. exists t, attrs, cs, a, s. auto.
Qed.

(** Every entry of the extracted map was emitted by one of the two walks. *)
Lemma extractContent_emitted (root : node) (extracted : object) :
  extractContent root = Ok extracted ->
  exists h b,
    Dom.head root = Some h /\ Dom.body root = Some b
    /\ forall key v, In (key, v) extracted ->
                     emitted root h key v \/ emitted root b key v.
Proof.
  unfold extractContent. intro H.
  destruct (Dom.head root) as [h|]; [|discriminate].
  destruct (processChildren root (Dom.childNodes_at root h) 0 h []) as [o|] eqn:Hh;
    [|discriminate].
  destruct (Dom.body root) as [b|]; [|discriminate].
  exists h, b. split; [reflexivity|]. split; [reflexivity|].
  apply (walk_provenance root b
           (fun key v => emitted root h key v \/ emitted root b key v)
           (fun key v Hk => or_intror Hk) o extracted H).
  apply (walk_provenance root h
           (fun key v => emitted root h key v \/ emitted root b key v)
           (fun key v Hk => or_introl Hk) [] o Hh).
  intros key v [].
Qed.

(** C7: every entry of the extracted map holds the trimmed text of a text
    node, or an attribute value of an element, that is neither a [script]
    or [style] element nor inside one; so a text or attribute value that
    the document holds only in such elements, or in descendants of them,
    is not a value of the map.  The document with
    [<script>alert(1)</script>] in its head and a [style] in its body
    yields the paragraph text alone. *)
Theorem unlocalizable_content_not_extracted :
  (forall root extracted,
      extractContent root = Ok extracted ->
      forall key v, In (key, v) extracted ->
        exists r, inside_unlocalizable root r = false /\ content_of root r key v)
  /\ (forall root extracted,
        extractContent root = Ok extracted ->
        forall v,
          (forall r key, content_of root r key v -> inside_unlocalizable root r = true) ->
          forall key, ~ In (key, v) extracted)
  /\ extractContent Example.script_document = Ok [("body/0/0", VStr "Hello")].
Proof.
  assert (Hsource : forall root extracted,
            extractContent root = Ok extracted ->
            forall key v, In (key, v) extracted ->
              exists r, inside_unlocalizable root r = false /\ content_of root r key v).
  { intros root extracted H key v Hin.
    destruct (extractContent_emitted root extracted H) as (h & b & _ & _ & Hall).
    destruct (Hall key v Hin) as [He | He]; exact (emitted_content _ _ _ _ He). }
  split; [exact Hsource|]. split; [|reflexivity].
  intros root extracted H v Honly key Hin.
  destruct (Hsource root extracted H key v Hin) as (r & Hout & Hcontent).
  rewrite (Honly r key Hcontent) in Hout. discriminate.
Qed.

(* ================================================================== *)
(** ** From a node to its path and back *)

Lemma filtered_from_lookup (cs : list node) :
  forall i0 j c,
    nth_error cs j = Some c -> Dom.localizable_child c = true ->
    exists pos,
      (forall p0, Dom.indexOf (Dom.filtered_from cs i0) (i0 + j) p0 = Some (p0 + pos))
      /\ nth_error (Dom.filtered_from cs i0) pos = Some (i0 + j, c).
Proof.
  induction cs as [|c0 cs IH]; intros i0 j c Hj Hc; [destruct j; discriminate|].
  destruct j as [|j]; simpl in Hj.
  - injection Hj as ->. exists 0. simpl. rewrite Hc. simpl.
    rewrite Nat.add_0_r, Nat.eqb_refl. split; [intro; f_equal; lia | reflexivity].
  - destruct (IH (S i0) j c Hj Hc) as (pos & Hidx & Hnth).
    replace (S i0 + j) with (i0 + S j) in * by lia.
    simpl. destruct (Dom.localizable_child c0).
    + exists (S pos). split; [|exact Hnth].
      intro p0. simpl.
      destruct (Nat.eqb_spec (i0 + S j) i0); [lia|].
      rewrite Hidx. f_equal. lia.
    + exists pos. split; assumption.
Qed.

Lemma node_at_same_children (root root' : node) (r : ref) :
  Dom.children root' = Dom.children root -> r <> [] ->
  Dom.node_at root' r = Dom.node_at root r.
Proof.
  intros Hc. induction r as [|i parent IH]; intro Hne; [contradiction|].
  simpl. destruct parent as [|i' parent'].
  - simpl. now rewrite Hc.
  - rewrite IH by discriminate. reflexivity.
Qed.

Lemma getPath_loop_step (root : node) (i i' : nat) (r : ref) (acc : list nat) :
  Dom.getPath_loop root (i :: i' :: r) acc
  = match Dom.indexOf (match Dom.node_at root (i' :: r) with
                       | Some p => Dom.filtered p
                       | None => []
                       end) i 0 with
    | Some index => Dom.getPath_loop root (i' :: r) (index :: acc)
    | None => Dom.getPath_loop root (i' :: r) acc
    end.
Proof. reflexivity. Qed.

Section PathRoundTrip.

Variables root root' : node.
Variable h : nat.
Hypothesis same_children : Dom.children root' = Dom.children root.
Hypothesis top_is_element :
  exists t a cs, Dom.node_at root [h] = Some (Element t a cs).

Let top : ref := [h].
Let tag : string := JsString.toLowerCase (Dom.nodeName_at root top).

Lemma kept_path_nonempty (r : ref) : kept_path root top r -> r <> [].
Proof. intros H E. apply kept_path_length in H. subst r. simpl in H. lia. Qed.

(** The indices that [getPath] collects for the node at [r] lead
    [descend] from [top] back to [r]. *)
Lemma getPath_descend (r : ref) :
  kept_path root top r ->
  exists indices,
    (forall acc, Dom.getPath_loop root r acc = (tag, indices ++ acc))
    /\ (forall n, Dom.node_at root r = Some n ->
          fold_left (descend root') (map JsNumber.toString indices) (top, Some top)
          = (match n with Element _ _ _ => r | _ => tl r end, Some r))
    /\ (r <> top -> indices <> []).
Proof.
  induction 1 as [|r i c Hpath (indices & Hloop & Hfold & _) Hc Hkeep].
  - exists []. split; [|split].
    + intro acc. reflexivity.
    + intros n Hn. destruct top_is_element as (t & a & cs & Htop).
      unfold top in Hn. rewrite Htop in Hn. injection Hn as <-. reflexivity.
    + intro Hne. contradiction.
  - pose proof (kept_path_nonempty _ Hpath) as Hne.
    unfold Dom.childNodes_at in Hc.
    destruct (Dom.node_at root r) as [[t a cs | d | d]|] eqn:Hr;
      try (destruct i; discriminate).
    simpl in Hc.
    destruct (filtered_from_lookup cs 0 i c Hc Hkeep) as (pos & Hidx & Hnth).
    simpl in Hidx, Hnth.
    exists (indices ++ [pos]). split; [|split].
    + intro acc. destruct r as [|i' r']; [contradiction|].
      rewrite getPath_loop_step, Hr. unfold Dom.filtered. simpl Dom.children.
      rewrite Hidx. simpl Nat.add. rewrite Hloop. now rewrite <- app_assoc.
    + intros n Hn. rewrite map_app, fold_left_app.
      rewrite (Hfold _ eq_refl). simpl.
      rewrite (node_at_same_children root root' r same_children Hne), Hr.
      unfold Dom.filtered. simpl Dom.children.
      rewrite parseInt_toString, index_of_nat, Hnth.
      rewrite node_at_child in Hn. unfold Dom.childNodes_at in Hn. rewrite Hr in Hn.
      simpl in Hn. rewrite Hc in Hn. injection Hn as <-.
      destruct c; reflexivity.
    + intros _. destruct indices; discriminate.
Qed.

End PathRoundTrip.

(* ================================================================== *)
(** ** Re-application of an extracted key *)

Lemma list_update_id {A} (f : A -> A) (xs : list A) :
  forall i x, nth_error xs i = Some x -> f x = x -> Dom.list_update xs i f = xs.
Proof.
  induction xs as [|y xs IH]; intros [|i] x Hi Hf; simpl in *; try discriminate.
  - injection Hi as ->. now rewrite Hf.
  - f_equal. eapply IH; eassumption.
Qed.

Lemma update_at_id (root : node) (r : ref) :
  forall f n, Dom.node_at root r = Some n -> f n = n -> Dom.update_at root r f = root.
Proof.
  induction r as [|i parent IH]; intros f n Hn Hf; simpl in *.
  - injection Hn as ->. exact Hf.
  - destruct (Dom.node_at root parent) as [q|] eqn:Hq; [|discriminate].
    apply (IH _ q eq_refl).
    destruct q as [t a cs | d | d]; try reflexivity.
    simpl in Hn. f_equal. eapply list_update_id; eassumption.
Qed.

Lemma find_child_spec (p : node -> bool) (cs : list node) :
  forall i0 k, Dom.find_child p cs i0 = Some k ->
               exists j c, k = i0 + j /\ nth_error cs j = Some c /\ p c = true.
Proof.
  induction cs as [|c cs IH]; intros i0 k H; simpl in H; [discriminate|].
  destruct (p c) eqn:Hp.
  - injection H as <-. exists 0, c. split; [lia|]. split; [reflexivity|assumption].
  - destruct (IH _ _ H) as (j & c' & -> & Hj & Hc).
    exists (S j), c'. split; [lia|]. split; assumption.
Qed.

Lemma top_element (root : node) (names : list string) (top : ref) :
  (if Dom.is_element_named ["html"] root
   then option_map (fun i => [i])
          (Dom.find_child (Dom.is_element_named names) (Dom.children root) 0)
   else None) = Some top ->
  exists h t a cs,
    top = [h] /\ Dom.node_at root [h] = Some (Element t a cs)
    /\ existsb (String.eqb (JsString.toLowerCase t)) names = true.
Proof.
  destruct (Dom.is_element_named ["html"] root); [|discriminate].
  destruct (Dom.find_child _ _ 0) as [k|] eqn:Hk; [|discriminate].
  intro H. injection H as <-.
  destruct (find_child_spec _ _ _ _ Hk) as (j & c & -> & Hj & Hc).
  destruct c as [t a cs | d | d]; try discriminate.
  exists j, t, a, cs. simpl. rewrite Hj. auto.
Qed.

Lemma join_lacks (c sep : ascii) (xs : list string) :
  Ascii.eqb sep c = false ->
  Forall (fun y => JsString.lacks c y = true) xs ->
  JsString.lacks c (JsString.join (String sep "") xs) = true.
Proof.
  intros Hsep. induction 1 as [|x xs Hx Hxs IH]; [reflexivity|].
  destruct xs as [|y xs]; [exact Hx|].
  change (JsString.join (String sep "") (x :: y :: xs))
    with (x ++ String sep (JsString.join (String sep "") (y :: xs)))%string.
  rewrite lacks_append, Hx. simpl. rewrite Hsep. exact IH.
Qed.

Lemma toString_all_lack (c : ascii) (indices : list nat) :
  JsNumber.digit 10 c = None ->
  Forall (fun y => JsString.lacks c y = true) (map JsNumber.toString indices).
Proof.
  intro Hc. apply Forall_forall. intros y Hy.
  apply in_map_iff in Hy. destruct Hy as (n & <- & _).
  apply digits_only_lacks; [exact Hc | apply toString_digits_only].
Qed.

(** The keys that [getPath] writes, taken apart by the two [split]s of
    the re-application. *)
Lemma path_split (tag : string) (indices : list nat) :
  JsString.lacks "/" tag = true -> JsString.lacks "#" tag = true ->
  indices <> [] ->
  let joined := JsString.join "/" (map JsNumber.toString indices) in
  let basePath := (tag ++ "/" ++ joined)%string in
  JsString.split "/" basePath = tag :: map JsNumber.toString indices
  /\ JsString.split "#" basePath = [basePath]
  /\ forall a, JsString.lacks "#" a = true ->
               JsString.split "#" (basePath ++ "#" ++ a) = [basePath; a].
Proof.
  intros Hslash Hhash Hne joined basePath.
  assert (Hbase : JsString.lacks "#" basePath = true).
  { unfold basePath. rewrite lacks_append, Hhash. simpl.
    apply join_lacks; [reflexivity | now apply toString_all_lack]. }
  split; [|split].
  - unfold basePath. change ("/" ++ joined)%string with (String "/" joined).
    rewrite split_cons by assumption. f_equal. unfold joined.
    destruct indices as [|n indices]; [contradiction|].
    apply (split_join "/" (map JsNumber.toString indices) (JsNumber.toString n)).
    now apply (toString_all_lack "/" (n :: indices)).
  - now apply split_whole.
  - intros a Ha. change ("#" ++ a)%string with (String "#" a).
    rewrite split_cons by assumption. f_equal. now apply split_whole.
Qed.

Lemma kept_path_node (root : node) (top r : ref) :
  kept_path root top r -> Dom.node_at root top <> None ->
  exists n, Dom.node_at root r = Some n.
Proof.
  intros [|r' i c _ Hc _] Htop.
  - destruct (Dom.node_at root top) as [n|]; [now exists n | contradiction].
  - exists c. now rewrite node_at_child.
Qed.

Section Reapplication.

Variable valid_attribute_name : string -> bool.
Variable in_html_namespace : ref -> bool.
Variables (t0 : string) (attrs0 attrs0' : list (string * string)) (cs0 : list node).

(** The document the paths were taken from, and the document they are
    applied to: the same but for the attributes of the root. *)
Let root : node := Element t0 attrs0 cs0.
Let root' : node := Element t0 attrs0' cs0.

Variable top : ref.
Hypothesis top_is_head_or_body : Dom.head root = Some top \/ Dom.body root = Some top.

Let tag : string := JsString.toLowerCase (Dom.nodeName_at root top).

Lemma top_facts :
  exists h,
    top = [h]
    /\ (exists t a cs, Dom.node_at root [h] = Some (Element t a cs))
    /\ JsString.lacks "/" tag = true /\ JsString.lacks "#" tag = true
    /\ JsString.truthy tag = true
    /\ (if String.eqb tag "head" then Dom.head root' else Dom.body root') = Some top.
Proof.
  assert (Hh : Dom.head root' = Dom.head root) by reflexivity.
  assert (Hb : Dom.body root' = Dom.body root) by reflexivity.
  unfold tag.
  destruct top_is_head_or_body as [H | H].
  - destruct (top_element root ["head"] top H) as (h & t & a & cs & -> & Hn & Ht).
    exists h. split; [reflexivity|]. split; [eauto|].
    unfold Dom.nodeName_at. rewrite Hn. simpl Dom.nodeName.
    simpl in Ht. rewrite orb_false_r in Ht. apply String.eqb_eq in Ht. rewrite Ht.
    repeat split. rewrite Hh. exact H.
  - destruct (top_element root ["body"; "frameset"] top H) as (h & t & a & cs & -> & Hn & Ht).
    exists h. split; [reflexivity|]. split; [eauto|].
    unfold Dom.nodeName_at. rewrite Hn. simpl Dom.nodeName.
    simpl in Ht. rewrite orb_false_r in Ht. apply orb_true_iff in Ht.
    destruct Ht as [Ht | Ht]; apply String.eqb_eq in Ht; rewrite Ht;
      repeat split; rewrite Hb; exact H.
Qed.

(** A key written for a text node leads the re-application back to that
    node, whose text content it sets. *)
Lemma applyEntry_text_path (r : ref) (v : value) :
  kept_path root top r -> r <> top ->
  applyEntry valid_attribute_name in_html_namespace root' (Dom.getPath root r None) v
  = assign_textContent root' r v.
Proof.
  intros Hpath Hne.
  destruct top_facts as (h & -> & Helem & Hslash & Hhash & Htruthy & Hsel).
  destruct (getPath_descend root root' h eq_refl Helem r Hpath)
    as (indices & Hloop & Hfold & Hidx).
  destruct (kept_path_node root [h] r Hpath) as (n & Hn).
  { destruct Helem as (t & a & cs & ->). discriminate. }
  specialize (Hidx Hne).
  destruct (path_split tag indices Hslash Hhash Hidx) as (Hs1 & Hs2 & _).
  unfold Dom.getPath. rewrite Hloop, app_nil_r. fold tag. rewrite Htruthy.
  unfold applyEntry. rewrite Hs2. cbn [hd nth_error]. rewrite Hs1. cbn [hd tl].
  rewrite Hsel, (Hfold n Hn). reflexivity.
Qed.

(** A key written for an attribute leads the re-application back to the
    element, whose attribute it sets. *)
Lemma applyEntry_attribute_path (r : ref) (a : string) (v : value) :
  kept_path root top r -> r <> top ->
  JsString.truthy a = true -> JsString.lacks "#" a = true ->
  applyEntry valid_attribute_name in_html_namespace root' (Dom.getPath root r (Some a)) v
  = call_setAttribute valid_attribute_name in_html_namespace root' r a v.
Proof.
  intros Hpath Hne Ha Halacks.
  destruct top_facts as (h & -> & Helem & Hslash & Hhash & Htruthy & Hsel).
  destruct (getPath_descend root root' h eq_refl Helem r Hpath)
    as (indices & Hloop & Hfold & Hidx).
  destruct (kept_path_node root [h] r Hpath) as (n & Hn).
  { destruct Helem as (t & a' & cs & ->). discriminate. }
  specialize (Hidx Hne).
  destruct (path_split tag indices Hslash Hhash Hidx) as (Hs1 & _ & Hs3).
  unfold Dom.getPath. rewrite Hloop, app_nil_r. fold tag. rewrite Htruthy, Ha.
  unfold applyEntry. rewrite (Hs3 a Halacks). cbn [hd nth_error]. rewrite Hs1.
  cbn [hd tl]. rewrite Hsel, (Hfold n Hn). cbn [snd]. rewrite Ha. reflexivity.
Qed.

End Reapplication.

Lemma getAttribute_set_attr (a s : string) (attrs : list (string * string)) :
  Dom.getAttribute a attrs = Some s ->
  Dom.set_attr (JsString.asciiLowercase a) s attrs = attrs.
Proof.
  induction attrs as [|[k v] attrs IH]; simpl; [discriminate|].
  destruct (String.eqb k (JsString.asciiLowercase a)).
  - intro H. now injection H as ->.
  - intro H. now rewrite IH.
Qed.

(** The listed attribute names are in lower case: the element's
    namespace plays no part in setting them. *)
Lemma listed_asciiLowercase (a : string) :
  In a ["content"; "alt"; "placeholder"; "title"] -> JsString.asciiLowercase a = a.
Proof.
  simpl. intros [<- | [<- | [<- | [<- | []]]]]; reflexivity.
Qed.

Lemma setAttribute_listed (valid_attribute_name : string -> bool) (html : bool)
    (a s t : string) (attrs : list (string * string)) (cs : list node) :
  In a ["content"; "alt"; "placeholder"; "title"] ->
  valid_attribute_name a = true ->
  setAttribute valid_attribute_name html a s (Element t attrs cs)
  = Ok (Element t (Dom.set_attr (JsString.asciiLowercase a) s attrs) cs).
Proof.
  intros Hlisted Hvalid. unfold setAttribute. rewrite Hvalid.
  rewrite (listed_asciiLowercase a Hlisted). now destruct html.
Qed.

Lemma listed_attribute_names (t : string) (names : list string) (a : string) :
  Dom.LOCALIZABLE_ATTRIBUTES t = Dom.Own names -> In a names ->
  In a ["content"; "alt"; "placeholder"; "title"].
Proof.
  unfold Dom.LOCALIZABLE_ATTRIBUTES.
  repeat match goal with
         | |- context [if String.eqb t ?x then _ else _] => destruct (String.eqb t x)
         end;
    try (intro H; injection H as <-; simpl; tauto).
  destruct (existsb _ _); discriminate.
Qed.

Section Unchanged.

Variable valid_attribute_name : string -> bool.
Variable in_html_namespace : ref -> bool.
Variables (t0 : string) (attrs0 attrs0' : list (string * string)) (cs0 : list node).

Let root : node := Element t0 attrs0 cs0.
Let root' : node := Element t0 attrs0' cs0.

Hypothesis valid_names :
  forall a, In a ["content"; "alt"; "placeholder"; "title"] ->
            valid_attribute_name a = true.
Hypothesis trimmed :
  forall r d,
    Dom.node_at root r = Some (Text d) ->
    Dom.under_unlocalizable root r = false ->
    JsString.truthy (JsString.trim d) = true ->
    JsString.trim d = d.

(** Under an identity translation an extracted entry writes back what
    the document already holds. *)
Lemma applyEntry_emitted (top : ref) (key : string) (v : value) :
  Dom.head root = Some top \/ Dom.body root = Some top ->
  emitted root top key v ->
  applyEntry valid_attribute_name in_html_namespace root' key v = Ok root'.
Proof.
  intros Htop He.
  assert (Hnonempty : forall r, kept_path root top r -> r <> []).
  { intros r Hp E. apply kept_path_length in Hp. subst r.
    destruct (top_facts t0 attrs0 attrs0' cs0 top Htop) as (h & -> & _).
    simpl in Hp. lia. }
  destruct He as [r d Hpath Hne Hn Hunder
                 | r t attrs cs names a s Hpath Hne Hn Hunder Hlook Ha Hs Hts].
  - rewrite (applyEntry_text_path valid_attribute_name in_html_namespace t0 attrs0 attrs0' cs0 top Htop r _
               Hpath Hne).
    unfold assign_textContent. cbn [content_text to_string].
    f_equal. apply update_at_id with (n := Text d).
    + rewrite <- Hn. apply node_at_same_children; [reflexivity | auto].
    + simpl. f_equal. apply (trimmed r d Hn Hunder).
      destruct Hpath as [|r' i c _ Hc Hkeep]; [contradiction|].
      rewrite node_at_child, Hc in Hn. injection Hn as ->. exact Hkeep.
  - pose proof (listed_attribute_names _ _ _ Hlook Ha) as Hlisted.
    rewrite (applyEntry_attribute_path valid_attribute_name in_html_namespace t0 attrs0 attrs0' cs0 top Htop
               r a _ Hpath Hne).
    + assert (Hn' : Dom.node_at root' r = Some (Element t attrs cs))
        by (rewrite <- Hn; apply node_at_same_children; [reflexivity | auto]).
      unfold call_setAttribute. unfold root' in Hn' |- *. rewrite Hn'.
      cbn [attribute_text to_string].
      rewrite (setAttribute_listed _ _ _ _ _ _ _ Hlisted (valid_names a Hlisted)).
      rewrite (getAttribute_set_attr _ _ _ Hs).
      f_equal. now apply update_at_id with (n := Element t attrs cs).
    + simpl in Hlisted. decompose [or] Hlisted; subst; try reflexivity; contradiction.
    + simpl in Hlisted. decompose [or] Hlisted; subst; try reflexivity; contradiction.
Qed.

Lemma applyEntries_unchanged (entries : list (string * value)) :
  (forall key v, In (key, v) entries ->
                 applyEntry valid_attribute_name in_html_namespace root' key v = Ok root') ->
  applyEntries valid_attribute_name in_html_namespace root' entries = Ok root'.
Proof.
  induction entries as [|[key v] rest IH]; intro H; simpl; [reflexivity|].
  rewrite (H key v) by now left. apply IH. intros k' v' Hin. apply H. now right.
Qed.

End Unchanged.

Section Total.

Variable root : node.
Hypothesis no_inherited_name :
  forall r t a cs,
    Dom.node_at root r = Some (Element t a cs) ->
    Dom.under_unlocalizable root r = false ->
    Dom.LOCALIZABLE_ATTRIBUTES (JsString.toLowerCase t) <> Dom.Inherited.

Let returns (n : node) : Prop :=
  forall r extracted,
    Dom.node_at root r = Some n ->
    exists extracted', processNode root n r extracted = Ok extracted'.

Lemma processChildren_total (cs : list node) :
  Forall returns cs ->
  forall i r extracted,
    (forall j c, nth_error cs j = Some c -> Dom.node_at root ((i + j) :: r) = Some c) ->
    exists extracted', processChildren root cs i r extracted = Ok extracted'.
Proof.
  induction 1 as [|c cs Hc _ IH]; intros i r ex Hcs; simpl; [now exists ex|].
  assert (Hcs' : forall j c', nth_error cs j = Some c' ->
                              Dom.node_at root ((S i + j) :: r) = Some c')
    by (intros j c' Hj; replace (S i + j) with (i + S j) by lia; apply Hcs; exact Hj).
  destruct (Dom.localizable_child c); [|now apply IH].
  destruct (Hc (i :: r) ex) as (ex1 & ->).
  - rewrite <- (Nat.add_0_r i). apply Hcs. reflexivity.
  - now apply IH.
Qed.

Lemma processNode_total (n : node) : returns n.
Proof.
  induction n as [t attrs cs IH | d | d] using node_induction; intros r ex Hn.
  - rewrite processNode_Element.
    destruct (Dom.under_unlocalizable root r) eqn:Hunder; [now exists ex|].
    assert (Hcs : forall j c, nth_error cs j = Some c ->
                              Dom.node_at root ((0 + j) :: r) = Some c)
      by (intros j c Hj; simpl; rewrite Hn; exact Hj).
    pose proof (no_inherited_name r t attrs cs Hn Hunder) as Hlook.
    destruct (Dom.LOCALIZABLE_ATTRIBUTES (JsString.toLowerCase t));
      [| contradiction |]; now apply processChildren_total.
  - simpl. destruct (Dom.under_unlocalizable root r); [now exists ex|].
    destruct (JsString.truthy (JsString.trim d)); eauto.
  - simpl. destruct (Dom.under_unlocalizable root r); now exists ex.
Qed.

Lemma extractContent_total :
  Dom.head root <> None -> Dom.body root <> None ->
  exists extracted, extractContent root = Ok extracted.
Proof.
  intros Hh Hb. unfold extractContent.
  destruct (Dom.head root) as [h|]; [|contradiction].
  destruct (Dom.body root) as [b|]; [|contradiction].
  assert (Hwalk : forall top ex,
            exists ex', processChildren root (Dom.childNodes_at root top) 0 top ex = Ok ex').
  { intros top ex. apply processChildren_total.
    - apply Forall_forall. intros c _. apply processNode_total.
    - intros j c Hj. now rewrite node_at_child. }
  destruct (Hwalk h []) as (ex1 & ->). apply Hwalk.
Qed.

End Total.

(* ================================================================== *)
(** ** The batch loop under an identity translation *)

Lemma extractPayloadChunks_loop_subset (cfg : config) (len : nat) (payload : object)
    (entries : list (string * value)) :
  forall i currentChunk count result,
    (forall kv, In kv entries -> In kv payload) ->
    (forall kv, In kv currentChunk -> In kv payload) ->
    (forall c, In c result -> forall kv, In kv c -> In kv payload) ->
    forall c, In c (extractPayloadChunks_loop cfg len entries i currentChunk count result) ->
              forall kv, In kv c -> In kv payload.
Proof.
  induction entries as [|[k v] rest IH]; intros i cur count result He Hc Hr; simpl.
  - exact Hr.
  - assert (Hset : forall kv, In kv (JsObject.set k v cur) -> In kv payload).
    { intros [k' v'] H. destruct (set_In _ _ _ _ _ H) as [E | Hin].
      - rewrite E. apply He. now left.
      - now apply Hc. }
    destruct (_ || _ || _)%bool.
    + apply IH; [intros; apply He; now right | intros ? [] |].
      intros c Hin. apply in_app_or in Hin. destruct Hin as [Hin | [<- | []]].
      * now apply Hr.
      * exact Hset.
    + apply IH; [intros; apply He; now right | exact Hset | exact Hr].
Qed.

Lemma extractPayloadChunks_subset (cfg : config) (payload : object) :
  forall c, In c (extractPayloadChunks cfg payload) ->
            forall kv, In kv c -> In kv payload.
Proof.
  apply extractPayloadChunks_loop_subset; [auto | intros ? [] | intros ? []].
Qed.

Lemma assign_source_In (source : list (string * value)) :
  forall target k v,
    In (k, v) (fold_left (fun t' kv => JsObject.set (fst kv) (snd kv) t') source target) ->
    In (k, v) target \/ In (k, v) source.
Proof.
  induction source as [|[k0 v0] source IH]; intros target k v H; simpl in H; [now left|].
  destruct (IH _ _ _ H) as [Ht | Hs]; [|right; now right].
  destruct (set_In _ _ _ _ _ Ht) as [E | Ht']; [|now left].
  right. left. now symmetry.
Qed.

Lemma payloadSchema_parse_In (payload : object) (k : string) (v : value) :
  In (k, v) (payloadSchema_parse payload) -> In (k, v) payload.
Proof.
  unfold payloadSchema_parse, JsObject.entries.
  assert (H : forall (rest : list (string * value)) (final : object),
             In (k, v) (fold_left
                          (fun final kv =>
                             if String.eqb (fst kv) "__proto__" then final
                             else JsObject.set (fst kv) (snd kv) final) rest final) ->
             In (k, v) final \/ In (k, v) rest).
  { induction rest as [|[k0 v0] rest IH]; intros final H; cbn [fold_left] in H;
      [now left|].
    destruct (IH _ H) as [Ht | Hs]; [|right; now right].
    cbn [fst snd] in Ht. destruct (String.eqb k0 "__proto__"); [now left|].
    destruct (set_In _ _ _ _ _ Ht) as [E | Ht']; [|now left].
    right. left. now symmetry. }
  intro Hin. destruct (H _ _ Hin) as [[] | Hs]. exact Hs.
Qed.

Lemma Object_assign_objects (chunks : list object) :
  forall target k v,
    In (k, v) (Object_assign target (map VObj chunks)) ->
    In (k, v) target \/ exists c, In c chunks /\ In (k, v) c.
Proof.
  unfold Object_assign.
  induction chunks as [|c chunks IH]; intros target k v H; simpl in H; [now left|].
  destruct (IH _ _ _ H) as [Hin | (c' & Hc' & Hin)].
  - destruct (assign_source_In _ _ _ _ Hin) as [Ht | Hc]; [now left|].
    right. exists c. split; [now left | assumption].
  - right. exists c'. split; [now right | assumption].
Qed.

Section IdentityTranslation.

Variable Env : Type.
Variable signal_aborted : Env -> bool.
Variable fetch : request -> Env -> result response * Env.
Variable createId : Env -> string * Env.
Variable progressCallback : option (progress -> Env -> result unit * Env).
Variable localeCodeSchema : string -> bool.
Variable ZodError : localizationParams -> error.
Variable valid_attribute_name : string -> bool.
Variable in_html_namespace : ref -> bool.
Variable cfg : config.

Hypothesis no_abort : never_aborted signal_aborted.
Hypothesis identity : identity_translation fetch.
Hypothesis callback_ok : callback_returns progressCallback.

Lemma localizeChunk_identity (sourceLocale : option string) (targetLocale : string)
    (data : object) (reference : option (list (string * object)))
    (workflowId : string) (fast : bool) (w : Engine.world Env) :
  exists w',
    Engine.localizeChunk signal_aborted fetch cfg sourceLocale targetLocale data
                         reference workflowId fast w
    = (Ok (VObj data), w').
Proof.
  unfold Engine.localizeChunk, bind, aborted. rewrite no_abort.
  unfold try_catch, Engine.localizeChunk_try, bind, await_fetch.
  destruct (identity (chunk_request cfg sourceLocale targetLocale data reference
                                    workflowId fast) (env w))
    as (res & e' & o & -> & Hok & Hjson & Hdata).
  rewrite Hok. simpl. unfold lift. rewrite Hjson. simpl. rewrite Hdata. simpl.
  eexists. reflexivity.
Qed.

Lemma call_progress_returns (p : progress) (w : Engine.world Env) :
  exists w', Engine.call_progress progressCallback p w = (Ok tt, w').
Proof.
  unfold Engine.call_progress.
  destruct progressCallback as [callback|] eqn:Hcb; [|eexists; reflexivity].
  pose proof (callback_ok callback eq_refl p (env w)) as H.
  destruct (callback p (env w)) as [r e']. simpl in H. subst r.
  eexists. reflexivity.
Qed.

Lemma _localizeRaw_loop_identity (params : localizationParams) (workflowId : string)
    (len : nat) (chunks : list object) :
  forall i processed w,
    exists w',
      Engine._localizeRaw_loop signal_aborted fetch progressCallback cfg params
                               workflowId len chunks i processed w
      = (Ok (processed ++ map VObj chunks), w').
Proof.
  induction chunks as [|chunk rest IH]; intros i processed w; simpl.
  - exists w. now rewrite app_nil_r.
  - unfold bind at 1. unfold aborted. rewrite no_abort.
    unfold bind at 1.
    destruct (localizeChunk_identity (sourceLocale params) (targetLocale params) chunk
                (reference params) workflowId
                (match fast params with Some b => b | None => false end) w)
      as (w1 & ->).
    unfold bind at 1.
    destruct (call_progress_returns
                {| completed := i + 1; total := len; sourceChunk := chunk;
                   processedChunk := VObj chunk |} w1) as (w2 & ->).
    destruct (IH (S i) (processed ++ [VObj chunk]) w2) as (w3 & ->).
    exists w3. now rewrite <- app_assoc.
Qed.

(** Under an identity translation [_localizeRaw] returns entries of the
    payload it was given. *)
Lemma _localizeRaw_identity (payload : object) (params : localizationParams)
    (w : Engine.world Env) :
  valid_params localeCodeSchema params = true ->
  exists localized w',
    Engine._localizeRaw signal_aborted fetch createId progressCallback localeCodeSchema
                        ZodError cfg payload params w
    = (Ok localized, w')
    /\ forall k v, In (k, v) localized -> In (k, v) payload.
Proof.
  intro Hvalid. unfold Engine._localizeRaw, bind, aborted.
  rewrite no_abort, Hvalid. simpl.
  unfold Engine.call_createId. destruct (createId (env w)) as [id e1].
  destruct (_localizeRaw_loop_identity params id
              (length (extractPayloadChunks cfg (payloadSchema_parse payload)))
              (extractPayloadChunks cfg (payloadSchema_parse payload)) 0 []
              {| env := e1; sent := sent w |}) as (w' & ->).
  simpl. unfold ret. eexists. eexists. split; [reflexivity|].
  intros k v H. destruct (Object_assign_objects _ _ _ _ H) as [[] | (c & Hc & Hin)].
  apply payloadSchema_parse_In.
  exact (extractPayloadChunks_subset cfg _ c Hc _ Hin).
Qed.

(** C3 (amended): let the document have a head and a body, no element
    outside [script] and [style] named after a property of
    [Object.prototype], and no leading or trailing white space in its
    non-blank text nodes outside [script] and [style].  Then
    [localizeHtml] with an identity translation, never aborted, ends with
    the input document in which only the [lang] attribute of the root is
    set to the target locale. *)
Theorem localizeHtml_identity_translation (document : node)
    (params : localizationParams) (w : Engine.world Env) :
  valid_params localeCodeSchema params = true ->
  (forall a, In a ["lang"; "content"; "alt"; "placeholder"; "title"] ->
             valid_attribute_name a = true) ->
  Dom.head document <> None -> Dom.body document <> None ->
  (forall r t a cs,
      Dom.node_at document r = Some (Element t a cs) ->
      Dom.under_unlocalizable document r = false ->
      Dom.LOCALIZABLE_ATTRIBUTES (JsString.toLowerCase t) <> Dom.Inherited) ->
  (forall r d,
      Dom.node_at document r = Some (Text d) ->
      Dom.under_unlocalizable document r = false ->
      JsString.truthy (JsString.trim d) = true ->
      JsString.trim d = d) ->
  exists w',
    Engine.localizeHtml signal_aborted fetch createId progressCallback localeCodeSchema
                        ZodError valid_attribute_name in_html_namespace cfg document params w
    = (Ok (with_lang (targetLocale params) document), w').
Proof.
  intros Hvalid Hnames Hhead Hbody Hinh Htrim.
  destruct (extractContent_total document Hinh Hhead Hbody) as (extracted & Hex).
  destruct (extractContent_emitted document extracted Hex)
    as (h & b & Hh & Hb & Hemitted).
  destruct (_localizeRaw_identity extracted params w Hvalid)
    as (localized & w' & Hraw & Hsub).
  exists w'.
  unfold Engine.localizeHtml, bind, aborted. rewrite no_abort.
  unfold try_catch, bind, lift. rewrite Hex, Hraw.
  destruct document as [t0 attrs0 cs0 | d | d]; try discriminate.
  unfold setAttribute. rewrite (Hnames "lang") by (now left).
  replace (if in_html_namespace [] then JsString.asciiLowercase "lang" else "lang")
    with "lang" by (now destruct (in_html_namespace [])).
  unfold JsObject.entries, with_lang.
  rewrite (applyEntries_unchanged valid_attribute_name in_html_namespace t0
             (Dom.set_attr "lang" (targetLocale params) attrs0) cs0); [reflexivity|].
  intros key v Hin.
  assert (Hnames' : forall a, In a ["content"; "alt"; "placeholder"; "title"] ->
                              valid_attribute_name a = true)
    by (intros a Ha; apply Hnames; now right).
  destruct (Hemitted key v (Hsub key v Hin)) as [He | He].
  - exact (applyEntry_emitted valid_attribute_name in_html_namespace t0 attrs0 _ cs0 Hnames' Htrim
             h key v (or_introl Hh) He).
  - exact (applyEntry_emitted valid_attribute_name in_html_namespace t0 attrs0 _ cs0 Hnames' Htrim
             b key v (or_intror Hb) He).
Qed.

End IdentityTranslation.

Lemma all_nodes_at (p : node -> bool) (root : node) (r : ref) :
  forall n, Dom.all_nodes p root = true -> Dom.node_at root r = Some n ->
            Dom.all_nodes p n = true.
Proof.
  induction r as [|i parent IH]; intros n Hall Hn; simpl in Hn.
  - now injection Hn as <-.
  - destruct (Dom.node_at root parent) as [q|]; [|discriminate].
    specialize (IH q Hall eq_refl).
    destruct q as [t a cs | d | d]; simpl in Hn; try (destruct i; discriminate).
    simpl in IH. apply andb_true_iff in IH. destruct IH as [_ IH].
    rewrite forallb_forall in IH. apply IH. eapply nth_error_In; eassumption.
Qed.

Lemma all_nodes_here (p : node -> bool) (root : node) (r : ref) (n : node) :
  Dom.all_nodes p root = true -> Dom.node_at root r = Some n -> p n = true.
Proof.
  intros Hall Hn. pose proof (all_nodes_at p root r n Hall Hn) as H.
  destruct n; simpl in H; apply andb_true_iff in H; tauto.
Qed.

Section DocumentInstances.

Import Example.

Let html :=
  Engine.localizeHtml no_signal identity_provider createId None localeCodeSchema
                      ZodError any_name html_document config25.

(** C3, as stated, fails: under an identity translation the text " hi "
    of the body comes back as "hi". *)
Lemma padded_text_comes_back_trimmed :
  fst (html padded_document params quiet)
  = Ok (Element "HTML" [("lang", "es")]
          [Element "HEAD" [] [Element "TITLE" [] [Text "Hi"]];
           Element "BODY" [] [Text "hi"]])
  /\ with_lang "es" padded_document
     = Element "HTML" [("lang", "es")]
         [Element "HEAD" [] [Element "TITLE" [] [Text "Hi"]];
          Element "BODY" [] [Text " hi "]]
  /\ fst (html padded_document params quiet) <> Ok (with_lang "es" padded_document).
Proof. repeat split. discriminate. Qed.

(** C3 (amended) at a document with a title, a [meta] description, a
    nested paragraph and an image. *)
Lemma localizeHtml_identity_translation_witness :
  fst (html plain_document params quiet) = Ok (with_lang "es" plain_document)
  /\ with_lang "es" plain_document
     = Element "HTML" [("lang", "es")]
         [Element "HEAD" []
            [Element "TITLE" [] [Text "Hi"];
             Element "META" [("name", "description"); ("content", "A page")] []];
          Element "BODY" []
            [Element "DIV" [] [Element "P" [] [Text "Keep"]];
             Element "IMG" [("alt", "A cat")] []]].
Proof.
  split; [|reflexivity].
  destruct (localizeHtml_identity_translation unit no_signal identity_provider createId
              None localeCodeSchema ZodError any_name html_document config25) with
    (document := plain_document) (params := params) (w := quiet) as (w' & Hrun).
  - intro e. reflexivity.
  - intros req e. eexists. eexists. eexists. repeat split.
  - intros callback H. discriminate.
  - reflexivity.
  - reflexivity.
  - discriminate.
  - discriminate.
  - intros r t a cs Hn _.
    pose proof (all_nodes_here
      (fun n => match n with
                | Element t _ _ =>
                    match Dom.LOCALIZABLE_ATTRIBUTES (JsString.toLowerCase t) with
                    | Dom.Inherited => false
                    | _ => true
                    end
                | _ => true
                end) plain_document r _ eq_refl Hn) as H.
    simpl in H. intro E. rewrite E in H. discriminate.
  - intros r d Hn _ _.
    pose proof (all_nodes_here
      (fun n => match n with
                | Text d => String.eqb (JsString.trim d) d
                | _ => true
                end) plain_document r _ eq_refl Hn) as H.
    simpl in H. now apply String.eqb_eq.
  - unfold html. rewrite Hrun. reflexivity.
Defined.

(** C7 at the document with a [script] and a [style]. *)
Lemma unlocalizable_content_not_extracted_witness :
  extractContent script_document = Ok [("body/0/0", VStr "Hello")]
  /\ exists r,
       inside_unlocalizable script_document r = false
       /\ content_of script_document r "body/0/0" (VStr "Hello").
Proof.
  split; [reflexivity|].
  exact (proj1 unlocalizable_content_not_extracted script_document
           [("body/0/0", VStr "Hello")] eq_refl "body/0/0" (VStr "Hello")
           (or_introl eq_refl)).
Defined.

(** C6 fails on the code.  In the document below [body] has two children,
    so the path [body/5/0] breaks at its first index; the loop goes on
    from [body] all the same, the second index finds the [div], and the
    entry replaces the content of the [div].  With an attribute the same
    kind of path ends on a text node and [setAttribute] throws.  Only a
    path that breaks at its last index is skipped. *)
Theorem broken_path_is_not_skipped :
  JsNumber.index (Dom.filtered (Element "BODY" []
                                  [Element "DIV" [] [Element "P" [] [Text "Keep"]];
                                   Element "IMG" [("alt", "A cat")] []]))
                 (JsNumber.parseInt "5") = None
  /\ applyEntry any_name html_document plain_document "body/5/0" (VStr "X")
     = Ok (Element "HTML" [("lang", "en")]
             [Element "HEAD" []
                [Element "TITLE" [] [Text "Hi"];
                 Element "META" [("name", "description"); ("content", "A page")] []];
              Element "BODY" []
                [Element "DIV" [] [Text "X"];
                 Element "IMG" [("alt", "A cat")] []]])
  /\ applyEntry any_name html_document plain_document "body/5/0/0/0#title" (VStr "X")
     = Throw (TypeError "current.setAttribute is not a function")
  /\ (forall v, applyEntry any_name html_document plain_document "body/0/7" v = Ok plain_document).
Proof. repeat split. Qed.

End DocumentInstances.

Section ChatInstances.

Import Example.

Let chatRun :=
  Engine.localizeChat signal_aborted identity_provider createId None
                      localeCodeSchema ZodError config25.

(** C10 at a two-message transcript: keys [chat_1] and [chat_0] are
    recombined with the names at those indices, the key ["chat"] fails,
    and so does the whole call when the provider echoes the payload. *)
Lemma recombine_requires_chat_keys_witness :
  Engine.recombine chatA [("chat_1", VStr "Adios"); ("chat_0", VStr "Hola")]
  = Ok [{| Chat.name' := "Bob"; Chat.text' := VStr "Adios" |};
        {| Chat.name' := "Alice"; Chat.text' := VStr "Hola" |}]
  /\ Engine.recombine chatA [("chat_0", VStr "Hola"); ("chat", VStr "?")]
     = Throw missing_name
  /\ fst (chatRun chatA params start) = Throw missing_name.
Proof.
  destruct (recombine_requires_chat_keys Env signal_aborted identity_provider createId
              None localeCodeSchema ZodError config25 chatA) as (_ & Hfail & Hcall).
  split; [reflexivity|]. split.
  - apply (Hfail _ "chat" (VStr "?")); [right; left; reflexivity | left; reflexivity].
  - unfold chatRun.
    rewrite (Hcall params start [("chat", Engine.chat_value chatA)]
               (snd (Engine._localizeRaw signal_aborted identity_provider createId None
                       localeCodeSchema ZodError config25
                       [("chat", Engine.chat_value chatA)] params start))
               (Engine.chat_value chatA));
      [reflexivity | reflexivity | left; reflexivity].
Defined.

End ChatInstances.

(* ================================================================== *)
(** ** The shape of the chunks *)

Section ChunkShape.


Import JsObject.

Variable cfg : config.

Lemma countWordsInRecord_app (a b : object) :
  countWordsInRecord (VObj (a ++ b))
  = countWordsInRecord (VObj a) + countWordsInRecord (VObj b).
Proof.
  rewrite !countWordsInRecord_object. unfold values.
  rewrite map_app, map_app, list_sum_app. reflexivity.
Qed.

Lemma extractPayloadChunks_loop_sizes (len : nat) (payloadEntries : list (string * value)) :
  forall i currentChunk result,
    length currentChunk < batchSize cfg ->
    wf (currentChunk ++ payloadEntries) ->
    Forall (fun chunk => 1 <= length chunk <= batchSize cfg) result ->
    Forall (fun chunk => 1 <= length chunk <= batchSize cfg)
      (extractPayloadChunks_loop cfg len payloadEntries i currentChunk
         (length currentChunk) result).
Proof.
  induction payloadEntries as [|[k v] rest IH]; intros i cur result Hlt Hwf Hres.
  - exact Hres.
  - cbn [extractPayloadChunks_loop].
    rewrite (set_append k v cur rest Hwf).
    assert (Hlen : length (cur ++ [(k, v)]) = S (length cur))
      by (rewrite length_app; simpl; lia).
    assert (Hwf' : wf ((cur ++ [(k, v)]) ++ rest))
      by (rewrite <- app_assoc; exact Hwf).
    destruct ((idealBatchItemSize cfg <? _) || (batchSize cfg <=? S (length cur))
              || (i =? len - 1)) eqn:Hclose.
    + apply (IH (S i) [] (result ++ [cur ++ [(k, v)]])).
      * simpl. lia.
      * apply (wf_app_r (cur ++ [(k, v)])). exact Hwf'.
      * apply Forall_app. split; [exact Hres|].
        constructor; [|constructor]. rewrite Hlen. lia.
    + rewrite <- Hlen. apply IH.
      * rewrite Hlen. apply orb_false_iff in Hclose. destruct Hclose as [Hclose _].
        apply orb_false_iff in Hclose. destruct Hclose as [_ Hclose].
        apply Nat.leb_gt in Hclose. exact Hclose.
      * exact Hwf'.
      * exact Hres.
Qed.


(** X1: with a batch size of at least one, every chunk of a well-formed
    payload holds at least one entry and at most [batchSize] entries. *)
Theorem extractPayloadChunks_chunk_sizes (payload : object) :
  1 <= batchSize cfg ->
  wf payload ->
  Forall (fun chunk => 1 <= length chunk <= batchSize cfg)
         (extractPayloadChunks cfg payload).
Proof.
  intros Hb Hwf. unfold extractPayloadChunks, entries.
  apply (extractPayloadChunks_loop_sizes (length payload) payload 0 [] []).
  - simpl. lia.
  - exact Hwf.
  - constructor.
Qed.

Lemma extractPayloadChunks_loop_soft_cap (len : nat)
    (payloadEntries : list (string * value)) :
  forall i currentChunk count result,
    countWordsInRecord (VObj currentChunk) <= idealBatchItemSize cfg ->
    wf (currentChunk ++ payloadEntries) ->
    Forall (fun chunk =>
              countWordsInRecord (VObj (removelast chunk)) <= idealBatchItemSize cfg)
           result ->
    Forall (fun chunk =>
              countWordsInRecord (VObj (removelast chunk)) <= idealBatchItemSize cfg)
      (extractPayloadChunks_loop cfg len payloadEntries i currentChunk count result).
Proof.
  induction payloadEntries as [|[k v] rest IH]; intros i cur count result Hcap Hwf Hres.
  - exact Hres.
  - cbn [extractPayloadChunks_loop].
    rewrite (set_append k v cur rest Hwf).
    assert (Hwf' : wf ((cur ++ [(k, v)]) ++ rest))
      by (rewrite <- app_assoc; exact Hwf).
    destruct (idealBatchItemSize cfg <? countWordsInRecord (VObj (cur ++ [(k, v)])))
      eqn:Hsize; cbn [orb].
    + apply IH.
      * simpl. lia.
      * apply (wf_app_r (cur ++ [(k, v)])). exact Hwf'.
      * apply Forall_app. split; [exact Hres|].
        constructor; [|constructor]. rewrite removelast_last. exact Hcap.
    + apply Nat.ltb_ge in Hsize.
      destruct ((batchSize cfg <=? S count) || (i =? len - 1)).
      * apply IH.
        -- simpl. lia.
        -- apply (wf_app_r (cur ++ [(k, v)])). exact Hwf'.
        -- apply Forall_app. split; [exact Hres|].
           constructor; [|constructor]. rewrite removelast_last. exact Hcap.
      * apply IH; [exact Hsize | exact Hwf' | exact Hres].
Qed.

(** X2: the word limit is a soft one that only the entry closing a chunk
    may exceed: every chunk of a well-formed payload, without its last
    entry, counts at most [idealBatchItemSize] words. *)
Theorem extractPayloadChunks_soft_cap (payload : object) :
  wf payload ->
  Forall (fun chunk =>
            countWordsInRecord (VObj (removelast chunk)) <= idealBatchItemSize cfg)
         (extractPayloadChunks cfg payload).
Proof.
  intros Hwf. unfold extractPayloadChunks, entries.
  apply extractPayloadChunks_loop_soft_cap.
  - simpl. lia.
  - exact Hwf.
  - constructor.
Qed.

Lemma extractPayloadChunks_loop_fits (payloadEntries : list (string * value)) :
  forall i currentChunk result,
    payloadEntries <> [] ->
    length currentChunk + length payloadEntries <= batchSize cfg ->
    countWordsInRecord (VObj (currentChunk ++ payloadEntries)) <= idealBatchItemSize cfg ->
    wf (currentChunk ++ payloadEntries) ->
    extractPayloadChunks_loop cfg (i + length payloadEntries) payloadEntries i
      currentChunk (length currentChunk) result
    = result ++ [currentChunk ++ payloadEntries].
Proof.
  induction payloadEntries as [|[k v] rest IH]; intros i cur result Hne Hlen Hwords Hwf.
  - contradiction.
  - cbn [extractPayloadChunks_loop].
    rewrite (set_append k v cur rest Hwf).
    assert (Hlen' : length (cur ++ [(k, v)]) = S (length cur))
      by (rewrite length_app; simpl; lia).
    assert (Happ : (cur ++ [(k, v)]) ++ rest = cur ++ (k, v) :: rest)
      by (rewrite <- app_assoc; reflexivity).
    assert (Hsmall : (idealBatchItemSize cfg <? countWordsInRecord (VObj (cur ++ [(k, v)])))
                     = false).
    { apply Nat.ltb_ge. rewrite <- Happ, countWordsInRecord_app in Hwords. lia. }
    rewrite Hsmall. cbn [orb]. simpl length in Hlen.
    destruct rest as [|e rest'].
    + replace (i =? i + length [(k, v)] - 1) with true
        by (symmetry; apply Nat.eqb_eq; simpl; lia).
      rewrite orb_true_r. reflexivity.
    + replace (batchSize cfg <=? S (length cur)) with false
        by (symmetry; apply Nat.leb_gt; simpl in Hlen; lia).
      replace (i =? i + length ((k, v) :: e :: rest') - 1) with false
        by (symmetry; apply Nat.eqb_neq; simpl; lia).
      cbn [orb]. rewrite <- Hlen'.
      replace (i + length ((k, v) :: e :: rest')) with (S i + length (e :: rest'))
        by (simpl; lia).
      rewrite IH.
      * rewrite Happ. reflexivity.
      * discriminate.
      * rewrite Hlen'. simpl. simpl in Hlen. lia.
      * rewrite Happ. exact Hwords.
      * rewrite Happ. exact Hwf.
Qed.

(** X3: a payload that fits one batch is not split: a non-empty
    well-formed payload with at most [batchSize] entries and at most
    [idealBatchItemSize] words comes back as one chunk, the payload
    itself. *)
Theorem extractPayloadChunks_one_batch (payload : object) :
  payload <> [] ->
  length payload <= batchSize cfg ->
  countWordsInRecord (VObj payload) <= idealBatchItemSize cfg ->
  wf payload ->
  extractPayloadChunks cfg payload = [payload].
Proof.
  intros Hne Hlen Hwords Hwf. unfold extractPayloadChunks, entries.
  exact (extractPayloadChunks_loop_fits payload 0 [] [] Hne Hlen Hwords Hwf).
Qed.

Lemma extractPayloadChunks_loop_singletons (len : nat)
    (payloadEntries : list (string * value)) :
  forall i result,
    batchSize cfg <= 1 ->
    ~ In "__proto__" (keys payloadEntries) ->
    extractPayloadChunks_loop cfg len payloadEntries i [] 0 result
    = result ++ map (fun entry => [entry]) payloadEntries.
Proof.
  induction payloadEntries as [|[k v] rest IH]; intros i result Hb Hproto.
  - simpl. rewrite app_nil_r. reflexivity.
  - cbn [extractPayloadChunks_loop].
    assert (Hset : set k v [] = [(k, v)]).
    { unfold set. destruct (String.eqb_spec k "__proto__") as [->|_]; [|reflexivity].
      exfalso. apply Hproto. left. reflexivity. }
    rewrite Hset.
    replace (batchSize cfg <=? 1) with true by (symmetry; apply Nat.leb_le; exact Hb).
    rewrite orb_true_r. cbn [orb].
    rewrite IH; [|exact Hb|intros Hin; apply Hproto; right; exact Hin].
    rewrite <- app_assoc. reflexivity.
Qed.

(** X4: with a batch size of one (or zero) every entry is a chunk of its
    own, whatever the word limit: the chunks are the payload's entries,
    one by one and in order. *)
Theorem extractPayloadChunks_batch_of_one (payload : object) :
  batchSize cfg <= 1 ->
  ~ In "__proto__" (keys payload) ->
  extractPayloadChunks cfg payload = map (fun entry => [entry]) payload.
Proof.
  intros Hb Hproto. unfold extractPayloadChunks, entries.
  exact (extractPayloadChunks_loop_singletons (length payload) payload 0 [] Hb Hproto).
Qed.

End ChunkShape.

Section ChunkShapeInstances.

Import Example.

(** X1 at the three-entry payload and the default configuration. *)
Lemma extractPayloadChunks_chunk_sizes_witness :
  1 <= batchSize config25
  /\ JsObject.wf payload3
  /\ Forall (fun chunk => 1 <= length chunk <= batchSize config25)
            (extractPayloadChunks config25 payload3).
Proof.
  split; [simpl; lia|]. split; [solve_wf|].
  apply (extractPayloadChunks_chunk_sizes config25 payload3); [simpl; lia | solve_wf].
Defined.

(** X2 at the three-entry payload and a limit of two words: the first
    chunk is closed by the entry that takes it to three words. *)
Lemma extractPayloadChunks_soft_cap_witness :
  JsObject.wf payload3
  /\ Forall (fun chunk =>
               countWordsInRecord (VObj (removelast chunk)) <= idealBatchItemSize tight)
            (extractPayloadChunks tight payload3)
  /\ extractPayloadChunks tight payload3
     = [[("7", VStr "seven"); ("title", VStr "Hello world")];
        [("body", VStr "Good morning")]].
Proof.
  split; [solve_wf|]. split; [|reflexivity].
  apply (extractPayloadChunks_soft_cap tight payload3). solve_wf.
Defined.

(** X3 at the three-entry payload and the default configuration. *)
Lemma extractPayloadChunks_one_batch_witness :
  extractPayloadChunks config25 payload3 = [payload3].
Proof.
  apply (extractPayloadChunks_one_batch config25 payload3);
    [discriminate | simpl; lia | vm_compute; lia | solve_wf].
Defined.

(** X4 at the three-entry payload and a batch size of one. *)
Lemma extractPayloadChunks_batch_of_one_witness :
  extractPayloadChunks config1 payload3 = map (fun entry => [entry]) payload3.
Proof.
  apply (extractPayloadChunks_batch_of_one config1 payload3);
    [simpl; lia | simpl; intuition discriminate].
Defined.

End ChunkShapeInstances.

(* ================================================================== *)
(** ** The aggregate of the chunk results *)

Section Aggregation.

Import JsObject.

Local Abbreviation assign target source :=
  (fold_left (fun t' kv => set (fst kv) (snd kv) t') source target).

Lemma assign_appends (source : list (string * value)) :
  forall target : object, wf (target ++ source) -> assign target source = target ++ source.
Proof.
  induction source as [|[k v] source IH]; intros target Hwf; simpl.
  - now rewrite app_nil_r.
  - rewrite (set_append k v target source Hwf).
    rewrite IH; rewrite <- app_assoc; [reflexivity | exact Hwf].
Qed.

Lemma Object_assign_concat (chunks : list object) :
  forall target,
    Object_assign target (map VObj chunks) = assign target (concat chunks).
Proof.
  unfold Object_assign.
  induction chunks as [|c chunks IH]; intros target; simpl; [reflexivity|].
  rewrite IH, fold_left_app. reflexivity.
Qed.

(** Splitting a well-formed payload into chunks and merging the chunks
    again gives the payload back. *)
Lemma Object_assign_chunks (cfg : config) (payload : object) :
  wf payload ->
  Object_assign [] (map VObj (extractPayloadChunks cfg payload)) = payload.
Proof.
  intro Hwf. rewrite Object_assign_concat.
  pose proof (extractPayloadChunks_concat cfg payload Hwf) as Hc.
  unfold entries in Hc. rewrite map_id in Hc. rewrite Hc.
  apply (assign_appends payload []). exact Hwf.
Qed.

Lemma get_define_same (k : string) (v : value) (o : object) :
  get k (define k v o) = Some v.
Proof.
  induction o as [|[k' v'] o IH]; simpl.
  - now rewrite String.eqb_refl.
  - destruct (String.eqb_spec k k') as [->|Hne]; simpl.
    + now rewrite String.eqb_refl.
    + destruct (goes_before k k'); simpl.
      * now rewrite String.eqb_refl.
      * apply String.eqb_neq in Hne. rewrite Hne. exact IH.
Qed.

Lemma get_define_other (k k0 : string) (v : value) (o : object) :
  k <> k0 -> get k (define k0 v o) = get k o.
Proof.
  intro Hne. apply String.eqb_neq in Hne.
  induction o as [|[k' v'] o IH]; simpl.
  - now rewrite Hne.
  - destruct (String.eqb_spec k0 k') as [->|Hne']; simpl.
    + now rewrite Hne.
    + destruct (goes_before k0 k'); simpl.
      * now rewrite Hne.
      * destruct (String.eqb k k'); [reflexivity | exact IH].
Qed.

Lemma get_None_keys (k : string) (o : object) :
  ~ In k (keys o) -> get k o = None.
Proof.
  induction o as [|[k' v'] o IH]; intro Hin; simpl; [reflexivity|].
  destruct (String.eqb_spec k k') as [->|_].
  - exfalso. apply Hin. now left.
  - apply IH. intro H. apply Hin. now right.
Qed.

Lemma get_assign (k : string) (source : list (string * value)) :
  k <> "__proto__" -> NoDup (keys source) ->
  forall target,
    get k (assign target source)
    = match get k source with Some v => Some v | None => get k target end.
Proof.
  intros Hk.
  induction source as [|[k0 v0] source IH]; intros Hnd target; simpl; [reflexivity|].
  inversion Hnd as [|? ? Hnotin Hnd']; subst.
  rewrite (IH Hnd'). destruct (String.eqb_spec k k0) as [->|Hne].
  - rewrite (get_None_keys k0 source Hnotin). unfold set.
    apply String.eqb_neq in Hk. rewrite Hk. apply get_define_same.
  - destruct (get k source); [reflexivity|].
    unfold set. destruct (String.eqb k0 "__proto__"); [reflexivity|].
    now apply get_define_other.
Qed.

(** X5: the aggregate is built by assignment in chunk order, so the last
    write wins: in the aggregate of some chunk results followed by the
    result [chunk] (an object with distinct keys), a key of [chunk] has
    the value [chunk] gives it, and any other key has the value it has in
    the aggregate of the earlier results. *)
Theorem Object_assign_last_write_wins (processed : list value) (chunk : object)
    (k : string) :
  k <> "__proto__" ->
  NoDup (keys chunk) ->
  get k (Object_assign [] (processed ++ [VObj chunk]))
  = match get k chunk with
    | Some v => Some v
    | None => get k (Object_assign [] processed)
    end.
Proof.
  intros Hk Hnd. unfold Object_assign. rewrite fold_left_app. simpl.
  now apply get_assign.
Qed.

End Aggregation.

(** X5 at two chunk results that both hold the key ["title"]. *)
Lemma Object_assign_last_write_wins_witness :
  JsObject.get "title"
    (Object_assign [] ([VObj [("title", VStr "Hola"); ("body", VStr "Buenas")]]
                       ++ [VObj [("title", VStr "Bonjour")]]))
  = Some (VStr "Bonjour")
  /\ JsObject.get "body"
       (Object_assign [] ([VObj [("title", VStr "Hola"); ("body", VStr "Buenas")]]
                          ++ [VObj [("title", VStr "Bonjour")]]))
     = Some (VStr "Buenas").
Proof.
  split.
  - rewrite (Object_assign_last_write_wins
               [VObj [("title", VStr "Hola"); ("body", VStr "Buenas")]]
               [("title", VStr "Bonjour")] "title");
      [reflexivity | discriminate | repeat constructor; simpl; intuition].
  - reflexivity.
Defined.

Section Requests.

Variable Env : Type.
Variable signal_aborted : Env -> bool.
Variable fetch : request -> Env -> result response * Env.
Variable createId : Env -> string * Env.
Variable progressCallback : option (progress -> Env -> result unit * Env).
Variable localeCodeSchema : string -> bool.
Variable ZodError : localizationParams -> error.
Variable cfg : config.

Local Abbreviation world := (Engine.world Env).
Local Abbreviation _localizeRaw_loop :=
  (Engine._localizeRaw_loop signal_aborted fetch progressCallback cfg).
Local Abbreviation _localizeRaw :=
  (Engine._localizeRaw signal_aborted fetch createId progressCallback localeCodeSchema
                       ZodError cfg).

(** The request [_localizeRaw] makes for a chunk. *)
Local Abbreviation request_of params workflowId :=
  (fun chunk : object =>
     chunk_request cfg (sourceLocale params) (targetLocale params) chunk
                   (reference params) workflowId
                   (match fast params with Some b => b | None => false end)).

Lemma _localizeRaw_loop_step (params : localizationParams) (workflowId : string)
    (len : nat) (chunk : object) (rest : list object) (i : nat)
    (processed : list value) (w : world) :
  _localizeRaw_loop params workflowId len (chunk :: rest) i processed w
  = if signal_aborted (env w) then (Throw (Error aborted_message), w)
    else
      match Engine.localizeChunk signal_aborted fetch cfg (sourceLocale params)
              (targetLocale params) chunk (reference params) workflowId
              (match fast params with Some b => b | None => false end) w with
      | (Ok v, w1) =>
          match Engine.call_progress progressCallback
                  {| completed := i + 1; total := len; sourceChunk := chunk;
                     processedChunk := v |} w1 with
          | (Ok _, w2) =>
              _localizeRaw_loop params workflowId len rest (S i) (processed ++ [v]) w2
          | (Throw e, w2) => (Throw e, w2)
          end
      | (Throw e, w1) => (Throw e, w1)
      end.
Proof.
  cbn [Engine._localizeRaw_loop]. unfold bind, aborted.
  destruct (signal_aborted (env w)); reflexivity.
Qed.

Lemma _localizeRaw_loop_requests (params : localizationParams) (workflowId : string)
    (len : nat) (chunks : list object) :
  forall i processed w,
    exists n,
      n <= length chunks
      /\ sent (snd (_localizeRaw_loop params workflowId len chunks i processed w))
         = sent w ++ map (request_of params workflowId) (firstn n chunks)
      /\ forall out,
           fst (_localizeRaw_loop params workflowId len chunks i processed w) = Ok out ->
           n = length chunks /\ length out = length processed + length chunks.
Proof.
  induction chunks as [|chunk rest IH]; intros i processed w.
  - exists 0. simpl. rewrite app_nil_r. split; [lia|]. split; [reflexivity|].
    intros out H. unfold ret in H. simpl in H. injection H as <-. lia.
  - rewrite _localizeRaw_loop_step.
    destruct (signal_aborted (env w)) eqn:Hsig.
    + exists 0. simpl. rewrite app_nil_r. split; [lia|]. split; [reflexivity|].
      intros out H. discriminate.
    + pose proof (localizeChunk_sent Env signal_aborted fetch cfg
                    (sourceLocale params) (targetLocale params) chunk
                    (reference params) workflowId
                    (match fast params with Some b => b | None => false end)
                    w Hsig) as Hsent.
      destruct (Engine.localizeChunk _ _ _ _ _ _ _ _ _ w) as [[v|e] w1]; simpl in Hsent.
      * match goal with |- context [Engine.call_progress ?cb ?p w1] =>
          pose proof (call_progress_sent Env cb p w1) as Hp;
          destruct (Engine.call_progress cb p w1) as [[[]|e] w2] end; simpl in Hp.
        -- destruct (IH (S i) (processed ++ [v]) w2) as (n & Hn & Hs & Hok).
           exists (S n). split; [simpl; lia|]. split.
           ++ rewrite Hs, Hp, Hsent. simpl. rewrite <- app_assoc. reflexivity.
           ++ intros out H. destruct (Hok out H) as [-> Hlen].
              split; [reflexivity|]. rewrite Hlen, length_app. simpl. lia.
        -- exists 1. split; [simpl; lia|]. simpl. rewrite Hp, Hsent.
           split; [reflexivity|]. intros out H. discriminate.
      * exists 1. split; [simpl; lia|]. simpl. rewrite Hsent.
        split; [reflexivity|]. intros out H. discriminate.
Qed.

(** X6: whatever the provider, the signal and the callback do, the
    requests [_localizeRaw] sends are those of the first [n] chunks of
    the payload as [payloadSchema.parse] returns it (without an own
    ["__proto__"] entry), one request per chunk and in chunk order, all
    with the workflow id drawn once at the start and the locales of the
    call; and if the call returns, every chunk was sent ([n] is the
    number of chunks). *)
Theorem _localizeRaw_requests (payload : object) (params : localizationParams)
    (w : world) :
  let chunks := extractPayloadChunks cfg (payloadSchema_parse payload) in
  let workflowId := fst (createId (env w)) in
  exists n,
    n <= length chunks
    /\ sent (snd (_localizeRaw payload params w))
       = sent w ++ map (fun chunk =>
                          chunk_request cfg (sourceLocale params) (targetLocale params)
                            chunk (reference params) workflowId
                            (match fast params with Some b => b | None => false end))
                       (firstn n chunks)
    /\ forall localized,
         fst (_localizeRaw payload params w) = Ok localized -> n = length chunks.
Proof.
  intros chunks workflowId.
  unfold Engine._localizeRaw, bind, aborted.
  destruct (signal_aborted (env w)).
  { exists 0. simpl. rewrite app_nil_r. split; [lia|]. split; [reflexivity|].
    intros ? H; unfold throw in H; simpl in H; discriminate. }
  destruct (valid_params localeCodeSchema params); simpl.
  2:{ exists 0. simpl. rewrite app_nil_r. split; [lia|]. split; [reflexivity|].
      intros ? H; unfold throw in H; simpl in H; discriminate. }
  unfold Engine.call_createId. subst workflowId.
  destruct (createId (env w)) as [id e1]. simpl fst. fold chunks.
  destruct (_localizeRaw_loop_requests params id (length chunks) chunks 0 []
              {| env := e1; sent := sent w |}) as (n & Hn & Hs & Hok).
  exists n. split; [exact Hn|].
  destruct (Engine._localizeRaw_loop _ _ _ _ _ _ _ _ _ _ _) as [[out|e] w'];
    simpl in *.
  - split; [exact Hs|]. intros _ _. exact (proj1 (Hok out eq_refl)).
  - split; [exact Hs|]. intros ? H; unfold throw in H; simpl in H; discriminate.
Qed.

(** X7: what [_localizeRaw] does when there is nothing to send.  The
    parameters are checked before anything else happens: with invalid
    parameters the call fails with the schema's error and the world is
    untouched (no workflow id is drawn, no request sent).  With valid
    parameters and an empty payload it draws a workflow id, sends no
    request and returns the empty mapping. *)
Theorem _localizeRaw_nothing_to_send (payload : object) (params : localizationParams)
    (w : world) :
  signal_aborted (env w) = false ->
  (valid_params localeCodeSchema params = false ->
     _localizeRaw payload params w = (Throw (ZodError params), w))
  /\ (valid_params localeCodeSchema params = true ->
      _localizeRaw [] params w
      = (Ok [], {| env := snd (createId (env w)); sent := sent w |})).
Proof.
  intro Hsig. split; intro Hvalid;
    unfold Engine._localizeRaw, bind, aborted; rewrite Hsig, Hvalid; simpl.
  - reflexivity.
  - unfold Engine.call_createId. destruct (createId (env w)) as [id e1]. reflexivity.
Qed.

End Requests.

Section ObjectRoundTrip.

Variable Env : Type.
Variable signal_aborted : Env -> bool.
Variable fetch : request -> Env -> result response * Env.
Variable createId : Env -> string * Env.
Variable progressCallback : option (progress -> Env -> result unit * Env).
Variable localeCodeSchema : string -> bool.
Variable ZodError : localizationParams -> error.
Variable cfg : config.

(** X8: with a provider that answers every chunk with the chunk itself, a
    caller that never aborts and a progress callback that returns,
    [localizeObject] returns the object it was given: splitting a
    well-formed object into chunks and assigning the chunk results into
    one object loses nothing and keeps the order of the entries. *)
Theorem localizeObject_identity (obj : object) (params : localizationParams)
    (w : Engine.world Env) :
  never_aborted signal_aborted ->
  identity_translation fetch ->
  callback_returns progressCallback ->
  valid_params localeCodeSchema params = true ->
  JsObject.wf obj ->
  exists w',
    Engine.localizeObject signal_aborted fetch createId progressCallback
                          localeCodeSchema ZodError cfg obj params w
    = (Ok obj, w').
Proof.
  intros no_abort identity callback_ok Hvalid Hwf.
  unfold Engine.localizeObject, Engine._localizeRaw, bind, aborted.
  rewrite no_abort, Hvalid. simpl.
  unfold Engine.call_createId. destruct (createId (env w)) as [id e1].
  destruct (_localizeRaw_loop_identity Env signal_aborted fetch progressCallback cfg
              no_abort identity callback_ok params id
              (length (extractPayloadChunks cfg obj))
              (extractPayloadChunks cfg obj) 0 []
              {| env := e1; sent := sent w |}) as (w' & Hloop).
  rewrite (payloadSchema_parse_wf obj Hwf), Hloop.
  exists w'. unfold ret. simpl. rewrite (Object_assign_chunks cfg obj Hwf). reflexivity.
Qed.

End ObjectRoundTrip.

Section RequestInstances.

Import Example.

(** X6 at a payload with an own ["__proto__"] entry and the default
    configuration: the run returns, and the one request it sent carries
    the three other entries. *)
Lemma _localizeRaw_requests_witness :
  map req_data
      (Engine.sent (snd (Engine._localizeRaw no_signal identity_provider createId None
                           localeCodeSchema ZodError config25 payload_with_proto params
                           quiet)))
  = [payload3].
Proof.
  destruct (_localizeRaw_requests unit no_signal identity_provider createId None
              localeCodeSchema ZodError config25 payload_with_proto params quiet)
    as (n & _ & Hsent & Hreturned).
  rewrite Hsent, (Hreturned _ eq_refl). reflexivity.
Defined.

(** X7 at parameters with an unknown target locale, and at an empty
    payload. *)
Lemma _localizeRaw_nothing_to_send_witness :
  Engine._localizeRaw signal_aborted identity_provider createId None localeCodeSchema
                      ZodError config25 payload3
                      {| sourceLocale := Some "en"; targetLocale := "xx";
                         fast := None; reference := None |} start
  = (Throw (ZodError
              {| sourceLocale := Some "en"; targetLocale := "xx";
                 fast := None; reference := None |}), start)
  /\ Engine._localizeRaw signal_aborted identity_provider createId None localeCodeSchema
                         ZodError config25 [] params start
     = (Ok [], start).
Proof.
  destruct (_localizeRaw_nothing_to_send Env signal_aborted identity_provider createId
              None localeCodeSchema ZodError config25 payload3
              {| sourceLocale := Some "en"; targetLocale := "xx";
                 fast := None; reference := None |} start eq_refl) as [Hinvalid _].
  destruct (_localizeRaw_nothing_to_send Env signal_aborted identity_provider createId
              None localeCodeSchema ZodError config25 payload3 params start eq_refl)
    as [_ Hempty].
  split; [exact (Hinvalid eq_refl) | exact (Hempty eq_refl)].
Defined.

(** X8 at the three-entry payload, split into three chunks. *)
Lemma localizeObject_identity_witness :
  fst (Engine.localizeObject no_signal identity_provider createId None localeCodeSchema
                             ZodError config1 payload3 params quiet)
  = Ok payload3.
Proof.
  destruct (localizeObject_identity unit no_signal identity_provider createId None
              localeCodeSchema ZodError config1 payload3 params quiet) as (w' & Hrun).
  - intro e. reflexivity.
  - intros req e. eexists. eexists. eexists. repeat split.
  - intros callback H. discriminate.
  - reflexivity.
  - solve_wf.
  - rewrite Hrun. reflexivity.
Defined.

End RequestInstances.

(* ================================================================== *)
(** ** One chunk: requests, rejections and bodies that are no objects *)

Section ChunkEdges.

Variable Env : Type.
Variable signal_aborted : Env -> bool.
Variable fetch : request -> Env -> result response * Env.
Variable cfg : config.

Variables (sourceLocale : option string) (targetLocale : string)
          (data : object) (reference : option (list (string * object)))
          (workflowId : string) (fast : bool).

Local Abbreviation req :=
  (chunk_request cfg sourceLocale targetLocale data reference workflowId fast).
Local Abbreviation run :=
  (Engine.localizeChunk signal_aborted fetch cfg sourceLocale targetLocale data
                        reference workflowId fast).

(** X9: [localizeChunk] hands no request to [fetch] when the signal is
    aborted on entry, and exactly one request otherwise, whatever the
    provider answers: a failed chunk is not sent again. *)
Theorem localizeChunk_request_count (w : Engine.world Env) :
  sent (snd (run w))
  = if signal_aborted (env w) then sent w else sent w ++ [req].
Proof.
  destruct (signal_aborted (env w)) eqn:Hsig.
  - rewrite (localizeChunk_aborted Env signal_aborted fetch cfg) by exact Hsig.
    reflexivity.
  - apply localizeChunk_sent. exact Hsig.
Qed.

(** X10: a rejection of [fetch], of [res.text()] (read for a non-success
    status other than 400) or of [res.json()] (read for a success
    status) is what [localizeChunk] fails with, unchanged, unless it is
    an [AbortError] or its message contains "aborted": then the call
    fails with the cancellation failure.  One request was sent. *)
Theorem localizeChunk_rejections (w : Engine.world Env) (e1 : Env) (failure : error) :
  signal_aborted (env w) = false ->
  fetch req (env w) = (Throw failure, e1)
  \/ (exists res, fetch req (env w) = (Ok res, e1) /\ ok res = false
                  /\ status res <> 400%N /\ text res = Throw failure)
  \/ (exists res, fetch req (env w) = (Ok res, e1) /\ ok res = true
                  /\ json res = Throw failure) ->
  run w
  = (Throw (if Engine.is_abort_error failure then Error aborted_message else failure),
     {| env := e1; sent := sent w ++ [req] |}).
Proof.
  intros Hsig Hcase.
  rewrite (localizeChunk_unfold Env signal_aborted fetch cfg) by exact Hsig.
  unfold Engine.try_catch, Engine.localizeChunk_try, Engine.bind, Engine.await_fetch.
  assert (Hn : forall w1 : Engine.world Env,
             @Engine.normalize_abort Env value failure w1
             = (Throw (if Engine.is_abort_error failure
                       then Error aborted_message else failure), w1)).
  { intro w1. unfold Engine.normalize_abort.
    destruct (Engine.is_abort_error failure); reflexivity. }
  destruct Hcase as [Hf | [(res & Hf & Hok & Hst & Hbody) | (res & Hf & Hok & Hjson)]];
    rewrite Hf.
  - apply Hn.
  - rewrite Hok. simpl negb. cbv iota.
    apply N.eqb_neq in Hst. rewrite Hst.
    unfold Engine.lift. rewrite Hbody. apply Hn.
  - rewrite Hok. simpl negb. cbv iota.
    unfold Engine.lift. rewrite Hjson. apply Hn.
Qed.

(** X11: a success response whose body parses to something that is no
    object.  The body [null] makes the read of [.data] throw, and the
    call fails with that [TypeError]; any other value that is no object
    (a string, a number, a boolean, an array) has neither [data] nor
    [error], and the call returns the empty mapping. *)
Theorem localizeChunk_body_not_an_object (w : Engine.world Env) (res : response)
    (e1 : Env) (body : value) :
  signal_aborted (env w) = false ->
  fetch req (env w) = (Ok res, e1) ->
  ok res = true ->
  json res = Ok body ->
  (forall o, body <> VObj o) ->
  run w
  = (match body with
     | VNull => Throw (TypeError "Cannot read properties of null (reading 'data')")
     | _ => Ok (VObj [])
     end,
     {| env := e1; sent := sent w ++ [req] |}).
Proof.
  intros Hsig Hf Hok Hjson Hno.
  rewrite (localizeChunk_unfold Env signal_aborted fetch cfg) by exact Hsig.
  unfold Engine.try_catch, Engine.localizeChunk_try, Engine.bind, Engine.await_fetch.
  rewrite Hf, Hok. simpl negb. cbv iota.
  unfold Engine.lift. rewrite Hjson.
  destruct body as [|b|t|s|items|o]; try reflexivity.
  exfalso. exact (Hno o eq_refl).
Qed.

End ChunkEdges.

Section ChunkEdgeInstances.

Import Example.

(** X10 at a provider that is unreachable, and at one whose connection is
    reset by an abort. *)
Lemma localizeChunk_rejections_witness :
  fst (Engine.localizeChunk signal_aborted
         unreachable config25
         (Some "en") "es" payload3 None "workflow-1" false start)
  = Throw (TypeError "fetch failed")
  /\ fst (Engine.localizeChunk signal_aborted
            (fun _ e => (Throw {| name := "AbortError";
                                  message := "This operation was aborted" |}, e))
            config25 (Some "en") "es" payload3 None "workflow-1" false start)
     = Throw (Error aborted_message).
Proof.
  split.
  - rewrite (localizeChunk_rejections Env signal_aborted
               unreachable config25
               (Some "en") "es" payload3 None "workflow-1" false start false
               (TypeError "fetch failed") eq_refl (or_introl eq_refl)).
    reflexivity.
  - reflexivity.
Defined.

(** X11 at the bodies [null] and [[]]. *)
Lemma localizeChunk_body_not_an_object_witness :
  fst (Engine.localizeChunk signal_aborted
         (respond null_body) config25
         (Some "en") "es" payload3 None "workflow-1" false start)
  = Throw (TypeError "Cannot read properties of null (reading 'data')")
  /\ fst (Engine.localizeChunk signal_aborted
            (respond {| status := 200; statusText := "OK"; text := Ok "";
                        json := Ok (VArr []) |}) config25
            (Some "en") "es" payload3 None "workflow-1" false start)
     = Ok (VObj []).
Proof.
  split.
  - rewrite (localizeChunk_body_not_an_object Env signal_aborted
               (respond null_body) config25
               (Some "en") "es" payload3 None "workflow-1" false start
               null_body false VNull eq_refl eq_refl eq_refl eq_refl);
      [reflexivity | discriminate].
  - reflexivity.
Defined.

End ChunkEdgeInstances.

(* ================================================================== *)
(** ** [localizeText] and a well-behaved provider for [localizeChat] *)

Section OneEntry.

Variable Env : Type.
Variable signal_aborted : Env -> bool.
Variable fetch : request -> Env -> result response * Env.
Variable createId : Env -> string * Env.
Variable progressCallback : option (progress -> Env -> result unit * Env).
Variable localeCodeSchema : string -> bool.
Variable ZodError : localizationParams -> error.
Variable cfg : config.

Local Abbreviation world := (Engine.world Env).
Local Abbreviation _localizeRaw :=
  (Engine._localizeRaw signal_aborted fetch createId progressCallback localeCodeSchema
                       ZodError cfg).
Local Abbreviation localizeText :=
  (Engine.localizeText signal_aborted fetch createId progressCallback localeCodeSchema
                       ZodError cfg).
Local Abbreviation localizeChat :=
  (Engine.localizeChat signal_aborted fetch createId progressCallback localeCodeSchema
                       ZodError cfg).
Local Abbreviation request_of params workflowId :=
  (fun chunk : object =>
     chunk_request cfg (sourceLocale params) (targetLocale params) chunk
                   (reference params) workflowId
                   (match fast params with Some b => b | None => false end)).

(** A one-entry payload is one chunk and one request; when the provider
    answers it with a JSON object whose [data] is an object, the
    aggregate is that object assigned into an empty one. *)
Lemma _localizeRaw_one_entry (k : string) (v : value) (params : localizationParams)
    (w : world) (id : string) (e1 e2 : Env) (res : response) (o d : object) :
  k <> "__proto__" ->
  signal_aborted (env w) = false ->
  valid_params localeCodeSchema params = true ->
  createId (env w) = (id, e1) ->
  signal_aborted e1 = false ->
  fetch (request_of params id [(k, v)]) e1 = (Ok res, e2) ->
  ok res = true ->
  json res = Ok (VObj o) ->
  JsObject.get "data" o = Some (VObj d) ->
  callback_returns progressCallback ->
  exists w',
    _localizeRaw [(k, v)] params w = (Ok (Object_assign [] [VObj d]), w').
Proof.
  intros Hk Hsig Hvalid Hid Hsig1 Hfetch Hok Hjson Hdata Hcb.
  unfold Engine._localizeRaw, bind, aborted. rewrite Hsig, Hvalid. simpl.
  unfold Engine.call_createId. rewrite Hid.
  rewrite (payloadSchema_parse_single k v Hk), extractPayloadChunks_single by exact Hk.
  simpl.
  unfold bind, aborted. simpl. rewrite Hsig1.
  unfold Engine.localizeChunk, bind, aborted. simpl. rewrite Hsig1.
  unfold try_catch, Engine.localizeChunk_try, bind, await_fetch. simpl.
  rewrite Hfetch, Hok. simpl. unfold lift. rewrite Hjson. simpl. rewrite Hdata. simpl.
  match goal with |- context [Engine.call_progress _ ?p ?w1] =>
    destruct (call_progress_returns Env progressCallback Hcb p w1) as (w2 & ->) end.
  exists w2. reflexivity.
Qed.

(** Whatever the provider answers, a one-entry payload makes one
    request. *)
Lemma _localizeRaw_one_entry_sent (k : string) (v : value) (params : localizationParams)
    (w : world) (id : string) (e1 : Env) :
  k <> "__proto__" ->
  signal_aborted (env w) = false ->
  valid_params localeCodeSchema params = true ->
  createId (env w) = (id, e1) ->
  signal_aborted e1 = false ->
  sent (snd (_localizeRaw [(k, v)] params w))
  = sent w ++ [request_of params id [(k, v)]].
Proof.
  intros Hk Hsig Hvalid Hid Hsig1.
  unfold Engine._localizeRaw, bind, aborted. rewrite Hsig, Hvalid. simpl.
  unfold Engine.call_createId. rewrite Hid.
  rewrite (payloadSchema_parse_single k v Hk), extractPayloadChunks_single by exact Hk.
  simpl.
  unfold bind, aborted. simpl. rewrite Hsig1.
  set (w1 := {| env := e1; sent := sent w |}).
  pose proof (localizeChunk_sent Env signal_aborted fetch cfg
                (sourceLocale params) (targetLocale params)
                [(k, v)] (reference params) id
                (match fast params with Some b => b | None => false end)
                w1 Hsig1) as Hsent.
  destruct (Engine.localizeChunk _ _ _ _ _ _ _ _ _ w1) as [[v'|e] w2]; simpl in Hsent;
    [|exact Hsent].
  match goal with |- context [Engine.call_progress ?cb ?p w2] =>
    pose proof (call_progress_sent Env cb p w2) as Hp;
    destruct (Engine.call_progress cb p w2) as [[[]|e] w3] end;
    simpl in Hp; unfold ret; simpl; rewrite Hp; exact Hsent.
Qed.

(** X12: [localizeText] wraps the text as the one-entry payload
    [{text: <the text>}]: with the signal not aborted and valid
    parameters it sends exactly one request, whose data is that
    payload, whatever the provider answers. *)
Theorem localizeText_request (text : string) (params : localizationParams)
    (w : world) (id : string) (e1 : Env) :
  signal_aborted (env w) = false ->
  valid_params localeCodeSchema params = true ->
  createId (env w) = (id, e1) ->
  signal_aborted e1 = false ->
  sent (snd (localizeText text params w))
  = sent w ++ [chunk_request cfg (sourceLocale params) (targetLocale params)
                 [("text", VStr text)] (reference params) id
                 (match fast params with Some b => b | None => false end)].
Proof.
  intros Hsig Hvalid Hid Hsig1.
  pose proof (_localizeRaw_one_entry_sent "text" (VStr text) params w id e1
                ltac:(discriminate) Hsig Hvalid Hid Hsig1) as Hsent.
  unfold Engine.localizeText, bind.
  destruct (Engine._localizeRaw _ _ _ _ _ _ _ _ _ w) as [[response|e] w'];
    exact Hsent.
Qed.

(** X13: when the provider answers the request of [localizeText] with a
    success response whose [data] is an object (with distinct keys and
    no own ["__proto__"] entry), [localizeText] returns the [text] entry
    of that object if it is truthy, and the empty string if the entry is
    missing or falsy. *)
Theorem localizeText_result (text : string) (params : localizationParams)
    (w : world) (id : string) (e1 e2 : Env) (res : response) (o d : object) :
  signal_aborted (env w) = false ->
  valid_params localeCodeSchema params = true ->
  createId (env w) = (id, e1) ->
  signal_aborted e1 = false ->
  fetch (chunk_request cfg (sourceLocale params) (targetLocale params)
           [("text", VStr text)] (reference params) id
           (match fast params with Some b => b | None => false end)) e1
  = (Ok res, e2) ->
  ok res = true ->
  json res = Ok (VObj o) ->
  JsObject.get "data" o = Some (VObj d) ->
  NoDup (JsObject.keys d) ->
  ~ In "__proto__" (JsObject.keys d) ->
  callback_returns progressCallback ->
  fst (localizeText text params w)
  = Ok (match JsObject.get "text" d with
        | Some translated => if truthy translated then translated else VStr ""
        | None => VStr ""
        end).
Proof.
  intros Hsig Hvalid Hid Hsig1 Hfetch Hok Hjson Hdata Hnd Hproto Hcb.
  destruct (_localizeRaw_one_entry "text" (VStr text) params w id e1 e2 res o d
              ltac:(discriminate) Hsig Hvalid Hid Hsig1 Hfetch Hok Hjson Hdata Hcb)
    as (w' & Hraw).
  unfold Engine.localizeText, bind. rewrite Hraw. unfold ret. simpl fst.
  unfold text_or_empty, Object_assign. simpl fold_left.
  rewrite (get_assign "text" d ltac:(discriminate) Hnd []). simpl.
  destruct (JsObject.get "text" d); reflexivity.
Qed.


(** The answer of a provider that returns the messages of a transcript
    one by one: the key [chat_<i>] holds the translation of message
    [i]. *)
Local Abbreviation chat_keyed translations i :=
  (map (fun kv : string * value => (("chat_" ++ fst kv)%string, snd kv))
       (indexed (fun x : value => x) translations i)).

Lemma define_at_end (k : string) (v : value) (o : object) :
  JsObject.array_index k = None -> ~ In k (JsObject.keys o) ->
  JsObject.define k v o = o ++ [(k, v)].
Proof.
  intros Hk. induction o as [|[k' v'] o IH]; intro Hin; simpl; [reflexivity|].
  destruct (String.eqb_spec k k') as [->|_].
  - exfalso. apply Hin. now left.
  - unfold JsObject.goes_before. rewrite Hk. rewrite IH; [reflexivity|].
    intro H. apply Hin. now right.
Qed.

Lemma toString_injective (i j : nat) :
  JsNumber.toString i = JsNumber.toString j -> i = j.
Proof.
  intro H. pose proof (parseInt_toString i) as Hi. rewrite H, parseInt_toString in Hi.
  injection Hi as Hi. lia.
Qed.

Lemma chat_keyed_keys (translations : list value) :
  forall i k, In k (JsObject.keys (chat_keyed translations i)) ->
              exists j, i <= j /\ k = ("chat_" ++ JsNumber.toString j)%string.
Proof.
  induction translations as [|t rest IH]; intros i k Hin; simpl in Hin; [contradiction|].
  destruct Hin as [<- | Hin].
  - exists i. split; [lia | reflexivity].
  - destruct (IH (S i) k Hin) as (j & Hj & ->). exists j. split; [lia | reflexivity].
Qed.

Lemma assign_chat_keyed (translations : list value) :
  forall i (target : object),
    (forall k, In k (JsObject.keys target) ->
               exists j, j < i /\ k = ("chat_" ++ JsNumber.toString j)%string) ->
    fold_left (fun t' kv => JsObject.set (fst kv) (snd kv) t')
              (chat_keyed translations i) target
    = target ++ chat_keyed translations i.
Proof.
  induction translations as [|t rest IH]; intros i target Hkeys; simpl.
  - now rewrite app_nil_r.
  - unfold JsObject.set at 2. simpl String.eqb.
    rewrite define_at_end.
    + rewrite IH; [now rewrite <- app_assoc|].
      intros k Hin. unfold JsObject.keys in Hin. rewrite map_app in Hin.
      apply in_app_or in Hin. destruct Hin as [Hin | [<- | []]].
      * destruct (Hkeys k Hin) as (j & Hj & ->). exists j. split; [lia | reflexivity].
      * exists i. split; [lia | reflexivity].
    + reflexivity.
    + intro Hin. destruct (Hkeys _ Hin) as (j & Hj & E).
      injection E as E. apply toString_injective in E. lia.
Qed.

Lemma recombine_chat_keyed (translations : list value) :
  forall (done todo : list Chat.message),
    length translations = length todo ->
    Engine.recombine (done ++ todo) (chat_keyed translations (length done))
    = Ok (map (fun mv => {| Chat.name' := Chat.name (fst mv); Chat.text' := snd mv |})
              (combine todo translations)).
Proof.
  induction translations as [|t rest IH]; intros done todo Hlen.
  - destruct todo; [reflexivity | discriminate].
  - destruct todo as [|m todo]; [discriminate|].
    cbn [indexed map fst snd Engine.recombine].
    rewrite chat_index_well_formed, index_of_nat.
    rewrite nth_error_app2 by lia. rewrite Nat.sub_diag. cbn [nth_error].
    replace (done ++ m :: todo) with ((done ++ [m]) ++ todo)
      by (rewrite <- app_assoc; reflexivity).
    replace (S (length done)) with (length (done ++ [m]))
      by (rewrite length_app; simpl; lia).
    rewrite IH by (simpl in Hlen; lia). reflexivity.
Qed.

(** X14: when the provider answers the request of [localizeChat] with a
    success response whose [data] holds, in order, one entry
    [chat_<i>] per message of the transcript, [localizeChat] returns one
    message per message of the transcript, in order: the speaker name of
    the message and the value the provider gave under its key. *)
Theorem localizeChat_names_preserved (chat : list Chat.message)
    (params : localizationParams) (w : world) (id : string) (e1 e2 : Env)
    (res : response) (o : object) (translations : list value) :
  signal_aborted (env w) = false ->
  valid_params localeCodeSchema params = true ->
  createId (env w) = (id, e1) ->
  signal_aborted e1 = false ->
  fetch (chunk_request cfg (sourceLocale params) (targetLocale params)
           [("chat", chat_value chat)] (reference params) id
           (match fast params with Some b => b | None => false end)) e1
  = (Ok res, e2) ->
  ok res = true ->
  json res = Ok (VObj o) ->
  JsObject.get "data" o
  = Some (VObj (map (fun kv => (("chat_" ++ fst kv)%string, snd kv))
                    (indexed (fun x => x) translations 0))) ->
  length translations = length chat ->
  callback_returns progressCallback ->
  fst (localizeChat chat params w)
  = Ok (map (fun mv => {| Chat.name' := Chat.name (fst mv); Chat.text' := snd mv |})
            (combine chat translations)).
Proof.
  intros Hsig Hvalid Hid Hsig1 Hfetch Hok Hjson Hdata Hlen Hcb.
  destruct (_localizeRaw_one_entry "chat" (chat_value chat) params w id e1 e2 res o _
              ltac:(discriminate) Hsig Hvalid Hid Hsig1 Hfetch Hok Hjson Hdata Hcb)
    as (w' & Hraw).
  unfold Engine.localizeChat, bind. rewrite Hraw. unfold lift. simpl fst.
  transitivity (Engine.recombine chat (chat_keyed translations 0));
    [|exact (recombine_chat_keyed translations [] chat Hlen)].
  apply f_equal.
  exact (assign_chat_keyed translations 0 [] (fun k (H : In k []) => match H with end)).
Qed.

End OneEntry.

Section OneEntryInstances.

Import Example.

(** X12 at the text "Hello" and a provider that answers 500. *)
Lemma localizeText_request_witness :
  sent (snd (Engine.localizeText signal_aborted (respond server_error) createId None
               localeCodeSchema ZodError config25 "Hello" params start))
  = [chunk_request config25 (Some "en") "es" [("text", VStr "Hello")] None
       "workflow-1" false].
Proof.
  exact (localizeText_request Env signal_aborted (respond server_error) createId None
           localeCodeSchema ZodError config25 "Hello" params start "workflow-1" false
           eq_refl eq_refl eq_refl eq_refl).
Defined.

(** X13 at a provider that answers [{data: {text: "Hola"}}], and at one
    that answers [{data: {}}]. *)
Lemma localizeText_result_witness :
  fst (Engine.localizeText signal_aborted (respond translated) createId None
         localeCodeSchema ZodError config25 "Hello" params start)
  = Ok (VStr "Hola")
  /\ fst (Engine.localizeText signal_aborted
            (respond empty_data) createId None
            localeCodeSchema ZodError config25 "Hello" params start)
     = Ok (VStr "").
Proof.
  split.
  - apply (localizeText_result Env signal_aborted (respond translated) createId None
             localeCodeSchema ZodError config25 "Hello" params start "workflow-1"
             false false translated [("data", VObj [("text", VStr "Hola")])]
             [("text", VStr "Hola")]); try reflexivity.
    + repeat constructor. simpl. tauto.
    + simpl. intuition discriminate.
    + intros callback H. discriminate.
  - apply (localizeText_result Env signal_aborted (respond empty_data) createId None
             localeCodeSchema ZodError config25 "Hello" params start "workflow-1"
             false false empty_data [("data", VObj [])] []); try reflexivity.
    + constructor.
    + simpl. tauto.
    + intros callback H. discriminate.
Defined.

(** X14 at the transcript of Alice and Bob. *)
Lemma localizeChat_names_preserved_witness :
  fst (Engine.localizeChat signal_aborted
         (respond chat_answer) createId None localeCodeSchema ZodError config25
         chatA params start)
  = Ok [{| Chat.name' := "Alice"; Chat.text' := VStr "Hola" |};
        {| Chat.name' := "Bob"; Chat.text' := VStr "Adios" |}].
Proof.
  apply (localizeChat_names_preserved Env signal_aborted (respond chat_answer) createId
           None localeCodeSchema ZodError config25 chatA params start "workflow-1"
           false false chat_answer [("data", VObj [("chat_0", VStr "Hola");
                                         ("chat_1", VStr "Adios")])]
           [VStr "Hola"; VStr "Adios"]); try reflexivity.
  intros callback H. discriminate.
Defined.

End OneEntryInstances.

(* ================================================================== *)
(** ** [recognizeLocale] *)

Section RecognitionFacts.

Variable Env : Type.
Variable signal_aborted : Env -> bool.
Variable fetch : Recognition.request -> Env -> result response * Env.
Variable cfg : config.

Local Abbreviation recognizeLocale :=
  (Recognition.recognizeLocale signal_aborted fetch cfg).

Lemma status_text_mentions_aborted (statusText : string) :
  is_abort_error (Error ("Error recognizing locale: " ++ statusText))
  = JsString.includes statusText "aborted".
Proof. unfold is_abort_error. simpl. reflexivity. Qed.

(** X15: the outcomes of [recognizeLocale].  Aborted on entry, it fails
    with "Locale recognition was aborted" and the world is untouched.
    Otherwise: a rejection of [fetch] is what the call fails with,
    unless it is abort-like; every non-success status, 400 included,
    fails with "Error recognizing locale: <status text>" without the
    body being read, or with the cancellation failure when the status
    text contains "aborted"; a success response with a JSON object
    returns its [locale] entry as it is, present or not. *)
Theorem recognizeLocale_outcomes (text : string) (e : Env) :
  (signal_aborted e = true ->
     recognizeLocale text e = (Throw (Error Recognition.aborted_message), e))
  /\ (signal_aborted e = false ->
      forall failure e1,
        fetch (Recognition.recognize_request cfg text) e = (Throw failure, e1) ->
        recognizeLocale text e
        = (Throw (if is_abort_error failure
                  then Error Recognition.aborted_message else failure), e1))
  /\ (signal_aborted e = false ->
      forall res e1,
        fetch (Recognition.recognize_request cfg text) e = (Ok res, e1) ->
        (ok res = false ->
           recognizeLocale text e
           = (Throw (if JsString.includes (statusText res) "aborted"
                     then Error Recognition.aborted_message
                     else Error ("Error recognizing locale: " ++ statusText res)), e1))
        /\ (ok res = true ->
            forall o, json res = Ok (VObj o) ->
                      recognizeLocale text e = (Ok (JsObject.get "locale" o), e1))).
Proof.
  split; [|split].
  - intro Hsig. unfold Recognition.recognizeLocale. rewrite Hsig. reflexivity.
  - intros Hsig failure e1 Hfetch.
    unfold Recognition.recognizeLocale, Recognition.recognizeLocale_try.
    rewrite Hsig, Hfetch. destruct (is_abort_error failure); reflexivity.
  - intros Hsig res e1 Hfetch.
    unfold Recognition.recognizeLocale, Recognition.recognizeLocale_try.
    rewrite Hsig, Hfetch. split.
    + intro Hok. rewrite Hok. cbn [negb]. rewrite status_text_mentions_aborted.
      destruct (JsString.includes (statusText res) "aborted"); reflexivity.
    + intros Hok o Hjson. rewrite Hok, Hjson. reflexivity.
Qed.

End RecognitionFacts.

Section RecognitionInstances.

Import Example.

(** X15 at a provider that answers 400, and at one that answers
    [{locale: "es"}]. *)
Lemma recognizeLocale_outcomes_witness :
  Recognition.recognizeLocale signal_aborted (fun _ e => (Ok bad_request, e)) config25
                              "Hola" false
  = (Throw (Error "Error recognizing locale: Bad Request"), false)
  /\ Recognition.recognizeLocale signal_aborted
       (fun _ e => (Ok {| status := 200; statusText := "OK"; text := Ok "";
                          json := Ok (VObj [("locale", VStr "es")]) |}, e))
       config25 "Hola" false
     = (Ok (Some (VStr "es")), false)
  /\ Recognition.recognizeLocale signal_aborted (fun _ e => (Ok bad_request, e)) config25
                                 "Hola" true
     = (Throw (Error "Locale recognition was aborted"), true).
Proof.
  destruct (recognizeLocale_outcomes Env signal_aborted (fun _ e => (Ok bad_request, e))
              config25 "Hola" false) as (_ & _ & Hres).
  destruct (Hres eq_refl bad_request false eq_refl) as [Hfail _].
  split; [exact (Hfail eq_refl)|]. split; reflexivity.
Defined.

End RecognitionInstances.

(* ================================================================== *)
(** ** Keys of the extracted map and the nodes they resolve to *)

Lemma applyEntry_resolve (valid_attribute_name : string -> bool)
    (in_html_namespace : ref -> bool) (root : node)
    (path : string) (v : value) (current : ref) :
  resolve root path = Some current ->
  applyEntry valid_attribute_name in_html_namespace root path v
  = match attribute_of path with
    | Some a =>
        if JsString.truthy a
        then call_setAttribute valid_attribute_name in_html_namespace root current a v
        else assign_textContent root current v
    | None => assign_textContent root current v
    end.
Proof.
  unfold resolve, applyEntry, attribute_of.
  destruct (if String.eqb _ "head" then Dom.head root else Dom.body root) as [top|];
    [|discriminate].
  intros ->. reflexivity.
Qed.

Lemma applyEntry_unresolved (valid_attribute_name : string -> bool)
    (in_html_namespace : ref -> bool) (root : node)
    (path : string) (v : value) :
  (if String.eqb (hd "" (JsString.split "/" (hd "" (JsString.split "#" path)))) "head"
   then Dom.head root else Dom.body root) <> None ->
  resolve root path = None ->
  applyEntry valid_attribute_name in_html_namespace root path v = Ok root.
Proof.
  unfold resolve, applyEntry.
  destruct (if String.eqb _ "head" then Dom.head root else Dom.body root) as [top|];
    [|contradiction].
  intros _ ->. reflexivity.
Qed.

Section Resolution.

Variables (t0 : string) (attrs0 attrs0' : list (string * string)) (cs0 : list node).

Local Abbreviation root := (Element t0 attrs0 cs0).
Local Abbreviation root' := (Element t0 attrs0' cs0).

Variable top : ref.
Hypothesis top_is_head_or_body : Dom.head root = Some top \/ Dom.body root = Some top.

(** The key [getPath] makes for a node below the head or the body
    resolves to that node, in the document and in the document with
    other attributes on its root. *)
Lemma resolve_getPath (r : ref) (attribute : option string) :
  kept_path root top r -> r <> top -> key_attribute attribute ->
  resolve root' (Dom.getPath root r attribute) = Some r
  /\ attribute_of (Dom.getPath root r attribute) = attribute.
Proof.
  intros Hpath Hne Hattr.
  destruct (top_facts t0 attrs0 attrs0' cs0 top top_is_head_or_body)
    as (h & -> & Helem & Hslash & Hhash & Htruthy & Hsel).
  destruct (getPath_descend root root' h eq_refl Helem r Hpath)
    as (indices & Hloop & Hfold & Hidx).
  destruct (kept_path_node root [h] r Hpath) as (n & Hn).
  { destruct Helem as (t & a & cs & ->). discriminate. }
  specialize (Hidx Hne).
  destruct (path_split _ indices Hslash Hhash Hidx) as (Hs1 & Hs2 & Hs3).
  unfold Dom.getPath. rewrite Hloop, app_nil_r. rewrite Htruthy.
  unfold resolve, attribute_of.
  destruct attribute as [a|]; simpl in Hattr.
  - destruct Hattr as [Ha Halacks]. rewrite Ha, (Hs3 a Halacks). cbn [hd nth_error].
    rewrite Hs1. cbn [hd tl]. rewrite Hsel, (Hfold n Hn). split; reflexivity.
  - rewrite Hs2. cbn [hd nth_error]. rewrite Hs1. cbn [hd tl].
    rewrite Hsel, (Hfold n Hn). split; reflexivity.
Qed.

End Resolution.

(* ================================================================== *)
(** ** What an update of one node leaves alone *)

Lemma nth_error_list_update {A} (f : A -> A) (xs : list A) :
  forall i j,
    nth_error (Dom.list_update xs i f) j
    = if i =? j then option_map f (nth_error xs j) else nth_error xs j.
Proof.
  induction xs as [|x xs IH]; intros [|i] [|j]; simpl; try reflexivity.
  - destruct (i =? j); reflexivity.
  - apply IH.
Qed.

Lemma node_at_app (root : node) (l s : ref) :
  Dom.node_at root (l ++ s)
  = match Dom.node_at root s with
    | Some n => Dom.node_at n l
    | None => None
    end.
Proof.
  induction l as [|i l IH]; simpl.
  - destruct (Dom.node_at root s); reflexivity.
  - rewrite IH. destruct (Dom.node_at root s); reflexivity.
Qed.

Lemma node_at_update_at_here (r : ref) :
  forall (root : node) (f : node -> node),
    Dom.node_at (Dom.update_at root r f) r = option_map f (Dom.node_at root r).
Proof.
  induction r as [|j q IH]; intros root f; [reflexivity|].
  cbn [Dom.update_at Dom.node_at]. rewrite IH.
  destruct (Dom.node_at root q) as [[t a cs | d | d]|]; simpl; try reflexivity.
  - rewrite nth_error_list_update, Nat.eqb_refl. reflexivity.
  - destruct j; reflexivity.
  - destruct j; reflexivity.
Qed.

(** The node at an ancestor of the updated position is the old node,
    updated at the relative position. *)
Lemma node_at_update_at_ancestor (l : ref) :
  forall (root : node) (r' : ref) (f : node -> node),
    Dom.node_at (Dom.update_at root (l ++ r') f) r'
    = option_map (fun n => Dom.update_at n l f) (Dom.node_at root r').
Proof.
  induction l as [|i l IH]; intros root r' f.
  - apply node_at_update_at_here.
  - cbn [app Dom.update_at]. rewrite IH. reflexivity.
Qed.

Lemma paths_trichotomy (a b : list nat) :
  (exists l, b = a ++ l) \/ (exists l, a = b ++ l)
  \/ exists c x y a' b', a = c ++ x :: a' /\ b = c ++ y :: b' /\ x <> y.
Proof.
  revert b. induction a as [|x a IH]; intro b.
  - left. exists b. reflexivity.
  - destruct b as [|y b].
    + right. left. exists (x :: a). reflexivity.
    + destruct (Nat.eq_dec x y) as [->|Hne].
      * destruct (IH b) as [(l & ->) | [(l & ->) | (c & x' & y' & a' & b' & -> & -> & Hne)]].
        -- left. exists l. reflexivity.
        -- right. left. exists l. reflexivity.
        -- right. right. exists (y :: c), x', y', a', b'. auto.
      * right. right. exists [], x, y, a, b. auto.
Qed.

(** Two positions of which none is an ancestor of the other part below a
    common ancestor. *)
Lemma refs_diverge (r r' : ref) :
  (forall l, r' <> l ++ r) -> (forall l, r <> l ++ r') ->
  exists c l1 l2 i j, r = l1 ++ i :: c /\ r' = l2 ++ j :: c /\ i <> j.
Proof.
  intros H1 H2.
  destruct (paths_trichotomy (rev r) (rev r'))
    as [(l & E) | [(l & E) | (c & x & y & a' & b' & Ea & Eb & Hne)]].
  - exfalso. apply (H1 (rev l)). apply (f_equal (@rev nat)) in E.
    rewrite rev_app_distr, !rev_involutive in E. exact E.
  - exfalso. apply (H2 (rev l)). apply (f_equal (@rev nat)) in E.
    rewrite rev_app_distr, !rev_involutive in E. exact E.
  - exists (rev c), (rev a'), (rev b'), x, y.
    apply (f_equal (@rev nat)) in Ea, Eb.
    rewrite rev_app_distr, rev_involutive in Ea, Eb. simpl in Ea, Eb.
    rewrite <- app_assoc in Ea, Eb. auto.
Qed.

Lemma update_at_snoc (l : ref) :
  forall (n : node) (i : nat) (f : node -> node),
    exists g, Dom.update_at n (l ++ [i]) f
              = match n with
                | Element t a cs => Element t a (Dom.list_update cs i g)
                | _ => n
                end.
Proof.
  induction l as [|k l IH]; intros n i f.
  - exists f. reflexivity.
  - cbn [app Dom.update_at]. apply IH.
Qed.

(** An update leaves the node at every position alone that lies on
    another branch. *)
Lemma node_at_update_at_apart (root : node) (c l1 l2 : ref) (i j : nat)
    (f : node -> node) :
  i <> j ->
  Dom.node_at (Dom.update_at root (l1 ++ i :: c) f) (l2 ++ j :: c)
  = Dom.node_at root (l2 ++ j :: c).
Proof.
  intro Hne. rewrite !node_at_app. f_equal.
  cbn [Dom.node_at].
  replace (l1 ++ i :: c) with ((l1 ++ [i]) ++ c) by (rewrite <- app_assoc; reflexivity).
  rewrite node_at_update_at_ancestor.
  destruct (Dom.node_at root c) as [n|]; [|reflexivity]. simpl.
  destruct (update_at_snoc l1 n i f) as (g & ->).
  destruct n as [t a cs | d | d]; [|reflexivity|reflexivity]. simpl.
  rewrite nth_error_list_update. apply Nat.eqb_neq in Hne. rewrite Hne. reflexivity.
Qed.

Lemma node_at_below_leaf (n : node) (l : ref) :
  Dom.children n = [] -> l <> [] -> Dom.node_at n l = None.
Proof.
  intros Hleaf. induction l as [|i l IH]; intro Hne; [contradiction|].
  simpl. destruct l as [|k l].
  - simpl. rewrite Hleaf. destruct i; reflexivity.
  - rewrite IH by discriminate. reflexivity.
Qed.

(** Two different positions that both hold a node without children lie
    on different branches. *)
Lemma leaves_apart (root : node) (r r' : ref) (n n' : node) :
  Dom.node_at root r = Some n -> Dom.children n = [] ->
  Dom.node_at root r' = Some n' -> Dom.children n' = [] ->
  r' <> r ->
  exists c l1 l2 i j, r = l1 ++ i :: c /\ r' = l2 ++ j :: c /\ i <> j.
Proof.
  intros Hn Hleaf Hn' Hleaf' Hne. apply refs_diverge.
  - intros l ->. rewrite node_at_app, Hn in Hn'.
    destruct l as [|k l]; [now apply Hne|].
    rewrite (node_at_below_leaf n (k :: l) Hleaf) in Hn' by discriminate. discriminate.
  - intros l ->. rewrite node_at_app, Hn' in Hn.
    destruct l as [|k l]; [now apply Hne|].
    rewrite (node_at_below_leaf n' (k :: l) Hleaf') in Hn by discriminate. discriminate.
Qed.

Section RoundTrip.

Variable valid_attribute_name : string -> bool.
Variable in_html_namespace : ref -> bool.
Variables (t0 : string) (attrs0 attrs0' : list (string * string)) (cs0 : list node).

Local Abbreviation root := (Element t0 attrs0 cs0).
Local Abbreviation root' := (Element t0 attrs0' cs0).

Variable top : ref.
Hypothesis top_is_head_or_body : Dom.head root = Some top \/ Dom.body root = Some top.

Lemma kept_below_root (r : ref) : kept_path root top r -> r <> [].
Proof.
  intros Hp E. apply kept_path_length in Hp. subst r.
  destruct (top_facts t0 attrs0 attrs0' cs0 top top_is_head_or_body) as (h & -> & _).
  simpl in Hp. lia.
Qed.

(** X16: the key that [getPath] makes for a text node below the head or
    the body leads the re-application back to that node, whatever value
    the key is given and whatever attributes the root has by then.  When
    the value converts to a string ([null] counting as the empty
    string), the entry is applied, the node holds that string as its
    text, and every other text node of the document is as it was.  When
    the conversion throws, the entry throws that [TypeError]. *)
Theorem applyEntry_text_round_trip (r : ref) (d : string) (v : value) :
  kept_path root top r -> r <> top ->
  Dom.node_at root r = Some (Text d) ->
  match content_text v with
  | Ok text =>
      exists result,
        applyEntry valid_attribute_name in_html_namespace root' (Dom.getPath root r None) v
        = Ok result
        /\ Dom.node_at result r = Some (Text text)
        /\ forall r' d', r' <> r ->
                         Dom.node_at root' r' = Some (Text d') ->
                         Dom.node_at result r' = Some (Text d')
  | Throw _ =>
      applyEntry valid_attribute_name in_html_namespace root' (Dom.getPath root r None) v
      = Throw cannot_convert
  end.
Proof.
  intros Hpath Hne Hn.
  destruct (resolve_getPath t0 attrs0 attrs0' cs0 top top_is_head_or_body r None
              Hpath Hne I) as [Hres Hattr].
  assert (Hn' : Dom.node_at root' r = Some (Text d)).
  { rewrite <- Hn. apply node_at_same_children; [reflexivity|].
    exact (kept_below_root r Hpath). }
  rewrite (applyEntry_resolve _ _ _ _ _ _ Hres), Hattr. unfold assign_textContent.
  destruct (content_text v) as [text|e] eqn:E.
  - exists (Dom.update_at root' r (set_textContent text)).
    split; [reflexivity|]. split.
    + rewrite node_at_update_at_here, Hn'. reflexivity.
    + intros r' d' Hne' Hd'.
      destruct (leaves_apart root' r r' _ _ Hn' eq_refl Hd' eq_refl Hne')
        as (c & l1 & l2 & i & j & -> & -> & Hij).
      rewrite node_at_update_at_apart by exact Hij. exact Hd'.
  - f_equal. destruct v; try discriminate; exact (to_string_Throw _ _ E).
Qed.

(** X17: the key that [getPath] makes for an attribute of an element
    below the head or the body leads the re-application back to that
    element, whatever value the key is given.  The value is converted
    first: when the conversion throws, the entry throws that
    [TypeError].  Otherwise a name that jsdom does not accept makes the
    entry throw an [InvalidCharacterError]; for a name it accepts the
    entry is applied, the element has the string for the attribute of
    that name (in ASCII lower case when the element is an HTML element,
    as it is otherwise), its tag and children are as before, and every
    text node of the document is as it was. *)
Theorem applyEntry_attribute_round_trip (r : ref) (t : string)
    (attrs : list (string * string)) (cs : list node) (a : string) (v : value) :
  kept_path root top r -> r <> top ->
  Dom.node_at root r = Some (Element t attrs cs) ->
  JsString.truthy a = true -> JsString.lacks "#" a = true ->
  let run :=
    applyEntry valid_attribute_name in_html_namespace root' (Dom.getPath root r (Some a)) v in
  match attribute_text v with
  | Throw _ => run = Throw cannot_convert
  | Ok text =>
      if valid_attribute_name a
      then exists result,
             run = Ok result
             /\ Dom.node_at result r
                = Some (Element t
                          (Dom.set_attr (if in_html_namespace r
                                         then JsString.asciiLowercase a else a)
                                        text attrs) cs)
             /\ forall r' d', Dom.node_at root' r' = Some (Text d') ->
                              Dom.node_at result r' = Some (Text d')
      else run = Throw (InvalidCharacterError a)
  end.
Proof.
  intros Hpath Hne Hn Ha Halacks run. subst run.
  destruct (resolve_getPath t0 attrs0 attrs0' cs0 top top_is_head_or_body r (Some a)
              Hpath Hne (conj Ha Halacks)) as [Hres Hattr].
  assert (Hn' : Dom.node_at root' r = Some (Element t attrs cs)).
  { rewrite <- Hn. apply node_at_same_children; [reflexivity|].
    exact (kept_below_root r Hpath). }
  rewrite (applyEntry_resolve _ _ _ _ _ _ Hres), Hattr, Ha.
  unfold call_setAttribute. rewrite Hn'.
  destruct (attribute_text v) as [text|e] eqn:E;
    [|f_equal; exact (to_string_Throw _ _ E)].
  unfold setAttribute. destruct (valid_attribute_name a); [|reflexivity].
  set (n' := Element t (Dom.set_attr (if in_html_namespace r
                                      then JsString.asciiLowercase a else a)
                                     text attrs) cs).
  exists (Dom.update_at root' r (fun _ => n')).
  split; [reflexivity|]. split.
  - rewrite node_at_update_at_here, Hn'. reflexivity.
  - intros r' d' Hd'.
    destruct (paths_trichotomy (rev r) (rev r'))
      as [(l & E') | [(l & E') | (c & x & y & a' & b' & Ea & Eb & Hxy)]].
    + apply (f_equal (@rev nat)) in E'. rewrite rev_app_distr, !rev_involutive in E'.
      subst r'. rewrite node_at_app in Hd' |- *.
      rewrite node_at_update_at_here, Hn'. rewrite Hn' in Hd'. simpl.
      destruct (rev l) as [|k l']; [discriminate|].
      rewrite <- Hd'. apply node_at_same_children; [reflexivity | discriminate].
    + apply (f_equal (@rev nat)) in E'. rewrite rev_app_distr, !rev_involutive in E'.
      subst r. rewrite node_at_app, Hd' in Hn'.
      destruct (rev l) as [|k l']; [discriminate|].
      rewrite (node_at_below_leaf (Text d') (k :: l') eq_refl) in Hn' by discriminate.
      discriminate.
    + apply (f_equal (@rev nat)) in Ea, Eb.
      rewrite rev_app_distr, rev_involutive in Ea, Eb. simpl in Ea, Eb.
      rewrite <- app_assoc in Ea, Eb. simpl in Ea, Eb. subst r r'.
      rewrite node_at_update_at_apart by exact Hxy. exact Hd'.
Qed.

(** X18: two nodes below the head or the body never share a key, nor do
    a text node and an attribute, nor two attributes of one element: the
    key [getPath] makes determines the node and the attribute name. *)
Theorem getPath_injective (top' : ref) (r1 r2 : ref) (a1 a2 : option string) :
  Dom.head root = Some top' \/ Dom.body root = Some top' ->
  kept_path root top r1 -> r1 <> top ->
  kept_path root top' r2 -> r2 <> top' ->
  key_attribute a1 -> key_attribute a2 ->
  Dom.getPath root r1 a1 = Dom.getPath root r2 a2 ->
  r1 = r2 /\ a1 = a2.
Proof.
  intros Htop' Hp1 Hne1 Hp2 Hne2 Ha1 Ha2 E.
  destruct (resolve_getPath t0 attrs0 attrs0 cs0 top top_is_head_or_body r1 a1
              Hp1 Hne1 Ha1) as [Hr1 Hk1].
  destruct (resolve_getPath t0 attrs0 attrs0 cs0 top' Htop' r2 a2 Hp2 Hne2 Ha2)
    as [Hr2 Hk2].
  rewrite E in Hr1, Hk1. rewrite Hr1 in Hr2. rewrite Hk1 in Hk2.
  injection Hr2 as ->. auto.
Qed.

End RoundTrip.

Section RoundTripInstances.

Import Example.

Ltac kept :=
  first [apply kept_top | eapply kept_child; [kept | reflexivity | reflexivity]].

(** X16 at the paragraph text of [plain_document], after the [lang]
    attribute was set: for a string, and for an object with an own
    [toString] property. *)
Lemma applyEntry_text_round_trip_witness :
  (exists result,
     applyEntry any_name html_document (with_lang "es" plain_document) "body/0/0/0"
                (VStr "Guardar")
     = Ok result
     /\ Dom.node_at result [0; 0; 0; 1] = Some (Text "Guardar")
     /\ Dom.node_at result [0; 0; 0] = Some (Text "Hi"))
  /\ applyEntry any_name html_document (with_lang "es" plain_document) "body/0/0/0"
                (VObj [("toString", VNum "1")])
     = Throw cannot_convert.
Proof.
  split.
  - destruct (applyEntry_text_round_trip any_name html_document "HTML" [("lang", "en")]
                [("lang", "es")] (Dom.children plain_document) [1] (or_intror eq_refl)
                [0; 0; 0; 1] "Keep" (VStr "Guardar"))
      as (result & Happly & Hhere & Hothers).
    + kept.
    + discriminate.
    + reflexivity.
    + exists result. split; [exact Happly|]. split; [exact Hhere|].
      apply Hothers; [discriminate | reflexivity].
  - apply (applyEntry_text_round_trip any_name html_document "HTML" [("lang", "en")]
             [("lang", "es")] (Dom.children plain_document) [1] (or_intror eq_refl)
             [0; 0; 0; 1] "Keep" (VObj [("toString", VNum "1")]));
      [kept | discriminate | reflexivity].
Defined.

(** X17 at the image of [plain_document], an HTML element: the name
    [ALT] sets the attribute [alt]; an object with an own [toString]
    property makes the entry throw. *)
Lemma applyEntry_attribute_round_trip_witness :
  (exists result,
     applyEntry any_name html_document (with_lang "es" plain_document) "body/1#ALT"
                (VStr "Un gato")
     = Ok result
     /\ Dom.node_at result [1; 1] = Some (Element "IMG" [("alt", "Un gato")] [])
     /\ Dom.node_at result [0; 0; 0; 1] = Some (Text "Keep"))
  /\ applyEntry any_name html_document (with_lang "es" plain_document) "body/1#alt"
                (VObj [("toString", VNum "1")])
     = Throw cannot_convert.
Proof.
  split.
  - destruct (applyEntry_attribute_round_trip any_name html_document "HTML"
                [("lang", "en")] [("lang", "es")] (Dom.children plain_document) [1]
                (or_intror eq_refl) [1; 1] "IMG" [("alt", "A cat")] [] "ALT"
                (VStr "Un gato"))
      as (result & Happly & Hhere & Htexts).
    + kept.
    + discriminate.
    + reflexivity.
    + reflexivity.
    + reflexivity.
    + exists result. split; [exact Happly|]. split; [exact Hhere|].
      apply Htexts. reflexivity.
  - apply (applyEntry_attribute_round_trip any_name html_document "HTML"
             [("lang", "en")] [("lang", "es")] (Dom.children plain_document) [1]
             (or_intror eq_refl) [1; 1] "IMG" [("alt", "A cat")] [] "alt"
             (VObj [("toString", VNum "1")]));
      [kept | discriminate | reflexivity | reflexivity | reflexivity].
Defined.

(** X18 at the paragraph of [plain_document], whose key differs from the
    key of the title. *)
Lemma getPath_injective_witness :
  Dom.getPath plain_document [0; 0; 0] None = "head/0/0"
  /\ Dom.getPath plain_document [0; 0; 0; 1] None = "body/0/0/0"
  /\ ([0; 0; 0; 1] = [0; 0; 0; 1] /\ @None string = None).
Proof.
  split; [reflexivity|]. split; [reflexivity|].
  apply (getPath_injective "HTML" [("lang", "en")] (Dom.children plain_document)
           [1] (or_intror eq_refl) [1] [0; 0; 0; 1] [0; 0; 0; 1] None None
           (or_intror eq_refl)); try exact I; try discriminate; try reflexivity; kept.
Defined.

End RoundTripInstances.

(* ================================================================== *)
(** ** What the re-application never touches *)

Section RootShape.

Variable valid_attribute_name : string -> bool.
Variable in_html_namespace : ref -> bool.

Lemma update_at_keeps_root (r : ref) :
  forall (f : node -> node) (root : node),
    (forall n, same_root n (f n)) -> same_root root (Dom.update_at root r f).
Proof.
  induction r as [|i parent IH]; intros f root Hf; [apply Hf|].
  cbn [Dom.update_at]. apply IH.
  intros [t a cs | d | d]; simpl; eauto.
Qed.

Lemma update_at_below_keeps_root (r : ref) (f : node -> node) (root : node) :
  r <> [] -> same_root root (Dom.update_at root r f).
Proof.
  destruct r as [|i parent]; [contradiction|]. intros _.
  cbn [Dom.update_at]. apply update_at_keeps_root.
  intros [t a cs | d | d]; simpl; eauto.
Qed.

Lemma descend_below_root (root : node) (indices : list string) :
  forall parent current,
    parent <> [] -> (forall c, current = Some c -> c <> []) ->
    forall c, snd (fold_left (descend root) indices (parent, current)) = Some c ->
              c <> [].
Proof.
  induction indices as [|index rest IH]; intros parent current Hp Hc c;
    cbn [fold_left].
  - apply Hc.
  - destruct (descend root (parent, current) index) as [parent' current'] eqn:Hd.
    unfold descend in Hd.
    destruct (JsNumber.index _ _) as [[i n]|].
    + destruct (Dom.nodeType n =? 1); injection Hd as <- <-;
        apply IH; try discriminate; try exact Hp;
        intros c' E; injection E as <-; discriminate.
    + injection Hd as <- <-. apply IH; [exact Hp | discriminate].
Qed.

Lemma resolve_below_root (root : node) (path : string) (current : ref) :
  resolve root path = Some current -> current <> [].
Proof.
  unfold resolve.
  destruct (if String.eqb _ "head" then Dom.head root else Dom.body root) as [top|] eqn:Htop;
    [|discriminate].
  assert (Hne : top <> []).
  { destruct (String.eqb _ "head");
      [destruct (top_element root ["head"] top Htop) as (h & _ & _ & _ & -> & _)
      |destruct (top_element root ["body"; "frameset"] top Htop) as (h & _ & _ & _ & -> & _)];
      discriminate. }
  apply descend_below_root; [exact Hne|].
  intros c E. injection E as <-. exact Hne.
Qed.

Lemma applyEntry_keeps_root (root root' : node) (path : string) (v : value) :
  applyEntry valid_attribute_name in_html_namespace root path v = Ok root' -> same_root root root'.
Proof.
  assert (Hrefl : same_root root root) by (destruct root; simpl; eauto).
  destruct (resolve root path) as [current|] eqn:Hres.
  - rewrite (applyEntry_resolve _ _ _ _ _ _ Hres).
    pose proof (resolve_below_root _ _ _ Hres) as Hne.
    assert (Htext : assign_textContent root current v = Ok root' -> same_root root root').
    { unfold assign_textContent. destruct (content_text v); [|discriminate].
      intro E. injection E as <-. now apply update_at_below_keeps_root. }
    destruct (attribute_of path) as [a|]; [|exact Htext].
    destruct (JsString.truthy a); [|exact Htext].
    unfold call_setAttribute.
    destruct (Dom.node_at root current) as [[t attrs cs | d | d]|]; try discriminate.
    + destruct (attribute_text v); [|discriminate].
      destruct (setAttribute _ _ _ _ _); [|discriminate].
      intro E. injection E as <-. now apply update_at_below_keeps_root.
    + intro E. injection E as <-. exact Hrefl.
  - unfold resolve in Hres. unfold applyEntry.
    destruct (if String.eqb _ "head" then Dom.head root else Dom.body root) as [top|].
    + rewrite Hres. intro E. injection E as <-. exact Hrefl.
    + destruct (tl _); [|discriminate]. intro E. injection E as <-. exact Hrefl.
Qed.

Lemma applyEntries_keeps_root (entries : list (string * value)) :
  forall root root',
    applyEntries valid_attribute_name in_html_namespace root entries = Ok root' -> same_root root root'.
Proof.
  induction entries as [|[path v] rest IH]; intros root root' H; simpl in H.
  - injection H as <-. destruct root; simpl; eauto.
  - destruct (applyEntry valid_attribute_name in_html_namespace root path v) as [root1|] eqn:H1;
      [|discriminate].
    pose proof (applyEntry_keeps_root _ _ _ _ H1) as Hs1.
    pose proof (IH _ _ H) as Hs2.
    destruct root as [t a cs | d | d]; simpl in *.
    + destruct Hs1 as (cs1 & ->). exact Hs2.
    + subst root1. exact Hs2.
    + subst root1. exact Hs2.
Qed.

Variable Env : Type.
Variable signal_aborted : Env -> bool.
Variable fetch : request -> Env -> result response * Env.
Variable createId : Env -> string * Env.
Variable progressCallback : option (progress -> Env -> result unit * Env).
Variable localeCodeSchema : string -> bool.
Variable ZodError : localizationParams -> error.
Variable cfg : config.

Local Abbreviation localizeHtml :=
  (Engine.localizeHtml signal_aborted fetch createId progressCallback localeCodeSchema
                       ZodError valid_attribute_name in_html_namespace cfg).

(** X19: whatever the provider answers, a document that [localizeHtml]
    returns has the root element of the input with its tag, its [lang]
    attribute set to the target locale and its other attributes as they
    were: no translated entry reaches the root element. *)
Theorem localizeHtml_root_element (document document' : node)
    (params : localizationParams) (w w' : Engine.world Env) :
  localizeHtml document params w = (Ok document', w') ->
  exists t attrs cs cs',
    document = Element t attrs cs
    /\ document' = Element t (Dom.set_attr "lang" (targetLocale params) attrs) cs'.
Proof.
  unfold Engine.localizeHtml, bind, aborted.
  destruct (signal_aborted (env w)); [discriminate|].
  unfold try_catch, bind, lift.
  destruct (extractContent document) as [extracted|e].
  2:{ unfold normalize_abort. destruct (is_abort_error e); discriminate. }
  destruct (Engine._localizeRaw _ _ _ _ _ _ _ _ _ w) as [[localized|e] w1].
  2:{ unfold normalize_abort. destruct (is_abort_error e); discriminate. }
  destruct (setAttribute valid_attribute_name (in_html_namespace []) "lang"
                         (targetLocale params) document)
    as [root'|e] eqn:Hset.
  2:{ unfold normalize_abort. destruct (is_abort_error e); discriminate. }
  destruct (applyEntries _ _ root' _) as [result|e] eqn:Happly.
  2:{ unfold normalize_abort. destruct (is_abort_error e); discriminate. }
  intro E. injection E as <- _.
  unfold setAttribute in Hset.
  destruct document as [t attrs cs | d | d]; try discriminate.
  destruct (valid_attribute_name "lang"); [|discriminate].
  replace (if in_html_namespace [] then JsString.asciiLowercase "lang" else "lang")
    with "lang" in Hset by (now destruct (in_html_namespace [])).
  injection Hset as <-.
  destruct (applyEntries_keeps_root _ _ _ Happly) as (cs' & ->).
  exists t, attrs, cs, cs'. split; reflexivity.
Qed.

(** X20: a document in which the walk finds nothing to translate makes
    no request: with the signal not aborted, valid parameters and the
    name [lang] accepted, [localizeHtml] draws a workflow id and returns
    the document with its [lang] attribute set to the target locale. *)
Theorem localizeHtml_nothing_to_translate (document : node)
    (params : localizationParams) (w : Engine.world Env) :
  signal_aborted (env w) = false ->
  valid_params localeCodeSchema params = true ->
  valid_attribute_name "lang" = true ->
  extractContent document = Ok [] ->
  localizeHtml document params w
  = (Ok (with_lang (targetLocale params) document),
     {| env := snd (createId (env w)); sent := sent w |}).
Proof.
  intros Hsig Hvalid Hlang Hex.
  unfold Engine.localizeHtml, bind, aborted. rewrite Hsig.
  unfold try_catch, bind, lift. rewrite Hex.
  unfold Engine._localizeRaw, bind, aborted. rewrite Hsig, Hvalid. simpl.
  unfold Engine.call_createId. destruct (createId (env w)) as [id e1]. simpl.
  destruct document as [t attrs cs | d | d]; try discriminate.
  unfold setAttribute. rewrite Hlang. now destruct (in_html_namespace []).
Qed.

End RootShape.

Section Skipped.

Variable valid_attribute_name : string -> bool.
Variable in_html_namespace : ref -> bool.

(** X21: an entry whose last index finds no node is skipped.  Let the
    node part of the key be [<tag>/<indices>/<last>], let the head or
    body named by the tag exist, and let [parent] be the element the
    indices before the last lead to; if [last] is no position among the
    kept children of [parent] (it is past the end, negative, or not a
    number), [applyEntry] returns the document as it is and throws
    nothing. *)
Theorem applyEntry_last_index_skipped (root : node) (path : string) (v : value)
    (rootTag last : string) (indices : list string) (top : ref) :
  JsString.split "/" (hd "" (JsString.split "#" path)) = rootTag :: indices ++ [last] ->
  (if String.eqb rootTag "head" then Dom.head root else Dom.body root) = Some top ->
  JsNumber.index
    (match Dom.node_at root (fst (fold_left (descend root) indices (top, Some top))) with
     | Some parent => Dom.filtered parent
     | None => []
     end)
    (JsNumber.parseInt last) = None ->
  applyEntry valid_attribute_name in_html_namespace root path v = Ok root.
Proof.
  intros Hsplit Htop Hlast.
  apply applyEntry_unresolved.
  - rewrite Hsplit. cbn [hd]. rewrite Htop. discriminate.
  - unfold resolve. rewrite Hsplit. cbn [hd tl]. rewrite Htop.
    rewrite fold_left_app. cbn [fold_left].
    destruct (fold_left (descend root) indices (top, Some top)) as [parent current].
    unfold descend. cbn [fst] in Hlast. rewrite Hlast. reflexivity.
Qed.

End Skipped.

Section EntriesResolve.

(** X22: every entry of the extracted map has a non-empty string as its
    value, and its key resolves, in the document with the [lang]
    attribute set, to the node the value was read from: the text node
    whose trimmed text it is, or the element whose attribute value it
    is. *)
Theorem extracted_entries_resolve (document : node) (locale : string)
    (extracted : object) :
  extractContent document = Ok extracted ->
  forall key v,
    In (key, v) extracted ->
    (exists s, v = VStr s /\ JsString.truthy s = true)
    /\ exists r, resolve (with_lang locale document) key = Some r
                 /\ content_of document r key v.
Proof.
  intros Hex key v Hin.
  destruct (extractContent_emitted document extracted Hex)
    as (h & b & Hh & Hb & Hemitted).
  destruct document as [t0 attrs0 cs0 | d | d]; try discriminate.
  assert (Hcase : exists top,
             (Dom.head (Element t0 attrs0 cs0) = Some top
              \/ Dom.body (Element t0 attrs0 cs0) = Some top)
             /\ emitted (Element t0 attrs0 cs0) top key v).
  { destruct (Hemitted key v Hin) as [He | He]; [exists h | exists b]; auto. }
  destruct Hcase as (top & Htop & He).
  destruct He as [r d Hpath Hne Hn Hunder
                 | r t attrs cs names a s Hpath Hne Hn Hunder Hlook Ha Hs Hts].
  - split.
    + exists (JsString.trim d). split; [reflexivity|].
      destruct Hpath as [|r' i c _ Hc Hkeep]; [contradiction|].
      rewrite node_at_child, Hc in Hn. injection Hn as ->. exact Hkeep.
    + exists r. split.
      * exact (proj1 (resolve_getPath t0 attrs0 _ cs0 top Htop r None Hpath Hne I)).
      * left. exists d. auto.
  - split; [exists s; auto|].
    exists r. split.
    + refine (proj1 (resolve_getPath t0 attrs0 _ cs0 top Htop r (Some a) Hpath Hne _)).
      pose proof (listed_attribute_names _ _ _ Hlook Ha) as Hlisted.
      simpl in Hlisted. decompose [or] Hlisted; subst; try (split; reflexivity);
        contradiction.
    + right. exists t, attrs, cs, a, s. auto.
Qed.

End EntriesResolve.

Section ReapplicationInstances.

Import Example.

Let html :=
  Engine.localizeHtml no_signal identity_provider createId None localeCodeSchema
                      ZodError any_name html_document config25.

(** X19 at [plain_document]. *)
Lemma localizeHtml_root_element_witness :
  exists t attrs cs cs',
    plain_document = Element t attrs cs
    /\ fst (html plain_document params quiet)
       = Ok (Element t (Dom.set_attr "lang" "es" attrs) cs').
Proof.
  destruct (html plain_document params quiet) as [r w'] eqn:Hrun.
  assert (Hr : fst (html plain_document params quiet) = Ok (with_lang "es" plain_document))
    by reflexivity.
  rewrite Hrun in Hr. simpl in Hr. subst r.
  destruct (localizeHtml_root_element any_name html_document unit no_signal identity_provider createId
              None localeCodeSchema ZodError config25 plain_document _ params quiet w'
              Hrun) as (t & attrs & cs & cs' & Hd & Hd').
  exists t, attrs, cs, cs'. split; [exact Hd|]. simpl. f_equal. exact Hd'.
Defined.

(** X20 at a document that holds a script and a comment only. *)
Lemma localizeHtml_nothing_to_translate_witness :
  html bare_document params quiet
  = (Ok (Element "HTML" [("lang", "es")]
           [Element "HEAD" [] [];
            Element "BODY" [] [Element "SCRIPT" [] [Text "let x"]; Comment " note "]]),
     quiet).
Proof.
  exact (localizeHtml_nothing_to_translate any_name html_document unit no_signal identity_provider
           createId None localeCodeSchema ZodError config25 bare_document params quiet
           eq_refl eq_refl eq_refl eq_refl).
Defined.

(** X21 at the key [body/0/7] of [plain_document]: the [div] has one
    child. *)
Lemma applyEntry_last_index_skipped_witness :
  applyEntry any_name html_document plain_document "body/0/7" (VStr "X") = Ok plain_document.
Proof.
  exact (applyEntry_last_index_skipped any_name html_document plain_document "body/0/7" (VStr "X")
           "body" "7" ["0"] [1] eq_refl eq_refl eq_refl).
Defined.

(** X22 at [script_document], whose map is the paragraph text alone. *)
Lemma extracted_entries_resolve_witness :
  extractContent script_document = Ok [("body/0/0", VStr "Hello")]
  /\ (exists s, VStr "Hello" = VStr s /\ JsString.truthy s = true)
  /\ exists r, resolve (with_lang "es" script_document) "body/0/0" = Some r
               /\ content_of script_document r "body/0/0" (VStr "Hello").
Proof.
  split; [reflexivity|].
  apply (extracted_entries_resolve script_document "es" [("body/0/0", VStr "Hello")]
           eq_refl "body/0/0" (VStr "Hello")).
  left. reflexivity.
Defined.

End ReapplicationInstances.

(* ================================================================== *)
(** ** Everything localizable is extracted *)

Lemma getPath_not_proto (root : node) (r : ref) (attribute : option string) :
  Dom.getPath root r attribute <> "__proto__".
Proof.
  unfold Dom.getPath. destruct (Dom.getPath_loop root r []) as [tag indices].
  set (joined := JsString.join "/" (map JsNumber.toString indices)).
  assert (Hj : JsString.lacks "_" joined = true).
  { apply join_lacks; [reflexivity | now apply toString_all_lack]. }
  assert (Hbase : (if JsString.truthy tag then tag ++ "/" ++ joined else joined)%string
                  <> "__proto__").
  { destruct (JsString.truthy tag); intro E.
    - apply (f_equal (JsString.lacks "/")) in E.
      rewrite lacks_append in E. simpl in E. rewrite andb_false_r in E. discriminate.
    - rewrite E in Hj. discriminate. }
  destruct attribute as [a|]; [|exact Hbase].
  destruct (JsString.truthy a); [|exact Hbase].
  intro E. apply (f_equal (JsString.lacks "#")) in E.
  rewrite lacks_append in E. simpl in E. rewrite andb_false_r in E. discriminate.
Qed.

Lemma define_keys (k : string) (v : value) (o : object) :
  forall k', In k' (JsObject.keys (JsObject.define k v o)) <->
             k' = k \/ In k' (JsObject.keys o).
Proof.
  induction o as [|[k0 v0] o IH]; intro k'; simpl.
  - intuition.
  - destruct (String.eqb_spec k k0) as [->|_]; simpl; [intuition|].
    destruct (JsObject.goes_before k k0); simpl; [intuition|].
    rewrite IH. intuition.
Qed.

Lemma set_keys (k : string) (v : value) (o : object) :
  k <> "__proto__" ->
  forall k', In k' (JsObject.keys (JsObject.set k v o)) <->
             k' = k \/ In k' (JsObject.keys o).
Proof.
  intros Hk k'. unfold JsObject.set. apply String.eqb_neq in Hk. rewrite Hk.
  apply define_keys.
Qed.

Lemma set_keeps_keys (k : string) (v : value) (o : object) (k' : string) :
  In k' (JsObject.keys o) -> In k' (JsObject.keys (JsObject.set k v o)).
Proof.
  intro H. unfold JsObject.set. destruct (String.eqb k "__proto__"); [exact H|].
  apply define_keys. now right.
Qed.

Lemma get_In (k : string) (o : object) :
  In k (JsObject.keys o) -> exists v, JsObject.get k o = Some v /\ In (k, v) o.
Proof.
  induction o as [|[k0 v0] o IH]; intro H; simpl in *; [contradiction|].
  destruct (String.eqb_spec k k0) as [->|Hne].
  - exists v0. split; [reflexivity | now left].
  - destruct H as [E | H]; [now symmetry in E|].
    destruct (IH H) as (v & Hg & Hin). exists v. split; [exact Hg | now right].
Qed.

Lemma kept_path_first_step (root : node) (p r : ref) :
  kept_path root p r ->
  r = p
  \/ exists i c, nth_error (Dom.childNodes_at root p) i = Some c
                 /\ Dom.localizable_child c = true
                 /\ kept_path root (i :: p) r.
Proof.
  induction 1 as [|r i c Hpath IH Hc Hkeep]; [now left|]. right.
  destruct IH as [-> | (i0 & c0 & Hc0 & Hkeep0 & Hbelow)].
  - exists i, c. repeat split; try assumption. constructor.
  - exists i0, c0. repeat split; try assumption. econstructor; eassumption.
Qed.

Lemma kept_path_under (root : node) (p r : ref) :
  kept_path root p r -> Dom.under_unlocalizable root r = false ->
  Dom.under_unlocalizable root p = false.
Proof.
  induction 1 as [|r i c Hpath IH Hc Hkeep]; intro H; [exact H|].
  simpl in H. apply orb_false_iff in H. apply IH. tauto.
Qed.

Section Reached.

Variable root : node.

Let grows (o o' : object) : Prop :=
  forall k, In k (JsObject.keys o) -> In k (JsObject.keys o').

Let holds (p : ref) (o : object) : Prop :=
  forall r key v, kept_path root p r -> source root r key v ->
                  In key (JsObject.keys o).

(** What the walk is to show of the node [n]. *)
Let node_reached (n : node) : Prop :=
  forall p extracted extracted',
    Dom.node_at root p = Some n ->
    processNode root n p extracted = Ok extracted' ->
    grows extracted extracted' /\ holds p extracted'.

Lemma extract_attributes_grows (r : ref) (attrs : list (string * string))
    (names : list string) :
  forall o, grows o (extract_attributes root r attrs names o).
Proof.
  induction names as [|a names IH]; intros o k Hk; simpl; [exact Hk|].
  apply IH. destruct (Dom.getAttribute a attrs) as [s|]; [|exact Hk].
  destruct (JsString.truthy s); [|exact Hk]. now apply set_keeps_keys.
Qed.

Lemma extract_attributes_reached (r : ref) (attrs : list (string * string))
    (names : list string) (a s : string) :
  In a names -> Dom.getAttribute a attrs = Some s -> JsString.truthy s = true ->
  forall o, In (Dom.getPath root r (Some a))
               (JsObject.keys (extract_attributes root r attrs names o)).
Proof.
  intros Ha Hs Hts.
  induction names as [|a' names IH]; intros o; [contradiction|]. simpl.
  destruct Ha as [-> | Ha]; [|now apply IH].
  rewrite Hs, Hts. apply extract_attributes_grows.
  apply set_keys; [apply getPath_not_proto | now left].
Qed.

Lemma processChildren_reached (cs : list node) :
  Forall node_reached cs ->
  forall i p extracted extracted',
    (forall j c, nth_error cs j = Some c ->
                 nth_error (Dom.childNodes_at root p) (i + j) = Some c) ->
    processChildren root cs i p extracted = Ok extracted' ->
    grows extracted extracted'
    /\ forall j c, nth_error cs j = Some c -> Dom.localizable_child c = true ->
                   holds ((i + j) :: p) extracted'.
Proof.
  induction 1 as [|c cs Hc _ IH]; intros i p o o' Hcs Hrun; simpl in Hrun.
  - injection Hrun as <-. split; [intros k Hk; exact Hk|].
    intros [|j] c' Hj; discriminate.
  - assert (Hi : nth_error (Dom.childNodes_at root p) i = Some c)
      by (rewrite <- (Nat.add_0_r i); apply Hcs; reflexivity).
    assert (Hcs' : forall j c', nth_error cs j = Some c' ->
                     nth_error (Dom.childNodes_at root p) (S i + j) = Some c')
      by (intros j c' Hj; replace (S i + j) with (i + S j) by lia; apply Hcs; exact Hj).
    destruct (Dom.localizable_child c) eqn:Hkeep.
    + destruct (processNode root c (i :: p) o) as [o1|] eqn:Hproc; [|discriminate].
      destruct (IH _ _ _ _ Hcs' Hrun) as [Hgrow Hrest].
      destruct (Hc (i :: p) o o1) as [Hgrow1 Hhold1]; [now rewrite node_at_child | exact Hproc|].
      split; [intros k Hk; apply Hgrow, Hgrow1, Hk|].
      intros [|j] c' Hj Hkeep'.
      * rewrite Nat.add_0_r. intros r key v Hp Hsrc. apply Hgrow.
        exact (Hhold1 r key v Hp Hsrc).
      * replace (i + S j) with (S i + j) by lia. exact (Hrest j c' Hj Hkeep').
    + destruct (IH _ _ _ _ Hcs' Hrun) as [Hgrow Hrest].
      split; [exact Hgrow|].
      intros [|j] c' Hj Hkeep'.
      * injection Hj as <-. rewrite Hkeep in Hkeep'. discriminate.
      * replace (i + S j) with (S i + j) by lia. exact (Hrest j c' Hj Hkeep').
Qed.

Lemma processNode_reached (n : node) : node_reached n.
Proof.
  induction n as [t attrs cs IH | d | d] using node_induction;
    intros p ex ex' Hn Hrun.
  - rewrite processNode_Element in Hrun.
    assert (Hcs : forall j c, nth_error cs j = Some c ->
                              nth_error (Dom.childNodes_at root p) (0 + j) = Some c)
      by (intros j c Hj; unfold Dom.childNodes_at; rewrite Hn; exact Hj).
    assert (Hbelow : forall o,
               grows o ex' ->
               (forall j c, nth_error cs j = Some c -> Dom.localizable_child c = true ->
                            holds ((0 + j) :: p) ex') ->
               (forall names a s,
                   Dom.LOCALIZABLE_ATTRIBUTES (JsString.toLowerCase t) = Dom.Own names ->
                   In a names -> Dom.getAttribute a attrs = Some s ->
                   JsString.truthy s = true ->
                   In (Dom.getPath root p (Some a)) (JsObject.keys o)) ->
               holds p ex').
    { intros o Hgrow Hchildren Hattrs r key v Hpath Hsrc.
      destruct (kept_path_first_step root p r Hpath)
        as [-> | (i & c & Hc & Hkeep & Hpath')].
      - destruct Hsrc as [d Hd _ _ | t' attrs' cs' names a s Hn' _ Hlook Ha Hs Hts].
        + rewrite Hn in Hd. discriminate.
        + rewrite Hn in Hn'. injection Hn' as <- <- <-.
          apply Hgrow. exact (Hattrs names a s Hlook Ha Hs Hts).
      - unfold Dom.childNodes_at in Hc. rewrite Hn in Hc. simpl in Hc.
        exact (Hchildren i c Hc Hkeep r key v Hpath' Hsrc). }
    destruct (Dom.under_unlocalizable root p) eqn:Hunder.
    { injection Hrun as <-. split; [intros k Hk; exact Hk|].
      intros r key v Hpath Hsrc. exfalso.
      assert (Hr : Dom.under_unlocalizable root r = false)
        by (destruct Hsrc; assumption).
      rewrite (kept_path_under root p r Hpath Hr) in Hunder. discriminate. }
    destruct (Dom.LOCALIZABLE_ATTRIBUTES (JsString.toLowerCase t)) as [names| |] eqn:Hlook;
      [| discriminate |].
    + destruct (processChildren_reached cs IH _ _ _ _ Hcs Hrun) as [Hgrow Hchildren].
      split.
      * intros k Hk. apply Hgrow. now apply extract_attributes_grows.
      * apply (Hbelow _ Hgrow Hchildren).
        intros names' a s E Ha Hs Hts. injection E as <-.
        eapply extract_attributes_reached; eassumption.
    + destruct (processChildren_reached cs IH _ _ _ _ Hcs Hrun) as [Hgrow Hchildren].
      split; [exact Hgrow|].
      apply (Hbelow _ Hgrow Hchildren). intros names a s E. discriminate.
  - simpl in Hrun.
    assert (Hleaf : forall r, kept_path root p r -> r = p).
    { intros r Hpath. destruct (kept_path_first_step root p r Hpath)
        as [-> | (i & c & Hc & _)]; [reflexivity|].
      unfold Dom.childNodes_at in Hc. rewrite Hn in Hc. destruct i; discriminate. }
    destruct (Dom.under_unlocalizable root p) eqn:Hunder.
    { injection Hrun as <-. split; [intros k Hk; exact Hk|].
      intros r key v Hpath Hsrc. rewrite (Hleaf r Hpath) in Hsrc.
      destruct Hsrc as [? _ Hu _ | ? ? ? ? ? ? _ Hu]; rewrite Hu in Hunder; discriminate. }
    destruct (JsString.truthy (JsString.trim d)) eqn:Htd; injection Hrun as <-.
    + split; [intros k Hk; now apply set_keeps_keys|].
      intros r key v Hpath Hsrc. rewrite (Hleaf r Hpath) in Hsrc.
      destruct Hsrc as [d' Hd' _ _ | ? ? ? ? ? ? Hn' _].
      * apply set_keys; [apply getPath_not_proto | now left].
      * rewrite Hn in Hn'. discriminate.
    + split; [intros k Hk; exact Hk|].
      intros r key v Hpath Hsrc. rewrite (Hleaf r Hpath) in Hsrc.
      destruct Hsrc as [d' Hd' _ Htd' | ? ? ? ? ? ? Hn' _].
      * rewrite Hn in Hd'. injection Hd' as <-. rewrite Htd in Htd'. discriminate.
      * rewrite Hn in Hn'. discriminate.
  - simpl in Hrun.
    assert (Hsame : ex' = ex)
      by (destruct (Dom.under_unlocalizable root p); now injection Hrun).
    subst ex'. split; [intros k Hk; exact Hk|].
    intros r key v Hpath Hsrc.
    destruct (kept_path_first_step root p r Hpath) as [-> | (i & c & Hc & _)].
    + destruct Hsrc as [? Hd | ? ? ? ? ? ? Hn']; [rewrite Hn in Hd | rewrite Hn in Hn'];
        discriminate.
    + unfold Dom.childNodes_at in Hc. rewrite Hn in Hc. destruct i; discriminate.
Qed.

(** One walk of [localizeHtml] writes a key for every source below
    [top]. *)
Lemma walk_reached (top : ref) (extracted extracted' : object) :
  processChildren root (Dom.childNodes_at root top) 0 top extracted = Ok extracted' ->
  (forall k, In k (JsObject.keys extracted) -> In k (JsObject.keys extracted'))
  /\ forall r key v, kept_path root top r -> r <> top -> source root r key v ->
                     In key (JsObject.keys extracted').
Proof.
  intro Hrun.
  destruct (processChildren_reached (Dom.childNodes_at root top)
              ltac:(apply Forall_forall; intros c _; apply processNode_reached)
              0 top extracted extracted' ltac:(auto) Hrun) as [Hgrow Hchildren].
  split; [exact Hgrow|].
  intros r key v Hpath Hne Hsrc.
  destruct (kept_path_first_step root top r Hpath) as [-> | (i & c & Hc & Hkeep & Hpath')];
    [contradiction|].
  exact (Hchildren i c Hc Hkeep r key v Hpath' Hsrc).
Qed.

End Reached.

Lemma emitted_source (root : node) (top : ref) (key : string) (v : value) :
  emitted root top key v ->
  exists r, kept_path root top r /\ r <> top /\ source root r key v.
Proof.
  intros [r d Hpath Hne Hn Hunder
         | r t attrs cs names a s Hpath Hne Hn Hunder Hlook Ha Hs Hts]; exists r.
  - split; [exact Hpath|]. split; [exact Hne|]. constructor; try assumption.
    destruct Hpath as [|r' i c _ Hc Hkeep]; [contradiction|].
    rewrite node_at_child, Hc in Hn. injection Hn as ->. exact Hkeep.
  - split; [exact Hpath|]. split; [exact Hne|]. econstructor; eassumption.
Qed.

(** A key of the map has one source, and so one value. *)
Lemma emitted_functional (t0 : string) (attrs0 : list (string * string))
    (cs0 : list node) (top top' : ref) (key : string) (v v' : value) :
  Dom.head (Element t0 attrs0 cs0) = Some top
  \/ Dom.body (Element t0 attrs0 cs0) = Some top ->
  Dom.head (Element t0 attrs0 cs0) = Some top'
  \/ Dom.body (Element t0 attrs0 cs0) = Some top' ->
  emitted (Element t0 attrs0 cs0) top key v ->
  emitted (Element t0 attrs0 cs0) top' key v' ->
  v = v'.
Proof.
  intros Htop Htop' He He'.
  assert (Hlisted : forall t names a,
             Dom.LOCALIZABLE_ATTRIBUTES t = Dom.Own names -> In a names ->
             key_attribute (Some a)).
  { intros t names a Hlook Ha.
    pose proof (listed_attribute_names _ _ _ Hlook Ha) as H.
    simpl in H. decompose [or] H; subst; try (split; reflexivity); contradiction. }
  remember key as key' eqn:Ekey in He'.
  destruct He as [r d Hpath Hne Hn Hunder
                 | r t attrs cs names a s Hpath Hne Hn Hunder Hlook Ha Hs Hts];
    destruct He' as [r' d' Hpath' Hne' Hn' Hunder'
                    | r' t' attrs' cs' names' a' s' Hpath' Hne' Hn' Hunder' Hlook' Ha' Hs' Hts'].
  - destruct (resolve_getPath t0 attrs0 attrs0 cs0 top Htop r None Hpath Hne I)
      as [Hr _].
    destruct (resolve_getPath t0 attrs0 attrs0 cs0 top' Htop' r' None Hpath' Hne' I)
      as [Hr' _].
    rewrite Ekey, Hr in Hr'. injection Hr' as <-.
    rewrite Hn in Hn'. injection Hn' as <-. reflexivity.
  - destruct (resolve_getPath t0 attrs0 attrs0 cs0 top Htop r None Hpath Hne I)
      as [_ Hk].
    destruct (resolve_getPath t0 attrs0 attrs0 cs0 top' Htop' r' (Some a') Hpath' Hne'
                (Hlisted _ _ _ Hlook' Ha')) as [_ Hk'].
    rewrite Ekey, Hk in Hk'. discriminate.
  - destruct (resolve_getPath t0 attrs0 attrs0 cs0 top Htop r (Some a) Hpath Hne
                (Hlisted _ _ _ Hlook Ha)) as [_ Hk].
    destruct (resolve_getPath t0 attrs0 attrs0 cs0 top' Htop' r' None Hpath' Hne' I)
      as [_ Hk'].
    rewrite Ekey, Hk in Hk'. discriminate.
  - destruct (resolve_getPath t0 attrs0 attrs0 cs0 top Htop r (Some a) Hpath Hne
                (Hlisted _ _ _ Hlook Ha)) as [Hr Hk].
    destruct (resolve_getPath t0 attrs0 attrs0 cs0 top' Htop' r' (Some a') Hpath' Hne'
                (Hlisted _ _ _ Hlook' Ha')) as [Hr' Hk'].
    rewrite Ekey, Hr in Hr'. injection Hr' as <-.
    rewrite Ekey, Hk in Hk'. injection Hk' as <-.
    rewrite Hn in Hn'. injection Hn' as <- <- <-.
    rewrite Hs in Hs'. injection Hs' as <-. reflexivity.
Qed.

(** X23: the extraction misses nothing.  If [extractContent] returns,
    then for every text node with non-blank text and every non-empty
    listed attribute of an element, below the head or the body through
    kept children and not below a [script] or a [style], the map holds
    under the node's key the trimmed text, or the attribute value. *)
Theorem localizable_content_extracted (document : node) (extracted : object)
    (top : ref) (key : string) (v : value) :
  extractContent document = Ok extracted ->
  Dom.head document = Some top \/ Dom.body document = Some top ->
  emitted document top key v ->
  JsObject.get key extracted = Some v.
Proof.
  intros Hex Htop He.
  destruct (extractContent_emitted document extracted Hex)
    as (h & b & Hh & Hb & Hsound).
  assert (Hkey : In key (JsObject.keys extracted)).
  { destruct (emitted_source _ _ _ _ He) as (r & Hpath & Hne & Hsrc).
    unfold extractContent in Hex. rewrite Hh in Hex.
    destruct (processChildren document (Dom.childNodes_at document h) 0 h [])
      as [o1|] eqn:Hwalk1; [|discriminate].
    rewrite Hb in Hex.
    destruct (walk_reached document h [] o1 Hwalk1) as [_ Hhead].
    destruct (walk_reached document b o1 extracted Hex) as [Hgrow Hbody].
    destruct Htop as [Htop | Htop].
    - rewrite Hh in Htop. injection Htop as <-.
      apply Hgrow. exact (Hhead r key v Hpath Hne Hsrc).
    - rewrite Hb in Htop. injection Htop as <-.
      exact (Hbody r key v Hpath Hne Hsrc). }
  destruct (get_In key extracted Hkey) as (v' & Hget & Hin).
  rewrite Hget. f_equal.
  destruct document as [t0 attrs0 cs0 | d | d]; try discriminate.
  destruct (Hsound key v' Hin) as [He' | He'].
  - exact (emitted_functional t0 attrs0 cs0 h top key v' v (or_introl Hh) Htop He' He).
  - exact (emitted_functional t0 attrs0 cs0 b top key v' v (or_intror Hb) Htop He' He).
Qed.

Section ExtractionInstances.

Import Example.

Ltac kept :=
  first [apply kept_top | eapply kept_child; [kept | reflexivity | reflexivity]].

(** X23 at the [alt] attribute of the image of [plain_document]. *)
Lemma localizable_content_extracted_witness :
  exists extracted,
    extractContent plain_document = Ok extracted
    /\ JsObject.get "body/1#alt" extracted = Some (VStr "A cat").
Proof.
  destruct (extractContent plain_document) as [extracted|e] eqn:Hex;
    [|discriminate].
  exists extracted. split; [reflexivity|].
  apply (localizable_content_extracted plain_document extracted [1]
           (Dom.getPath plain_document [1; 1] (Some "alt")) (VStr "A cat") Hex
           (or_intror eq_refl)).
  apply (emitted_attribute plain_document [1] [1; 1] "IMG" [("alt", "A cat")] []
           ["alt"] "alt" "A cat"); try reflexivity; try discriminate;
    [kept | left; reflexivity].
Defined.

End ExtractionInstances.

(* ================================================================== *)
(** ** Re-applying a whole translation *)

Section Outline.

Lemma is_element_named_outline (names : list string) (n n' : node) :
  outline n = outline n' ->
  Dom.is_element_named names n = Dom.is_element_named names n'.
Proof.
  unfold outline. destruct n, n'; simpl; intro H; try discriminate; try reflexivity.
  injection H as -> _. reflexivity.
Qed.

Lemma outline_children (cs cs' : list node) :
  (forall i, option_map outline (nth_error cs i) = option_map outline (nth_error cs' i)) ->
  Forall2 (fun c c' => outline c = outline c') cs cs'.
Proof.
  revert cs'. induction cs as [|c cs IH]; intros [|c' cs'] H.
  - constructor.
  - specialize (H 0). discriminate.
  - specialize (H 0). discriminate.
  - constructor.
    + specialize (H 0). cbn [nth_error option_map] in H. congruence.
    + apply IH. intro i. exact (H (S i)).
Qed.

Lemma filtered_from_outline (cs cs' : list node) :
  Forall2 (fun c c' => outline c = outline c') cs cs' ->
  forall k, Forall2 (fun ic ic' => fst ic = fst ic' /\ outline (snd ic) = outline (snd ic'))
                    (Dom.filtered_from cs k) (Dom.filtered_from cs' k).
Proof.
  induction 1 as [|c c' cs cs' Hc _ IH]; intro k; simpl; [constructor|].
  assert (Hl : Dom.localizable_child c = Dom.localizable_child c')
    by (unfold outline in Hc; now injection Hc).
  rewrite <- Hl. destruct (Dom.localizable_child c); [|apply IH].
  constructor; [now split | apply IH].
Qed.

Lemma find_child_outline (names : list string) (cs cs' : list node) :
  Forall2 (fun c c' => outline c = outline c') cs cs' ->
  forall k, Dom.find_child (Dom.is_element_named names) cs k
            = Dom.find_child (Dom.is_element_named names) cs' k.
Proof.
  induction 1 as [|c c' cs cs' Hc _ IH]; intro k; simpl; [reflexivity|].
  rewrite (is_element_named_outline names c c' Hc).
  destruct (Dom.is_element_named names c'); [reflexivity | apply IH].
Qed.

Lemma index_Forall2 {A} (R : A -> A -> Prop) (xs xs' : list A) (n : JsNumber.parsed) :
  Forall2 R xs xs' ->
  match JsNumber.index xs n, JsNumber.index xs' n with
  | Some x, Some x' => R x x'
  | None, None => True
  | _, _ => False
  end.
Proof.
  intro H. unfold JsNumber.index. destruct n as [|neg m]; [exact I|].
  destruct (neg && negb (m =? 0)%N); [exact I|].
  generalize (N.to_nat m). clear m. induction H as [|x x' xs xs' Hx _ IH]; intros [|k]; simpl;
    try exact I; [exact Hx | apply IH].
Qed.

Variables d d' : node.
Hypothesis same : same_outline d d'.

Lemma same_outline_children (q : ref) :
  Forall2 (fun c c' => outline c = outline c')
          (Dom.childNodes_at d q) (Dom.childNodes_at d' q).
Proof.
  apply outline_children. intro i. rewrite <- !node_at_child. apply same.
Qed.

Lemma descend_outline (state : ref * option ref) (index : string) :
  descend d state index = descend d' state index.
Proof.
  destruct state as [parent current]. unfold descend.
  pose proof (same_outline_children parent) as Hcs.
  unfold Dom.childNodes_at in Hcs.
  assert (Hf : Forall2 (fun ic ic' => fst ic = fst ic' /\ outline (snd ic) = outline (snd ic'))
                 (match Dom.node_at d parent with
                  | Some p => Dom.filtered p | None => [] end)
                 (match Dom.node_at d' parent with
                  | Some p => Dom.filtered p | None => [] end)).
  { pose proof (same parent) as Hp.
    destruct (Dom.node_at d parent) as [p|], (Dom.node_at d' parent) as [p'|];
      simpl in Hp; try discriminate; [|constructor].
    apply filtered_from_outline. exact Hcs. }
  pose proof (index_Forall2 _ _ _ (JsNumber.parseInt index) Hf) as Hi.
  destruct (JsNumber.index _ _) as [[i c]|], (JsNumber.index _ _) as [[i' c']|];
    try contradiction; [|reflexivity].
  simpl in Hi. destruct Hi as [-> Ho]. unfold outline in Ho.
  injection Ho as -> _ _ _. reflexivity.
Qed.

Lemma fold_descend_outline (indices : list string) :
  forall state, fold_left (descend d) indices state = fold_left (descend d') indices state.
Proof.
  induction indices as [|index rest IH]; intro state; [reflexivity|].
  simpl. rewrite descend_outline. apply IH.
Qed.

Lemma top_outline (names : list string) :
  (if Dom.is_element_named ["html"] d
   then option_map (fun i => [i])
          (Dom.find_child (Dom.is_element_named names) (Dom.children d) 0)
   else None)
  = (if Dom.is_element_named ["html"] d'
     then option_map (fun i => [i])
            (Dom.find_child (Dom.is_element_named names) (Dom.children d') 0)
     else None).
Proof.
  assert (Hroot : outline d = outline d')
    by (pose proof (same []) as H; cbn [Dom.node_at option_map] in H; congruence).
  rewrite (is_element_named_outline ["html"] d d' Hroot).
  pose proof (same_outline_children []) as Hcs. unfold Dom.childNodes_at in Hcs.
  simpl in Hcs. rewrite (find_child_outline names _ _ Hcs 0). reflexivity.
Qed.

(** The lookup of a key sees the outline of the document only. *)
Lemma resolve_outline (path : string) : resolve d path = resolve d' path.
Proof.
  assert (Hh : Dom.head d = Dom.head d') by (unfold Dom.head; apply top_outline).
  assert (Hb : Dom.body d = Dom.body d') by (unfold Dom.body; apply top_outline).
  unfold resolve. cbv zeta. rewrite Hh, Hb.
  destruct (if String.eqb _ "head" then _ else _) as [top|]; [|reflexivity].
  rewrite fold_descend_outline. reflexivity.
Qed.

End Outline.

Lemma same_outline_refl (d : node) : same_outline d d.
Proof. intro q. reflexivity. Qed.

Lemma same_outline_trans (d1 d2 d3 : node) :
  same_outline d1 d2 -> same_outline d2 d3 -> same_outline d1 d3.
Proof. intros H12 H23 q. rewrite H12. apply H23. Qed.

Lemma length_list_update {A} (f : A -> A) (xs : list A) :
  forall i, length (Dom.list_update xs i f) = length xs.
Proof.
  induction xs as [|x xs IH]; intros [|i]; simpl; try reflexivity. now rewrite IH.
Qed.

Lemma update_at_outline (l : ref) (n : node) (f : node -> node) :
  l <> [] -> outline (Dom.update_at n l f) = outline n.
Proof.
  intro Hne. destruct (exists_last Hne) as (l' & i & ->).
  destruct (update_at_snoc l' n i f) as (g & ->).
  destruct n as [t a cs | s | s]; [|reflexivity|reflexivity].
  unfold outline. simpl. now rewrite length_list_update.
Qed.

(** An update at [r] that keeps the outline of the node and of what is
    below it keeps the outline of the document. *)
Lemma update_at_same_outline (d : node) (r : ref) (n : node) (f : node -> node) :
  Dom.node_at d r = Some n ->
  (forall l, option_map outline (Dom.node_at (f n) l)
             = option_map outline (Dom.node_at n l)) ->
  same_outline d (Dom.update_at d r f).
Proof.
  intros Hn Hf q. symmetry.
  destruct (paths_trichotomy (rev r) (rev q))
    as [(l & E) | [(l & E) | (c & x & y & a' & b' & Ea & Eb & Hxy)]].
  - apply (f_equal (@rev nat)) in E. rewrite rev_app_distr, !rev_involutive in E.
    subst q. rewrite !node_at_app, node_at_update_at_here, Hn. simpl. apply Hf.
  - apply (f_equal (@rev nat)) in E. rewrite rev_app_distr, !rev_involutive in E.
    subst r. rewrite node_at_update_at_ancestor.
    destruct (rev l) as [|k l'] eqn:El.
    + simpl in Hn |- *. rewrite Hn. simpl. exact (Hf []).
    + destruct (Dom.node_at d q) as [m|]; [|reflexivity]. cbn [option_map].
      rewrite update_at_outline by discriminate. reflexivity.
  - apply (f_equal (@rev nat)) in Ea, Eb.
    rewrite rev_app_distr, rev_involutive in Ea, Eb. simpl in Ea, Eb.
    rewrite <- app_assoc in Ea, Eb. simpl in Ea, Eb. subst r q.
    rewrite node_at_update_at_apart by exact Hxy. reflexivity.
Qed.

Lemma getAttribute_set_attr_same (a s : string) (attrs : list (string * string)) :
  Dom.getAttribute a (Dom.set_attr (JsString.asciiLowercase a) s attrs) = Some s.
Proof.
  induction attrs as [|[k v] attrs IH]; simpl.
  - now rewrite String.eqb_refl.
  - destruct (String.eqb k (JsString.asciiLowercase a)) eqn:E; simpl; rewrite E;
      [reflexivity | exact IH].
Qed.

Lemma listed_attribute_unique (t : string) (names : list string) (a a' : string) :
  Dom.LOCALIZABLE_ATTRIBUTES t = Dom.Own names -> In a names -> In a' names -> a = a'.
Proof.
  unfold Dom.LOCALIZABLE_ATTRIBUTES.
  repeat match goal with
         | |- context [if String.eqb t ?x then _ else _] => destruct (String.eqb t x)
         end;
    try (intro H; injection H as <-; simpl; intuition congruence).
  destruct (existsb _ _); discriminate.
Qed.

Lemma outline_Text (s : string) :
  outline (Text s) = (3, "#text", JsString.truthy (JsString.trim s), 0).
Proof. reflexivity. Qed.

Lemma outline_text (n : node) (d0 : string) :
  outline n = outline (Text d0) ->
  exists d1, n = Text d1 /\ JsString.truthy (JsString.trim d1) = JsString.truthy (JsString.trim d0).
Proof.
  unfold outline. destruct n as [t a cs | d1 | d1]; simpl; intro H; try discriminate.
  exists d1. split; [reflexivity|]. now injection H.
Qed.

Lemma outline_element (n : node) (t : string) (attrs : list (string * string))
    (cs : list node) :
  outline n = outline (Element t attrs cs) -> exists attrs' cs', n = Element t attrs' cs'.
Proof.
  unfold outline. destruct n as [t' a' cs' | d1 | d1]; simpl; intro H; try discriminate.
  injection H as -> _. eauto.
Qed.

(** Writing a text node leaves what the other nodes hold. *)
Lemma holds_at_text_update (d : node) (r : ref) (d1 s : string)
    (r' : ref) (attribute : option string) (s' : string) :
  Dom.node_at d r = Some (Text d1) ->
  r' <> r ->
  holds_at d r' attribute s' ->
  holds_at (Dom.update_at d r (set_textContent s)) r' attribute s'.
Proof.
  intros Hn Hne Hold.
  destruct (paths_trichotomy (rev r) (rev r'))
    as [(l & E) | [(l & E) | (c & x & y & a' & b' & Ea & Eb & Hxy)]].
  - (* [r'] at or below the leaf [r] *)
    apply (f_equal (@rev nat)) in E. rewrite rev_app_distr, !rev_involutive in E.
    subst r'. exfalso.
    assert (Hsome : Dom.node_at d (rev l ++ r) <> None)
      by (destruct attribute; [destruct Hold as (? & ? & ? & -> & _) | rewrite Hold];
          discriminate).
    rewrite node_at_app, Hn in Hsome.
    destruct (rev l) as [|k l']; [now apply Hne|].
    rewrite (node_at_below_leaf (Text d1) (k :: l') eq_refl) in Hsome by discriminate.
    now apply Hsome.
  - (* [r'] above [r] *)
    apply (f_equal (@rev nat)) in E. rewrite rev_app_distr, !rev_involutive in E.
    subst r.
    destruct (rev l) as [|k l'] eqn:El; [now contradiction Hne|].
    destruct (@exists_last _ (k :: l') ltac:(discriminate)) as (l'' & i & E2).
    rewrite E2 in *. clear E2.
    destruct attribute as [a|]; unfold holds_at in Hold |- *.
    + destruct Hold as (t & attrs & cs & Hr' & Ha).
      rewrite node_at_update_at_ancestor, Hr'. cbn [option_map].
      destruct (update_at_snoc l'' (Element t attrs cs) i (set_textContent s)) as (g & ->).
      eauto.
    + exfalso. rewrite node_at_app, Hold in Hn.
      rewrite (node_at_below_leaf (Text s') (l'' ++ [i]) eq_refl) in Hn
        by (destruct l''; discriminate).
      discriminate.
  - apply (f_equal (@rev nat)) in Ea, Eb.
    rewrite rev_app_distr, rev_involutive in Ea, Eb. simpl in Ea, Eb.
    rewrite <- app_assoc in Ea, Eb. simpl in Ea, Eb. subst r r'.
    unfold holds_at in *. rewrite node_at_update_at_apart by exact Hxy. exact Hold.
Qed.

(** Writing an attribute of an element leaves what the other nodes hold,
    and the other attributes of the element. *)
Lemma holds_at_attribute_update (d : node) (r : ref) (t : string)
    (attrs attrs2 : list (string * string)) (cs : list node)
    (r' : ref) (attribute : option string) (s' : string) :
  Dom.node_at d r = Some (Element t attrs cs) ->
  (r' = r -> forall a, attribute = Some a ->
                       Dom.getAttribute a attrs2 = Dom.getAttribute a attrs) ->
  holds_at d r' attribute s' ->
  holds_at (Dom.update_at d r (fun _ => Element t attrs2 cs)) r' attribute s'.
Proof.
  intros Hn Hsame Hold.
  destruct (paths_trichotomy (rev r) (rev r'))
    as [(l & E) | [(l & E) | (c & x & y & a' & b' & Ea & Eb & Hxy)]].
  - (* [r'] at or below [r] *)
    apply (f_equal (@rev nat)) in E. rewrite rev_app_distr, !rev_involutive in E.
    subst r'.
    destruct (rev l) as [|k l'] eqn:El.
    + simpl in Hold |- *. unfold holds_at in *.
      rewrite node_at_update_at_here, Hn. simpl.
      destruct attribute as [a|].
      * destruct Hold as (t1 & attrs1 & cs1 & Hr' & Ha).
        rewrite Hn in Hr'. injection Hr' as <- <- <-.
        exists t, attrs2, cs. split; [reflexivity|].
        rewrite (Hsame eq_refl a eq_refl). exact Ha.
      * rewrite Hn in Hold. discriminate.
    + assert (Hbelow : Dom.node_at (Dom.update_at d r (fun _ => Element t attrs2 cs))
                         ((k :: l') ++ r)
                       = Dom.node_at d ((k :: l') ++ r)).
      { rewrite !node_at_app, node_at_update_at_here, Hn. simpl option_map. cbv iota.
        apply node_at_same_children; [reflexivity | discriminate]. }
      unfold holds_at in *. rewrite Hbelow. exact Hold.
  - (* [r'] above [r] *)
    apply (f_equal (@rev nat)) in E. rewrite rev_app_distr, !rev_involutive in E.
    subst r.
    destruct (rev l) as [|k l'] eqn:El.
    + (* the same node *)
      simpl in Hn. unfold holds_at in *. simpl.
      destruct attribute as [a|].
      * destruct Hold as (t1 & attrs1 & cs1 & Hr' & Ha).
        rewrite Hn in Hr'. injection Hr' as <- <- <-.
        rewrite (node_at_update_at_here r'), Hn. simpl.
        exists t, attrs2, cs. split; [reflexivity|].
        rewrite (Hsame eq_refl a eq_refl). exact Ha.
      * rewrite Hn in Hold. discriminate.
    + destruct (@exists_last _ (k :: l') ltac:(discriminate)) as (l'' & i & E2).
      rewrite E2 in *. clear E2.
      destruct attribute as [a|]; unfold holds_at in Hold |- *.
      * destruct Hold as (t1 & attrs1 & cs1 & Hr' & Ha).
        rewrite node_at_update_at_ancestor, Hr'. cbn [option_map].
        destruct (update_at_snoc l'' (Element t1 attrs1 cs1) i
                    (fun _ => Element t attrs2 cs)) as (g & ->).
        eauto.
      * exfalso. rewrite node_at_app, Hold in Hn.
        rewrite (node_at_below_leaf (Text s') (l'' ++ [i]) eq_refl) in Hn
          by (destruct l''; discriminate).
        discriminate.
  - apply (f_equal (@rev nat)) in Ea, Eb.
    rewrite rev_app_distr, rev_involutive in Ea, Eb. simpl in Ea, Eb.
    rewrite <- app_assoc in Ea, Eb. simpl in Ea, Eb. subst r r'.
    unfold holds_at in *. rewrite node_at_update_at_apart by exact Hxy. exact Hold.
Qed.

Section Translated.

Variable valid_attribute_name : string -> bool.
Variable in_html_namespace : ref -> bool.
Variables (t0 : string) (attrs0 attrs0' : list (string * string)) (cs0 : list node).

Local Abbreviation root := (Element t0 attrs0 cs0).
Local Abbreviation root' := (Element t0 attrs0' cs0).

Variable extracted : object.
Hypothesis extraction : extractContent root = Ok extracted.
Hypothesis valid_names :
  forall a, In a ["content"; "alt"; "placeholder"; "title"] ->
            valid_attribute_name a = true.

(** What is known of a key of the extracted map: the node and the
    attribute it was made for. *)
Let keyed (key : string) (r : ref) (attribute : option string) : Prop :=
  key = Dom.getPath root r attribute
  /\ resolve root' key = Some r
  /\ attribute_of key = attribute
  /\ match attribute with
     | None =>
         exists d0, Dom.node_at root' r = Some (Text d0)
                    /\ JsString.truthy (JsString.trim d0) = true
     | Some a =>
         JsString.truthy a = true /\ valid_attribute_name a = true
         /\ exists t attrs cs names,
              Dom.node_at root' r = Some (Element t attrs cs)
              /\ Dom.LOCALIZABLE_ATTRIBUTES (JsString.toLowerCase t) = Dom.Own names
              /\ In a names
     end.

Lemma keyed_exists (key : string) :
  In key (JsObject.keys extracted) -> exists r attribute, keyed key r attribute.
Proof.
  intro Hkey. destruct (get_In key extracted Hkey) as (v0 & _ & Hin).
  destruct (extractContent_emitted root extracted extraction)
    as (h & b & Hh & Hb & Hsound).
  assert (Hcase : exists top,
             (Dom.head root = Some top \/ Dom.body root = Some top)
             /\ emitted root top key v0).
  { destruct (Hsound key v0 Hin) as [He | He]; [exists h | exists b]; auto. }
  destruct Hcase as (top & Htop & He).
  assert (Hbelow : forall r, kept_path root top r -> r <> []).
  { intros r Hp E. apply kept_path_length in Hp. subst r.
    destruct (top_facts t0 attrs0 attrs0' cs0 top Htop) as (h0 & -> & _).
    simpl in Hp. lia. }
  destruct He as [r d Hpath Hne Hn Hunder
                 | r t attrs cs names a s Hpath Hne Hn Hunder Hlook Ha Hs Hts].
  - exists r, None.
    destruct (resolve_getPath t0 attrs0 attrs0' cs0 top Htop r None Hpath Hne I)
      as [Hres Hattr].
    split; [reflexivity|]. split; [exact Hres|]. split; [exact Hattr|].
    exists d. split.
    + rewrite <- Hn. apply node_at_same_children; [reflexivity | exact (Hbelow r Hpath)].
    + destruct Hpath as [|r' i c _ Hc Hkeep]; [contradiction|].
      rewrite node_at_child, Hc in Hn. injection Hn as ->. exact Hkeep.
  - pose proof (listed_attribute_names _ _ _ Hlook Ha) as Hlisted.
    assert (Hka : key_attribute (Some a)).
    { simpl in Hlisted. decompose [or] Hlisted; subst; try (split; reflexivity);
        contradiction. }
    exists r, (Some a).
    destruct (resolve_getPath t0 attrs0 attrs0' cs0 top Htop r (Some a) Hpath Hne Hka)
      as [Hres Hattr].
    split; [reflexivity|]. split; [exact Hres|]. split; [exact Hattr|].
    split; [exact (proj1 Hka)|]. split; [exact (valid_names a Hlisted)|].
    exists t, attrs, cs, names. split; [|split; assumption].
    rewrite <- Hn. apply node_at_same_children; [reflexivity | exact (Hbelow r Hpath)].
Qed.

(** Two keys for the same node and attribute are the same key. *)
Lemma keyed_same_node (key key' : string) (r : ref) (attribute attribute' : option string) :
  keyed key r attribute -> keyed key' r attribute' -> key <> key' ->
  match attribute with
  | None => False
  | Some a => forall a', attribute' <> Some a'
  end.
Proof.
  intros (-> & _ & _ & Hnode) (-> & _ & _ & Hnode') Hne.
  destruct attribute as [a|], attribute' as [a'|].
  - intros a'' E. injection E as <-.
    destruct Hnode as (_ & _ & t & attrs & cs & names & Hn & Hlook & Ha).
    destruct Hnode' as (_ & _ & t' & attrs' & cs' & names' & Hn' & Hlook' & Ha').
    rewrite Hn in Hn'. injection Hn' as <- <- <-.
    rewrite Hlook in Hlook'. injection Hlook' as <-.
    apply Hne. f_equal. f_equal. exact (listed_attribute_unique _ _ _ _ Hlook Ha Ha').
  - intros a'' E. discriminate.
  - destruct Hnode as (d0 & Hn & _).
    destruct Hnode' as (_ & _ & t' & attrs' & cs' & names' & Hn' & _).
    rewrite Hn in Hn'. discriminate.
  - now apply Hne.
Qed.

Lemma applyEntries_translated (entries : list (string * value)) :
  forall d,
    same_outline root' d ->
    NoDup (map fst entries) ->
    (forall key v, In (key, v) entries ->
                   In key (JsObject.keys extracted)
                   /\ exists s, v = VStr s /\ JsString.truthy (JsString.trim s) = true) ->
    exists result,
      applyEntries valid_attribute_name in_html_namespace d entries = Ok result
      /\ same_outline root' result
      /\ (forall key s r, In (key, VStr s) entries -> resolve root' key = Some r ->
                          holds_at result r (attribute_of key) s)
      /\ (forall key r s, In key (JsObject.keys extracted) ->
                          ~ In key (map fst entries) ->
                          resolve root' key = Some r ->
                          holds_at d r (attribute_of key) s ->
                          holds_at result r (attribute_of key) s).
Proof.
  induction entries as [|[key v] rest IH]; intros d Hsame Hnd Hentries.
  - exists d. split; [reflexivity|]. split; [exact Hsame|].
    split; [intros ? ? ? []|]. auto.
  - inversion Hnd as [|? ? Hfresh Hnd']; subst.
    destruct (Hentries key v (or_introl eq_refl)) as (Hkey & s & -> & Hs).
    destruct (keyed_exists key Hkey) as (r & attribute & Hkeyed).
    pose proof Hkeyed as (Ekey & Hres & Hattr & Hnode).
    assert (Hres_d : resolve d key = Some r)
      by (rewrite <- (resolve_outline root' d Hsame); exact Hres).
    pose proof (Hsame r) as Hout.
    (* the document after this entry *)
    assert (Hstep : exists d1,
               applyEntry valid_attribute_name in_html_namespace d key (VStr s) = Ok d1
               /\ same_outline d d1
               /\ holds_at d1 r (attribute_of key) s
               /\ forall key' r' s',
                    In key' (JsObject.keys extracted) -> key' <> key ->
                    resolve root' key' = Some r' ->
                    holds_at d r' (attribute_of key') s' ->
                    holds_at d1 r' (attribute_of key') s').
    { rewrite (applyEntry_resolve _ _ _ _ _ _ Hres_d), Hattr.
      unfold call_setAttribute, assign_textContent. cbn [attribute_text content_text to_string].
      destruct attribute as [a|].
      - destruct Hnode as (Ha & Hvalid & t & attrs & cs & names & Hn & Hlook & Hin).
        rewrite Hn in Hout. simpl in Hout.
        destruct (Dom.node_at d r) as [n|] eqn:Hnd_r; [|discriminate].
        assert (Ho : outline n = outline (Element t attrs cs))
          by (cbn [option_map] in Hout; congruence).
        destruct (outline_element _ _ _ _ Ho) as (attrs1 & cs1 & ->).
        rewrite Ha.
        rewrite (setAttribute_listed _ _ _ _ _ _ _
                   (listed_attribute_names _ _ _ Hlook Hin) Hvalid).
        set (attrs2 := Dom.set_attr (JsString.asciiLowercase a) s attrs1).
        exists (Dom.update_at d r (fun _ => Element t attrs2 cs1)).
        split; [reflexivity|]. split; [|split].
        + apply (update_at_same_outline d r _ _ Hnd_r).
          intros [|k l]; [reflexivity|].
          f_equal. apply node_at_same_children; [reflexivity | discriminate].
        + simpl. rewrite node_at_update_at_here, Hnd_r. simpl.
          exists t, attrs2, cs1. split; [reflexivity|].
          apply getAttribute_set_attr_same.
        + intros key' r' s' Hkey' Hne' Hres' Hold.
          apply (holds_at_attribute_update d r t attrs1 attrs2 cs1 r' _ s' Hnd_r);
            [|exact Hold].
          intros -> a' Ea'. exfalso.
          destruct (keyed_exists key' Hkey') as (r'' & attribute' & Hkeyed').
          pose proof Hkeyed' as (_ & Hres'' & Hattr' & _).
          rewrite Hres' in Hres''. injection Hres'' as <-.
          apply (keyed_same_node key key' r (Some a) attribute' Hkeyed Hkeyed'
                   (fun E => Hne' (eq_sym E)) a').
          rewrite <- Hattr'. exact Ea'.
      - destruct Hnode as (d0 & Hn & Hd0).
        rewrite Hn in Hout. simpl in Hout.
        destruct (Dom.node_at d r) as [n|] eqn:Hnd_r; [|discriminate].
        assert (Ho : outline n = outline (Text d0))
          by (cbn [option_map] in Hout; congruence).
        destruct (outline_text _ _ Ho) as (d1 & -> & Hd1). rewrite Hd0 in Hd1.
        exists (Dom.update_at d r (set_textContent s)).
        split; [reflexivity|]. split; [|split].
        + apply (update_at_same_outline d r _ _ Hnd_r).
          intros [|k l].
          * change (Some (outline (Text s)) = Some (outline (Text d1))).
            rewrite !outline_Text, Hs, Hd1. reflexivity.
          * rewrite !node_at_below_leaf by (reflexivity || discriminate). reflexivity.
        + simpl. rewrite node_at_update_at_here, Hnd_r. reflexivity.
        + intros key' r' s' Hkey' Hne' Hres' Hold.
          apply (holds_at_text_update d r d1 _ r' _ s' Hnd_r); [|exact Hold].
          intros ->.
          destruct (keyed_exists key' Hkey') as (r'' & attribute' & Hkeyed').
          pose proof Hkeyed' as (_ & Hres'' & _).
          rewrite Hres' in Hres''. injection Hres'' as <-.
          exact (keyed_same_node key key' r None attribute' Hkeyed Hkeyed'
                   (fun E => Hne' (eq_sym E))). }
    destruct Hstep as (d1 & Happly & Hsame1 & Hhere & Hframe).
    destruct (IH d1 (same_outline_trans _ _ _ Hsame Hsame1) Hnd'
                (fun k v' H => Hentries k v' (or_intror H)))
      as (result & Hrest & Hsame_r & Hall & Hkeep).
    exists result. split; [simpl; rewrite Happly; exact Hrest|].
    split; [exact Hsame_r|]. split.
    + intros key' s' r' [E | Hin] Hres'.
      * injection E as <- <-. rewrite Hres in Hres'. injection Hres' as <-.
        exact (Hkeep key r s Hkey Hfresh Hres Hhere).
      * exact (Hall key' s' r' Hin Hres').
    + intros key' r' s' Hkey' Hnotin Hres' Hold.
      apply (Hkeep key' r' s' Hkey'); [intro H; apply Hnotin; now right | exact Hres'|].
      apply (Hframe key' r' s' Hkey'); [|exact Hres' | exact Hold].
      intros ->. apply Hnotin. now left.
Qed.

End Translated.

(** X24: re-applying a translation.  Let [localized] give, under
    distinct keys of the extracted map, strings that are not blank, and
    let jsdom accept the listed attribute names.  Then the
    re-application on the document with its [lang] attribute set throws
    nothing, and in the document it returns every key of [localized]
    resolves to a node that holds the translated string, as its text or
    as the value of the key's attribute; an extracted key that
    [localized] lacks resolves to a node that holds what it held. *)
Theorem applyEntries_translation (valid_attribute_name : string -> bool)
    (in_html_namespace : ref -> bool)
    (document : node) (locale : string) (extracted localized : object) :
  extractContent document = Ok extracted ->
  (forall a, In a ["content"; "alt"; "placeholder"; "title"] ->
             valid_attribute_name a = true) ->
  NoDup (JsObject.keys localized) ->
  (forall key v, In (key, v) localized ->
                 In key (JsObject.keys extracted)
                 /\ exists s, v = VStr s /\ JsString.truthy (JsString.trim s) = true) ->
  exists result,
    applyEntries valid_attribute_name in_html_namespace (with_lang locale document)
                 (JsObject.entries localized) = Ok result
    /\ (forall key s, In (key, VStr s) localized ->
          exists r, resolve result key = Some r
                    /\ holds_at result r (attribute_of key) s)
    /\ (forall key s, In key (JsObject.keys extracted) ->
          ~ In key (JsObject.keys localized) ->
          forall r, resolve (with_lang locale document) key = Some r ->
                    holds_at (with_lang locale document) r (attribute_of key) s ->
                    resolve result key = Some r
                    /\ holds_at result r (attribute_of key) s).
Proof.
  intros Hex Hvalid Hnd Hentries.
  destruct document as [t0 attrs0 cs0 | d | d]; try discriminate.
  unfold with_lang, JsObject.entries.
  set (attrs0' := Dom.set_attr "lang" locale attrs0).
  destruct (applyEntries_translated valid_attribute_name in_html_namespace t0 attrs0 attrs0' cs0 extracted
              Hex Hvalid localized (Element t0 attrs0' cs0) (same_outline_refl _)
              Hnd Hentries) as (result & Happly & Hsame & Hall & Hkeep).
  exists result. split; [exact Happly|]. split.
  - intros key s Hin.
    destruct (Hentries key (VStr s) Hin) as [Hkey _].
    destruct (keyed_exists valid_attribute_name t0 attrs0 attrs0' cs0 extracted Hex Hvalid
                key Hkey) as (r & attribute & _ & Hres & _).
    exists r. split.
    + rewrite <- (resolve_outline _ _ Hsame). exact Hres.
    + exact (Hall key s r Hin Hres).
  - intros key s Hkey Hnotin r Hres Hold. split.
    + rewrite <- (resolve_outline _ _ Hsame). exact Hres.
    + exact (Hkeep key r s Hkey Hnotin Hres Hold).
Qed.

Section TranslationInstances.

Import Example.

(** X24 at [plain_document] and a translation of its three strings,
    given in another order than they were extracted in. *)
Lemma applyEntries_translation_witness :
  applyEntries any_name html_document (with_lang "es" plain_document)
    [("body/1#alt", VStr "Un gato"); ("head/0/0", VStr "Hola");
     ("body/0/0/0", VStr "Guardar")]
  = Ok (Element "HTML" [("lang", "es")]
          [Element "HEAD" []
             [Element "TITLE" [] [Text "Hola"];
              Element "META" [("name", "description"); ("content", "A page")] []];
           Element "BODY" []
             [Element "DIV" [] [Element "P" [] [Text "Guardar"]];
              Element "IMG" [("alt", "Un gato")] []]])
  /\ exists result,
       applyEntries any_name html_document (with_lang "es" plain_document)
         [("body/1#alt", VStr "Un gato"); ("head/0/0", VStr "Hola");
          ("body/0/0/0", VStr "Guardar")] = Ok result
       /\ exists r, resolve result "body/0/0/0" = Some r
                    /\ holds_at result r None "Guardar".
Proof.
  split; [reflexivity|].
  destruct (extractContent plain_document) as [extracted|e] eqn:Hex; [|discriminate].
  destruct (applyEntries_translation any_name html_document plain_document "es" extracted
              [("body/1#alt", VStr "Un gato"); ("head/0/0", VStr "Hola");
               ("body/0/0/0", VStr "Guardar")] Hex)
    as (result & Happly & Hall & _).
  - reflexivity.
  - repeat constructor; simpl; intuition discriminate.
  - vm_compute in Hex. injection Hex as <-.
    intros key v [E | [E | [E | []]]]; injection E as <- <-;
      (split; [simpl; tauto | eexists; split; reflexivity]).
  - exists result. split; [exact Happly|].
    apply (Hall "body/0/0/0" "Guardar"). right. right. left. reflexivity.
Defined.

End TranslationInstances.

(* ================================================================== *)
(** ** [localizeHtml] with a provider that translates entry by entry *)

Lemma define_plain_keys (k : string) (v : value) (o : object) :
  JsObject.array_index k = None ->
  (In k (JsObject.keys o) /\ JsObject.keys (JsObject.define k v o) = JsObject.keys o)
  \/ (~ In k (JsObject.keys o)
      /\ JsObject.keys (JsObject.define k v o) = JsObject.keys o ++ [k]).
Proof.
  intro Hk. unfold JsObject.keys. induction o as [|[k0 v0] o IH]; simpl.
  - right. split; [tauto | reflexivity].
  - destruct (String.eqb_spec k k0) as [->|Hne].
    + left. split; [now left | reflexivity].
    + unfold JsObject.goes_before. rewrite Hk. simpl.
      destruct IH as [[Hin E] | [Hni E]]; rewrite E.
      * left. split; [now right | reflexivity].
      * right. split; [intros [H | H]; [now symmetry in H | contradiction] | reflexivity].
Qed.

Lemma plain_set (k : string) (v : value) (o : object) :
  JsObject.array_index k = None -> k <> "__proto__" ->
  plain o -> plain (JsObject.set k v o).
Proof.
  intros Hk Hp [Hnd Hall]. unfold JsObject.set.
  apply String.eqb_neq in Hp. rewrite Hp. apply String.eqb_neq in Hp.
  unfold plain.
  destruct (define_plain_keys k v o Hk) as [[_ ->] | [Hni ->]]; [now split|].
  split.
  - apply NoDup_app; [exact Hnd | repeat constructor; intros [] |].
    intros x Hx [<- | []]. contradiction.
  - apply Forall_app. split; [exact Hall | repeat constructor; assumption].
Qed.

Lemma plain_wf (o : object) : plain o -> JsObject.wf o.
Proof.
  intros [Hnd Hall]. split; [exact Hnd|]. split.
  - clear Hnd. induction o as [|[k v] o IH]; constructor.
    + apply IH. now inversion Hall.
    + inversion Hall as [|? ? _ Hrest]; subst. clear IH Hall.
      induction o as [|[k' v'] o IH]; constructor.
      * inversion Hrest as [|? ? [Hk' _] _]; subst.
        unfold JsObject.in_order. simpl. rewrite Hk'.
        destruct (JsObject.array_index k); reflexivity.
      * apply IH. now inversion Hrest.
  - intro Hin. rewrite Forall_forall in Hall. destruct (Hall _ Hin) as [_ H].
    now apply H.
Qed.

Lemma digits_lack (c : ascii) (k : string) :
  JsNumber.digit 10 c = None ->
  forallb (fun c' => match JsNumber.digit 10 c' with Some _ => true | None => false end)
          (list_ascii_of_string k) = true ->
  JsString.lacks c k = true.
Proof.
  intros Hc. induction k as [|a k IH]; intro Hall; [reflexivity|].
  simpl in Hall |- *. apply andb_true_iff in Hall. destruct Hall as [Ha Hrest].
  rewrite (IH Hrest), andb_true_r.
  destruct (Ascii.eqb_spec a c) as [->|_]; [|reflexivity].
  rewrite Hc in Ha. discriminate.
Qed.

(** A key with a character that is no digit is no array index. *)
Lemma array_index_None (c : ascii) (k : string) :
  JsNumber.digit 10 c = None -> JsString.lacks c k = false ->
  JsObject.array_index k = None.
Proof.
  intros Hc Hk. destruct k as [|a k]; [reflexivity|].
  destruct (Ascii.eqb_spec a "0") as [->|Hne].
  - destruct k; [|reflexivity].
    cbn [JsString.lacks] in Hk. rewrite andb_true_r in Hk. apply negb_false_iff in Hk.
    apply Ascii.eqb_eq in Hk. subst c. discriminate.
  - assert (Hform : JsObject.array_index (String a k)
                    = if forallb (fun c' => match JsNumber.digit 10 c' with
                                            | Some _ => true | None => false end)
                                 (list_ascii_of_string (String a k))
                      then match JsNumber.digits 10 (String a k) 0%N false with
                           | Some n => if (n <=? 4294967294)%N then Some n else None
                           | None => None
                           end
                      else None).
    { destruct a as [[] [] [] [] [] [] [] []]; try reflexivity.
      exfalso. apply Hne. reflexivity. }
    rewrite Hform.
    destruct (forallb _ _) eqn:E; [|reflexivity].
    rewrite (digits_lack c _ Hc E) in Hk. discriminate.
Qed.

Lemma emitted_key_slash (t0 : string) (attrs0 : list (string * string)) (cs0 : list node)
    (top : ref) (key : string) (v : value) :
  Dom.head (Element t0 attrs0 cs0) = Some top
  \/ Dom.body (Element t0 attrs0 cs0) = Some top ->
  emitted (Element t0 attrs0 cs0) top key v ->
  JsString.lacks "/" key = false.
Proof.
  intros Htop He.
  destruct (top_facts t0 attrs0 attrs0 cs0 top Htop)
    as (h & -> & Helem & _ & _ & Htruthy & _).
  assert (Hkey : forall r attribute,
             kept_path (Element t0 attrs0 cs0) [h] r ->
             JsString.lacks "/" (Dom.getPath (Element t0 attrs0 cs0) r attribute) = false).
  { intros r attribute Hpath.
    destruct (getPath_descend (Element t0 attrs0 cs0) (Element t0 attrs0 cs0) h eq_refl
                Helem r Hpath) as (indices & Hloop & _).
    unfold Dom.getPath. rewrite Hloop, Htruthy.
    destruct attribute as [a|]; [destruct (JsString.truthy a)|];
      rewrite ?lacks_append; simpl; rewrite ?andb_false_r; reflexivity. }
  destruct He; apply Hkey; assumption.
Qed.

Section WalkInvariant.

Variable root : node.
Variable top : ref.
Variable P : object -> Prop.
Hypothesis P_set :
  forall key v o, emitted root top key v -> P o -> P (JsObject.set key v o).

Let node_keeps (n : node) : Prop :=
  forall r extracted extracted',
    kept_path root top r -> r <> top ->
    Dom.node_at root r = Some n ->
    processNode root n r extracted = Ok extracted' ->
    P extracted -> P extracted'.

Lemma processChildren_invariant (cs : list node) :
  Forall node_keeps cs ->
  forall i r extracted extracted',
    kept_path root top r ->
    (forall j c, nth_error cs j = Some c ->
                 nth_error (Dom.childNodes_at root r) (i + j) = Some c) ->
    processChildren root cs i r extracted = Ok extracted' ->
    P extracted -> P extracted'.
Proof.
  induction 1 as [|c cs Hc _ IH]; intros i r o o' Hpath Hcs Hrun Ho; simpl in Hrun.
  - injection Hrun as <-. exact Ho.
  - assert (Hi : nth_error (Dom.childNodes_at root r) i = Some c)
      by (rewrite <- (Nat.add_0_r i); apply Hcs; reflexivity).
    assert (Hcs' : forall j c', nth_error cs j = Some c' ->
                     nth_error (Dom.childNodes_at root r) (S i + j) = Some c')
      by (intros j c' Hj; replace (S i + j) with (i + S j) by lia; apply Hcs; exact Hj).
    destruct (Dom.localizable_child c) eqn:Hkeep; [|exact (IH _ _ _ _ Hpath Hcs' Hrun Ho)].
    destruct (processNode root c (i :: r) o) as [o1|] eqn:Hproc; [|discriminate].
    apply (IH _ _ _ _ Hpath Hcs' Hrun).
    apply (Hc (i :: r) o o1); auto.
    + econstructor; eassumption.
    + now apply kept_path_child_ne with (root := root).
    + now rewrite node_at_child.
Qed.

Lemma processNode_invariant (n : node) : node_keeps n.
Proof.
  induction n as [t attrs cs IH | d | d] using node_induction;
    intros r ex ex' Hpath Hne Hn Hrun Hex.
  - rewrite processNode_Element in Hrun.
    destruct (Dom.under_unlocalizable root r) eqn:Hunder;
      [injection Hrun as <-; exact Hex|].
    assert (Hcs : forall j c, nth_error cs j = Some c ->
                              nth_error (Dom.childNodes_at root r) (0 + j) = Some c)
      by (intros j c Hj; unfold Dom.childNodes_at; rewrite Hn; exact Hj).
    destruct (Dom.LOCALIZABLE_ATTRIBUTES (JsString.toLowerCase t)) as [names| |] eqn:Hlook;
      [| discriminate |].
    + apply (processChildren_invariant cs IH _ _ _ _ Hpath Hcs Hrun).
      assert (Hattrs : forall l o, (forall a, In a l -> In a names) -> P o ->
                                   P (extract_attributes root r attrs l o)).
      { induction l as [|a l IHl]; intros o Hsub Ho; simpl; [exact Ho|].
        apply IHl; [intros; apply Hsub; now right|].
        destruct (Dom.getAttribute a attrs) as [s|] eqn:Hs; [|exact Ho].
        destruct (JsString.truthy s) eqn:Hts; [|exact Ho].
        apply P_set; [|exact Ho].
        eapply emitted_attribute; eauto. apply Hsub. now left. }
      apply Hattrs; auto.
    + exact (processChildren_invariant cs IH _ _ _ _ Hpath Hcs Hrun Hex).
  - simpl in Hrun.
    destruct (Dom.under_unlocalizable root r) eqn:Hunder;
      [injection Hrun as <-; exact Hex|].
    destruct (JsString.truthy (JsString.trim d)); injection Hrun as <-; [|exact Hex].
    apply P_set; [|exact Hex]. now apply emitted_text.
  - simpl in Hrun. destruct (Dom.under_unlocalizable root r);
      injection Hrun as <-; exact Hex.
Qed.

Lemma walk_invariant (extracted extracted' : object) :
  processChildren root (Dom.childNodes_at root top) 0 top extracted = Ok extracted' ->
  P extracted -> P extracted'.
Proof.
  apply processChildren_invariant.
  - apply Forall_forall. intros c _. apply processNode_invariant.
  - constructor.
  - auto.
Qed.

End WalkInvariant.

(** The extracted map is an object with distinct keys in creation
    order. *)
Lemma extractContent_plain (document : node) (extracted : object) :
  extractContent document = Ok extracted -> plain extracted.
Proof.
  intro Hex. pose proof Hex as Hrun. unfold extractContent in Hrun.
  destruct (Dom.head document) as [h|] eqn:Hh; [|discriminate].
  destruct (processChildren document (Dom.childNodes_at document h) 0 h [])
    as [o1|] eqn:Hwalk1; [|discriminate].
  destruct (Dom.body document) as [b|] eqn:Hb; [|discriminate].
  destruct document as [t0 attrs0 cs0 | d | d]; try discriminate.
  assert (Hset : forall top,
             Dom.head (Element t0 attrs0 cs0) = Some top
             \/ Dom.body (Element t0 attrs0 cs0) = Some top ->
             forall key v o, emitted (Element t0 attrs0 cs0) top key v ->
                             plain o -> plain (JsObject.set key v o)).
  { intros top Htop key v o He Ho.
    pose proof (emitted_key_slash t0 attrs0 cs0 top key v Htop He) as Hslash.
    apply plain_set; [now apply (array_index_None "/") | | exact Ho].
    intros ->. discriminate. }
  apply (walk_invariant _ b plain (Hset b (or_intror Hb)) o1 extracted Hrun).
  apply (walk_invariant _ h plain (Hset h (or_introl Hh)) [] o1 Hwalk1).
  split; constructor.
Qed.

Lemma translated_keys (translate : string -> value -> value) (o : object) :
  JsObject.keys (translated translate o) = JsObject.keys o.
Proof. unfold JsObject.keys, translated. rewrite map_map. reflexivity. Qed.

Lemma translated_plain (translate : string -> value -> value) (o : object) :
  plain o -> plain (translated translate o).
Proof. unfold plain. now rewrite translated_keys. Qed.

Lemma translated_concat (translate : string -> value -> value) (chunks : list object) :
  concat (map (translated translate) chunks) = translated translate (concat chunks).
Proof. unfold translated. now rewrite concat_map. Qed.

Section Translating.

Variable Env : Type.
Variable signal_aborted : Env -> bool.
Variable fetch : request -> Env -> result response * Env.
Variable createId : Env -> string * Env.
Variable progressCallback : option (progress -> Env -> result unit * Env).
Variable localeCodeSchema : string -> bool.
Variable ZodError : localizationParams -> error.
Variable valid_attribute_name : string -> bool.
Variable in_html_namespace : ref -> bool.
Variable cfg : config.
Variable translate : string -> value -> value.

Hypothesis no_abort : never_aborted signal_aborted.
Hypothesis translating : translation fetch translate.
Hypothesis callback_ok : callback_returns progressCallback.

Lemma localizeChunk_translated (sourceLocale : option string) (targetLocale : string)
    (data : object) (reference : option (list (string * object)))
    (workflowId : string) (fast : bool) (w : Engine.world Env) :
  exists w',
    Engine.localizeChunk signal_aborted fetch cfg sourceLocale targetLocale data
                         reference workflowId fast w
    = (Ok (VObj (translated translate data)), w').
Proof.
  unfold Engine.localizeChunk, bind, aborted. rewrite no_abort.
  unfold try_catch, Engine.localizeChunk_try, bind, await_fetch.
  destruct (translating (chunk_request cfg sourceLocale targetLocale data reference
                                       workflowId fast) (env w))
    as (res & e' & o & -> & Hok & Hjson & Hdata).
  rewrite Hok. simpl. unfold lift. rewrite Hjson. simpl. rewrite Hdata. simpl.
  eexists. reflexivity.
Qed.

Lemma _localizeRaw_loop_translated (params : localizationParams) (workflowId : string)
    (len : nat) (chunks : list object) :
  forall i processed w,
    exists w',
      Engine._localizeRaw_loop signal_aborted fetch progressCallback cfg params
                               workflowId len chunks i processed w
      = (Ok (processed ++ map VObj (map (translated translate) chunks)), w').
Proof.
  induction chunks as [|chunk rest IH]; intros i processed w; simpl.
  - exists w. now rewrite app_nil_r.
  - unfold bind at 1. unfold aborted. rewrite no_abort.
    unfold bind at 1.
    destruct (localizeChunk_translated (sourceLocale params) (targetLocale params) chunk
                (reference params) workflowId
                (match fast params with Some b => b | None => false end) w)
      as (w1 & ->).
    unfold bind at 1.
    match goal with |- context [Engine.call_progress _ ?p w1] =>
      destruct (call_progress_returns Env progressCallback callback_ok p w1)
        as (w2 & ->) end.
    destruct (IH (S i) (processed ++ [VObj (translated translate chunk)]) w2)
      as (w3 & ->).
    exists w3. now rewrite <- app_assoc.
Qed.

(** With such a provider [_localizeRaw] returns the payload translated
    entry by entry. *)
Lemma _localizeRaw_translated (payload : object) (params : localizationParams)
    (w : Engine.world Env) :
  valid_params localeCodeSchema params = true ->
  plain payload ->
  exists w',
    Engine._localizeRaw signal_aborted fetch createId progressCallback localeCodeSchema
                        ZodError cfg payload params w
    = (Ok (translated translate payload), w').
Proof.
  intros Hvalid Hplain. unfold Engine._localizeRaw, bind, aborted.
  rewrite no_abort, Hvalid. simpl.
  rewrite (payloadSchema_parse_wf payload (plain_wf _ Hplain)).
  unfold Engine.call_createId. destruct (createId (env w)) as [id e1].
  destruct (_localizeRaw_loop_translated params id
              (length (extractPayloadChunks cfg payload))
              (extractPayloadChunks cfg payload) 0 []
              {| env := e1; sent := sent w |}) as (w' & ->).
  exists w'. unfold ret. simpl. f_equal. f_equal.
  rewrite Object_assign_concat, translated_concat.
  pose proof (extractPayloadChunks_concat cfg payload (plain_wf _ Hplain)) as Hc.
  unfold JsObject.entries in Hc. rewrite map_id in Hc. rewrite Hc.
  apply (assign_appends (translated translate payload) []).
  apply plain_wf. now apply translated_plain.
Qed.

(** X25: [localizeHtml] from end to end with a provider that translates
    entry by entry.  Let the caller never abort, the callback return,
    the parameters be valid, jsdom accept the attribute names, the walk
    of the document return the map [extracted], and the provider give a
    string that is not blank for every entry of the map.  Then
    [localizeHtml] returns a document in which every key of the map
    resolves to a node that holds the translation of the entry: as its
    text for a text node, as the value of the attribute for an
    attribute. *)
Theorem localizeHtml_translation (document : node) (extracted : object)
    (params : localizationParams) (w : Engine.world Env) :
  valid_params localeCodeSchema params = true ->
  (forall a, In a ["lang"; "content"; "alt"; "placeholder"; "title"] ->
             valid_attribute_name a = true) ->
  extractContent document = Ok extracted ->
  (forall key v, In (key, v) extracted ->
                 exists s, translate key v = VStr s
                           /\ JsString.truthy (JsString.trim s) = true) ->
  exists result w',
    Engine.localizeHtml signal_aborted fetch createId progressCallback localeCodeSchema
                        ZodError valid_attribute_name in_html_namespace cfg document params w
    = (Ok result, w')
    /\ forall key v,
         In (key, v) extracted ->
         exists r s, translate key v = VStr s
                     /\ resolve result key = Some r
                     /\ holds_at result r (attribute_of key) s.
Proof.
  intros Hvalid Hnames Hex Hgood.
  pose proof (extractContent_plain document extracted Hex) as Hplain.
  destruct (_localizeRaw_translated extracted params w Hvalid Hplain) as (w' & Hraw).
  destruct document as [t0 attrs0 cs0 | d | d]; try discriminate.
  set (attrs0' := Dom.set_attr "lang" (targetLocale params) attrs0).
  assert (Hnames' : forall a, In a ["content"; "alt"; "placeholder"; "title"] ->
                              valid_attribute_name a = true)
    by (intros a Ha; apply Hnames; now right).
  destruct (applyEntries_translated valid_attribute_name in_html_namespace t0 attrs0 attrs0' cs0 extracted
              Hex Hnames' (translated translate extracted) (Element t0 attrs0' cs0)
              (same_outline_refl _))
    as (result & Happly & Hsame & Hall & _).
  { change (map fst (translated translate extracted))
      with (JsObject.keys (translated translate extracted)).
    rewrite translated_keys. exact (proj1 Hplain). }
  { intros key v' Hin. unfold translated in Hin. apply in_map_iff in Hin.
    destruct Hin as ([k v] & E & Hin). simpl in E. injection E as <- <-.
    split; [apply in_map_iff; exists (k, v); split; [reflexivity | exact Hin]|].
    destruct (Hgood k v Hin) as (s & -> & Hs). eauto. }
  exists result, w'. split.
  - unfold Engine.localizeHtml, bind, aborted. rewrite no_abort.
    unfold try_catch, bind, lift. rewrite Hex, Hraw.
    unfold setAttribute. rewrite (Hnames "lang") by (now left).
    replace (if in_html_namespace [] then JsString.asciiLowercase "lang" else "lang")
      with "lang" by (now destruct (in_html_namespace [])).
    fold attrs0'. unfold JsObject.entries. rewrite Happly. reflexivity.
  - intros key v Hin. destruct (Hgood key v Hin) as (s & Hs & _).
    assert (Hkey : In key (JsObject.keys extracted))
      by (apply in_map_iff; exists (key, v); split; [reflexivity | exact Hin]).
    destruct (keyed_exists valid_attribute_name t0 attrs0 attrs0' cs0 extracted Hex
                Hnames' key Hkey) as (r & attribute & _ & Hres & _).
    exists r, s. split; [exact Hs|]. split.
    + rewrite <- (resolve_outline _ _ Hsame). exact Hres.
    + apply (Hall key s r); [|exact Hres].
      unfold translated. apply in_map_iff. exists (key, v). split; [|exact Hin].
      simpl. now rewrite Hs.
Qed.

End Translating.

Section TranslatingInstances.

Import Example.

(** X25 at [plain_document] and a provider that puts every string in
    brackets. *)
Lemma localizeHtml_translation_witness :
  fst (Engine.localizeHtml no_signal (bracketing_provider (E := unit)) createId None
         localeCodeSchema ZodError any_name html_document config25 plain_document params quiet)
  = Ok (Element "HTML" [("lang", "es")]
          [Element "HEAD" []
             [Element "TITLE" [] [Text "[Hi]"];
              Element "META" [("name", "description"); ("content", "[A page]")] []];
           Element "BODY" []
             [Element "DIV" [] [Element "P" [] [Text "[Keep]"]];
              Element "IMG" [("alt", "[A cat]")] []]])
  /\ exists result r,
       fst (Engine.localizeHtml no_signal (bracketing_provider (E := unit)) createId None
              localeCodeSchema ZodError any_name html_document config25 plain_document params quiet)
       = Ok result
       /\ resolve result "body/0/0/0" = Some r
       /\ holds_at result r None "[Keep]".
Proof.
  split; [reflexivity|].
  destruct (extractContent plain_document) as [extracted|e] eqn:Hex; [|discriminate].
  destruct (localizeHtml_translation unit no_signal bracketing_provider createId None
              localeCodeSchema ZodError any_name html_document config25 bracket) with
    (document := plain_document) (extracted := extracted) (params := params) (w := quiet)
    as (result & w' & Hrun & Hall).
  - intro e. reflexivity.
  - intros req e. eexists. eexists. eexists. repeat split.
  - intros callback H. discriminate.
  - reflexivity.
  - reflexivity.
  - exact Hex.
  - vm_compute in Hex. injection Hex as <-.
    intros key v [E | [E | [E | [E | []]]]]; injection E as <- <-;
      eexists; split; reflexivity.
  - assert (Hin : In ("body/0/0/0", VStr "Keep") extracted)
      by (vm_compute in Hex; injection Hex as <-; simpl; tauto).
    destruct (Hall _ _ Hin) as (r & s & Hs & Hres & Hold).
    injection Hs as <-.
    exists result, r. rewrite Hrun. auto.
Defined.

End TranslatingInstances.

(* ================================================================== *)
(** ** Bucket path patterns *)

Section BucketFacts.

Import Buckets.

Lemma split_go_nonempty (sep : ascii) (s : string) :
  forall cur, JsString.split_go sep s cur <> [].
Proof.
  induction s as [|c s IH]; intro cur; simpl; [discriminate|].
  destruct (Ascii.eqb c sep); [discriminate | apply IH].
Qed.

Lemma join_split_go (sep : ascii) (s : string) :
  forall cur, JsString.join (String sep "") (JsString.split_go sep s cur)
              = (cur ++ s)%string.
Proof.
  induction s as [|c s IH]; intro cur; simpl.
  - now rewrite append_nil_r.
  - destruct (Ascii.eqb_spec c sep) as [->|_].
    + pose proof (split_go_nonempty sep s "") as Hne. specialize (IH ""%string).
      destruct (JsString.split_go sep s "") as [|x xs]; [contradiction|].
      change (JsString.join (String sep "") (cur :: x :: xs))
        with (cur ++ String sep "" ++ JsString.join (String sep "") (x :: xs))%string.
      rewrite IH. reflexivity.
    + rewrite IH, append_assoc. reflexivity.
Qed.

(** Joining the segments of a path gives the path back. *)
Lemma join_split (sep : ascii) (s : string) :
  JsString.join (String sep "") (JsString.split sep s) = s.
Proof. unfold JsString.split. apply join_split_go. Qed.

Lemma prefix_append (t post : string) : prefix t (t ++ post)%string = true.
Proof.
  induction t as [|c t IH]; simpl; [destruct post; reflexivity|].
  destruct (ascii_dec c c); [exact IH | contradiction].
Qed.

Lemma includes_middle (pre t post : string) :
  JsString.includes (pre ++ t ++ post)%string t = true.
Proof.
  induction pre as [|c pre IH].
  - change ("" ++ t ++ post)%string with (t ++ post)%string.
    pose proof (prefix_append t post) as Hp.
    destruct (t ++ post)%string; cbn [JsString.includes]; rewrite Hp; reflexivity.
  - change (String c pre ++ t ++ post)%string with (String c (pre ++ t ++ post)%string).
    cbn [JsString.includes].
    destruct (prefix t (String c (pre ++ t ++ post)%string)); [reflexivity | exact IH].
Qed.

Lemma prefix_first (t s : string) (c : ascii) :
  prefix (String c t) s = true -> exists s', s = String c s'.
Proof.
  destruct s as [|a s]; simpl; [discriminate|].
  destruct (ascii_dec c a) as [->|]; [eauto | discriminate].
Qed.

(** The first occurrence of the placeholder in a segment whose text
    before it has no bracket. *)
Lemma indexOf_placeholder (pre post : string) :
  JsString.lacks "[" pre = true ->
  forall i, indexOf_from (pre ++ placeholder ++ post)%string placeholder i
            = Some (i + String.length pre).
Proof.
  intro Hpre. induction pre as [|c pre IH]; intro i.
  - change ("" ++ placeholder ++ post)%string with (placeholder ++ post)%string.
    pose proof (prefix_append placeholder post) as Hp.
    destruct (placeholder ++ post)%string; cbn [indexOf_from String.length];
      rewrite Hp; f_equal; lia.
  - cbn [JsString.lacks] in Hpre. apply andb_true_iff in Hpre.
    destruct Hpre as [Hc Hpre]. apply negb_true_iff in Hc.
    change ((String c pre) ++ placeholder ++ post)%string
      with (String c (pre ++ placeholder ++ post)%string).
    cbn [indexOf_from].
    assert (Hno : prefix placeholder (String c (pre ++ placeholder ++ post)%string) = false).
    { destruct (prefix placeholder _) eqn:E; [|reflexivity].
      destruct (prefix_first _ _ _ E) as (s' & Es). injection Es as Ec _.
      rewrite Ec, Ascii.eqb_refl in Hc. discriminate. }
    rewrite Hno, (IH Hpre). cbn [String.length]. f_equal. lia.
Qed.

Lemma substring_to_append (pre rest : string) :
  substring_to (String.length pre) (pre ++ rest)%string = pre.
Proof.
  induction pre as [|c pre IH]; simpl; [destruct rest; reflexivity|]. now rewrite IH.
Qed.

Lemma substring_from_append (pre rest : string) :
  substring_from (String.length pre) (pre ++ rest)%string = rest.
Proof. induction pre as [|c pre IH]; simpl; [destruct rest; reflexivity | exact IH]. Qed.

Lemma length_append (a b : string) :
  String.length (a ++ b)%string = String.length a + String.length b.
Proof. induction a as [|c a IH]; simpl; [reflexivity | now rewrite IH]. Qed.

Lemma findIndex_from_first {A} (p : A -> bool) (before after : list A) (x : A) :
  forallb (fun y => negb (p y)) before = true -> p x = true ->
  forall i, findIndex_from p (before ++ x :: after) i = Some (i + length before).
Proof.
  intros Hb Hx. induction before as [|y before IH]; intro i; simpl.
  - rewrite Hx. f_equal. lia.
  - simpl in Hb. apply andb_true_iff in Hb. destruct Hb as [Hy Hb].
    apply negb_true_iff in Hy. rewrite Hy, (IH Hb). f_equal. lia.
Qed.

Lemma findIndex_from_none {A} (p : A -> bool) (xs : list A) :
  forallb (fun y => negb (p y)) xs = true ->
  forall i, findIndex_from p xs i = None.
Proof.
  induction xs as [|y xs IH]; intros Hb i; simpl; [reflexivity|].
  simpl in Hb. apply andb_true_iff in Hb. destruct Hb as [Hy Hb].
  apply negb_true_iff in Hy. rewrite Hy. now apply IH.
Qed.

Lemma assign_at_middle {A} (before after : list A) (x y : A) :
  assign_at (before ++ x :: after) (length before) y = before ++ y :: after.
Proof. induction before as [|z before IH]; simpl; [reflexivity | now rewrite IH]. Qed.

Lemma nth_error_middle {A} (before after : list A) (x : A) :
  nth_error (before ++ x :: after) (length before) = Some x.
Proof. induction before as [|z before IH]; simpl; [reflexivity | exact IH]. Qed.


Lemma prefix_split (t s : string) :
  prefix t s = true -> exists b, s = (t ++ b)%string.
Proof.
  revert s. induction t as [|c t IH]; intros s H.
  - exists s. reflexivity.
  - destruct s as [|a s]; simpl in H; [discriminate|].
    destruct (ascii_dec c a) as [->|]; [|discriminate].
    destruct (IH s H) as (b & ->). exists b. reflexivity.
Qed.

Lemma includes_split (s t : string) :
  JsString.includes s t = true -> exists a b, s = (a ++ t ++ b)%string.
Proof.
  induction s as [|c s IH]; cbn [JsString.includes]; intro H.
  - destruct (prefix t "") eqn:E; [|discriminate].
    destruct (prefix_split _ _ E) as (b & Hb). exists ""%string, b. exact Hb.
  - destruct (prefix t (String c s)) eqn:E.
    + destruct (prefix_split _ _ E) as (b & Hb). exists ""%string, b. exact Hb.
    + destruct (IH H) as (a & b & ->). exists (String c a), b. reflexivity.
Qed.

Lemma split_go_segment (sep : ascii) (s : string) :
  forall cur x, In x (JsString.split_go sep s cur) ->
                exists a b, (cur ++ s)%string = (a ++ x ++ b)%string.
Proof.
  induction s as [|c s IH]; intros cur x Hin; simpl in Hin.
  - destruct Hin as [<- | []]. exists ""%string, ""%string. reflexivity.
  - destruct (Ascii.eqb c sep).
    + destruct Hin as [<- | Hin].
      * exists ""%string, (String c s). reflexivity.
      * destruct (IH _ _ Hin) as (a & b & E). simpl in E. rewrite E.
        exists (cur ++ String c a)%string, b. rewrite append_assoc. reflexivity.
    + destruct (IH _ _ Hin) as (a & b & E). rewrite append_assoc in E. simpl in E.
      eauto.
Qed.

(** A text that a segment of a path includes is included in the path. *)
Lemma segment_includes (sep : ascii) (s t x : string) :
  In x (JsString.split sep s) -> JsString.includes x t = true ->
  JsString.includes s t = true.
Proof.
  intros Hin Hx. destruct (split_go_segment sep s "" x Hin) as (a & b & E).
  simpl in E. destruct (includes_split _ _ Hx) as (a' & b' & ->).
  rewrite E.
  replace (a ++ (a' ++ t ++ b') ++ b)%string with ((a ++ a') ++ t ++ (b' ++ b))%string
    by (rewrite !append_assoc; reflexivity).
  apply includes_middle.
Qed.

Lemma includes_tail (c : ascii) (s t : string) :
  JsString.includes (String c s) t = false ->
  prefix t (String c s) = false /\ JsString.includes s t = false.
Proof.
  cbn [JsString.includes]. destruct (prefix t (String c s)); [discriminate | auto].
Qed.

Lemma split_string_absent (t s : string) :
  JsString.includes s t = false ->
  forall cur, split_string_go t s cur 0 = [(cur ++ s)%string].
Proof.
  induction s as [|c s IH]; intros H cur.
  - simpl. now rewrite append_nil_r.
  - destruct (includes_tail _ _ _ H) as [Hp Hs].
    cbn [split_string_go]. rewrite Hp, (IH Hs), append_assoc. reflexivity.
Qed.

Lemma replaceAll_absent (t replacement s : string) :
  JsString.includes s t = false ->
  forall before, replaceAll_go t replacement before s 0 = s.
Proof.
  induction s as [|c s IH]; intros H before; [reflexivity|].
  destruct (includes_tail _ _ _ H) as [Hp Hs].
  cbn [replaceAll_go]. rewrite Hp, (IH Hs). reflexivity.
Qed.

Variable sep : ascii.
Variable path_resolve : string -> string.
Variable path_relative_to_cwd : string -> string.
Variable glob_files : string -> list string.

Local Abbreviation expand :=
  (expandPlaceholderedGlob sep path_resolve path_relative_to_cwd glob_files).

Lemma map_attempt_Done {A B} (f : A -> attempt B) (g : A -> B) (xs : list A) :
  (forall x, In x xs -> f x = Done (g x)) -> map_attempt f xs = Done (map g xs).
Proof.
  induction xs as [|x xs IH]; intro H; simpl; [reflexivity|].
  rewrite (H x) by (now left). rewrite IH; [reflexivity|].
  intros y Hy. apply H. now right.
Qed.

(** X26: a pattern without the placeholder.  If the normalised pattern
    lies within the working directory and contains neither ["**"] nor
    ["[locale]"], [expandPlaceholderedGlob] throws nothing and returns
    the paths, relative to the working directory, of the files that
    [glob] finds for the pattern itself, as they are and in that
    order. *)
Theorem expandPlaceholderedGlob_without_placeholder (_pathPattern sourceLocale : string) :
  let pathPattern := path_relative_to_cwd (path_resolve _pathPattern) in
  startsWith (path_relative_to_cwd pathPattern) ".." = false ->
  JsString.includes pathPattern "**" = false ->
  JsString.includes pathPattern placeholder = false ->
  expand _pathPattern sourceLocale
  = Done (map path_relative_to_cwd (glob_files pathPattern)).
Proof.
  intros pathPattern Hin Hrec Hnone.
  unfold expandPlaceholderedGlob. fold pathPattern. rewrite Hin, Hrec.
  unfold split_string. rewrite (split_string_absent _ _ Hnone). cbn [length Nat.ltb Nat.leb].
  assert (Hsegs : forallb (fun y => negb (JsString.includes y placeholder))
                          (JsString.split sep pathPattern) = true).
  { apply forallb_forall. intros x Hx. apply negb_true_iff.
    destruct (JsString.includes x placeholder) eqn:E; [|reflexivity].
    rewrite (segment_includes sep pathPattern placeholder x Hx E) in Hnone.
    discriminate. }
  unfold findIndex. rewrite (findIndex_from_none _ _ Hsegs).
  unfold replaceAll. rewrite (replaceAll_absent _ _ _ Hnone).
  rewrite (map_attempt_Done _ (fun p => p)); [now rewrite map_id|].
  intros p _. unfold placeholderedPath. now rewrite join_split.
Qed.

(** What the callback makes of a path whose segment at the place of the
    placeholder begins like the segment of the pattern. *)
Lemma placeholderedPath_segment (sourceLocale sourcePath pre rest : string)
    (sbefore safter : list string) :
  JsString.split sep sourcePath = sbefore ++ (pre ++ sourceLocale ++ rest)%string :: safter ->
  placeholderedPath sep (Some (length sbefore)) (Some (String.length pre))
                    sourceLocale sourcePath
  = Done (JsString.join (String sep "")
            (sbefore ++ (pre ++ placeholder ++ rest)%string :: safter)).
Proof.
  intro Hsplit.
  assert (H1 : substring_to (String.length pre) (pre ++ sourceLocale ++ rest)%string = pre)
    by apply substring_to_append.
  assert (H2 : substring_from (String.length pre + String.length sourceLocale)
                 (pre ++ sourceLocale ++ rest)%string = rest)
    by (rewrite <- length_append, <- append_assoc; apply substring_from_append).
  unfold placeholderedPath. rewrite Hsplit, nth_error_middle.
  rewrite assign_at_middle, H1, H2. reflexivity.
Qed.

(** The callback returns for a path with a segment at the place of the
    placeholder, and throws for a shorter path. *)
Lemma placeholderedPath_outcome (k i : nat) (sourceLocale sourcePath : string) :
  (k < length (JsString.split sep sourcePath) ->
   exists out, placeholderedPath sep (Some k) (Some i) sourceLocale sourcePath = Done out)
  /\ (length (JsString.split sep sourcePath) <= k ->
      placeholderedPath sep (Some k) (Some i) sourceLocale sourcePath = Failed no_segment).
Proof.
  unfold placeholderedPath.
  destruct (nth_error (JsString.split sep sourcePath) k) as [chunk|] eqn:E; split; intro H.
  - eauto.
  - apply nth_error_None in H. congruence.
  - apply nth_error_None in E. lia.
  - reflexivity.
Qed.

Lemma map_attempt_Failed {A B} (f : A -> attempt B) (e : failure) (xs : list A) :
  (forall x, In x xs -> (exists y, f x = Done y) \/ f x = Failed e) ->
  Exists (fun x => f x = Failed e) xs ->
  map_attempt f xs = Failed e.
Proof.
  intros Hall Hex. induction Hex as [x xs Hx | x xs _ IH]; cbn [map_attempt].
  - now rewrite Hx.
  - destruct (Hall x (or_introl eq_refl)) as [(y & ->) | ->]; [|reflexivity].
    rewrite IH; [reflexivity|]. intros z Hz. apply Hall. now right.
Qed.

(** X27: a pattern with the placeholder.  Let the normalised pattern
    pass the three checks, and let its first segment with the
    placeholder be [pre ++ "[locale]" ++ post], with no bracket in
    [pre], after the segments [before].  If the relative path of every
    file that [glob] finds for the source pattern has a segment at that
    place, the function returns one path per file, in the order of the
    files, and for each file whose segment there is
    [pre ++ sourceLocale ++ rest] the path returned is the path of the
    file with that segment replaced by [pre ++ "[locale]" ++ rest]: the
    source locale is put back as the placeholder, and nothing else of
    the path changes.  If the path of some file has no segment at that
    place, the function throws the [TypeError] of a read on
    [undefined]. *)
Theorem expandPlaceholderedGlob_placeholder (_pathPattern sourceLocale : string)
    (before after : list string) (pre post : string) :
  let pathPattern := path_relative_to_cwd (path_resolve _pathPattern) in
  let files := glob_files (replaceAll placeholder sourceLocale pathPattern) in
  let segments file := JsString.split sep (path_relative_to_cwd file) in
  startsWith (path_relative_to_cwd pathPattern) ".." = false ->
  JsString.includes pathPattern "**" = false ->
  (2 <? length (split_string placeholder pathPattern)) = false ->
  JsString.split sep pathPattern = before ++ (pre ++ placeholder ++ post)%string :: after ->
  forallb (fun segment => negb (JsString.includes segment placeholder)) before = true ->
  JsString.lacks "[" pre = true ->
  (Forall (fun file => length before < length (segments file)) files ->
   exists paths,
     expand _pathPattern sourceLocale = Done paths
     /\ Forall2 (fun file out =>
                   forall sbefore rest safter,
                     segments file
                     = sbefore ++ (pre ++ sourceLocale ++ rest)%string :: safter ->
                     length sbefore = length before ->
                     out = JsString.join (String sep "")
                             (sbefore ++ (pre ++ placeholder ++ rest)%string :: safter))
                files paths)
  /\ (Exists (fun file => length (segments file) <= length before) files ->
      expand _pathPattern sourceLocale = Failed no_segment).
Proof.
  intros pathPattern files segments Hin Hrec Hone Hsplit Hbefore Hpre.
  unfold expandPlaceholderedGlob. fold pathPattern. rewrite Hin, Hrec, Hone, Hsplit.
  unfold findIndex.
  rewrite (findIndex_from_first _ before after _ Hbefore (includes_middle pre placeholder post)).
  cbn [Nat.add]. rewrite nth_error_middle.
  unfold indexOf. rewrite (indexOf_placeholder pre post Hpre). cbn [Nat.add].
  fold files. clearbody files. clear Hsplit. split.
  - intro Hfiles.
    induction Hfiles as [|file files Hlen _ IH].
    + exists []. split; [reflexivity | constructor].
    + destruct IH as (paths & Hrun & Hall).
      destruct (proj1 (placeholderedPath_outcome (length before) (String.length pre)
                         sourceLocale (path_relative_to_cwd file)) Hlen)
        as (out & Hout).
      exists (out :: paths). split.
      * cbn [map map_attempt]. rewrite Hout, Hrun. reflexivity.
      * constructor; [|exact Hall].
        intros sbefore rest safter Hfile Hsame. rewrite <- Hsame in Hout.
        rewrite (placeholderedPath_segment _ _ _ _ _ _ Hfile) in Hout.
        now injection Hout as <-.
  - intro Hshort. apply map_attempt_Failed.
    + intros p _.
      destruct (Nat.lt_ge_cases (length before) (length (JsString.split sep p))) as [H | H].
      * left. exact (proj1 (placeholderedPath_outcome _ _ _ _) H).
      * right. exact (proj2 (placeholderedPath_outcome _ _ _ _) H).
    + apply Exists_exists in Hshort. destruct Hshort as (file & Hfile & Hlen).
      apply Exists_exists. exists (path_relative_to_cwd file).
      split; [now apply in_map|].
      exact (proj2 (placeholderedPath_outcome _ _ _ _) Hlen).
Qed.

End BucketFacts.

Section BucketInstances.

Import Buckets.
Import Example.

(** X26 at the pattern [README.md]. *)
Lemma expandPlaceholderedGlob_without_placeholder_witness :
  expandPlaceholderedGlob "/" resolve_in_work relative_to_work found "README.md" "en"
  = Done ["README.md"].
Proof.
  exact (expandPlaceholderedGlob_without_placeholder "/" resolve_in_work relative_to_work
           found "README.md" "en" eq_refl eq_refl eq_refl).
Defined.

(** X27 at the pattern [locales/[locale]/*.json] and the source locale
    [en], and at a pattern with braces for which [glob] finds a file
    outside the directory of the locale. *)
Lemma expandPlaceholderedGlob_placeholder_witness :
  expandPlaceholderedGlob "/" resolve_in_work relative_to_work found
                          "locales/[locale]/*.json" "en"
  = Done ["locales/[locale]/app.json"; "locales/[locale]/errors.json"]
  /\ expandPlaceholderedGlob "/" resolve_in_work relative_to_work found
                             "{i18n,locales/en}/[locale].json" "en"
     = Failed no_segment.
Proof.
  split.
  - destruct (expandPlaceholderedGlob_placeholder "/" resolve_in_work relative_to_work
                found "locales/[locale]/*.json" "en" ["locales"] ["*.json"] "" ""
                eq_refl eq_refl eq_refl eq_refl eq_refl eq_refl) as [Hreturns _].
    destruct Hreturns as (paths & Hrun & Hall).
    + repeat constructor.
    + rewrite Hrun. f_equal.
      inversion Hall as [|file1 out1 files1 paths1 H1 Hall1]; subst.
      inversion Hall1 as [|file2 out2 files2 paths2 H2 Hall2]; subst.
      inversion Hall2; subst.
      rewrite (H1 ["locales"] "" ["app.json"] eq_refl eq_refl).
      rewrite (H2 ["locales"] "" ["errors.json"] eq_refl eq_refl).
      reflexivity.
  - apply (expandPlaceholderedGlob_placeholder "/" resolve_in_work relative_to_work
             found "{i18n,locales/en}/[locale].json" "en" ["{i18n,locales"; "en}"] []
             "" ".json" eq_refl eq_refl eq_refl eq_refl eq_refl eq_refl).
    apply Exists_cons_hd. simpl. lia.
Defined.

End BucketInstances.

(* ================================================================== *)
(** ** The configuration of a constructed engine *)

Section ConstructionFacts.

Import Construction.

Variable valid_url : string -> bool.
Variable ZodError : rawConfig -> error.

Lemma bounded_range (lower upper d : Z) (raw : option number) (n : nat) :
  (lower < d <= upper)%Z -> (0 <= lower)%Z ->
  bounded lower upper d raw = Some n ->
  (Z.to_nat lower < n <= Z.to_nat upper) /\ (raw = None -> n = Z.to_nat d).
Proof.
  intros Hd Hl. unfold bounded. destruct raw as [[z|]|]; intro H.
  - destruct ((lower <? z) && (z <=? upper))%Z eqn:E; [|discriminate].
    injection H as <-. apply andb_true_iff in E. destruct E as [E1 E2].
    apply Z.ltb_lt in E1. apply Z.leb_le in E2. split; [lia | discriminate].
  - discriminate.
  - injection H as <-. split; [lia | reflexivity].
Qed.

(** X28: the configuration of every engine that the constructor builds
    has a batch size from 1 to 250 and a word limit from 1 to 2500, 25
    and 250 when they are not given; so every chunk that such an engine
    makes of a payload, and every request it sends, holds at least one
    and at most 250 entries. *)
Theorem constructed_engine_chunks (raw : rawConfig) (cfg : config) :
  engineParamsSchema_parse valid_url ZodError raw = Ok cfg ->
  (1 <= batchSize cfg <= 250 /\ 1 <= idealBatchItemSize cfg <= 2500)
  /\ (raw_batchSize raw = None -> batchSize cfg = 25)
  /\ (raw_idealBatchItemSize raw = None -> idealBatchItemSize cfg = 250)
  /\ forall payload,
       JsObject.wf payload ->
       Forall (fun chunk => 1 <= length chunk <= 250) (extractPayloadChunks cfg payload).
Proof.
  unfold engineParamsSchema_parse. intro H.
  destruct (raw_apiKey raw) as [key|]; [|discriminate].
  destruct (url_or_default valid_url (raw_apiUrl raw)) as [url|]; [|discriminate].
  destruct (bounded 0 250 25 (raw_batchSize raw)) as [size|] eqn:Hsize; [|discriminate].
  destruct (bounded 0 2500 250 (raw_idealBatchItemSize raw)) as [words|] eqn:Hwords;
    [|discriminate].
  injection H as <-. simpl.
  destruct (bounded_range 0 250 25 _ _ ltac:(lia) ltac:(lia) Hsize) as [Hs Hsd].
  destruct (bounded_range 0 2500 250 _ _ ltac:(lia) ltac:(lia) Hwords) as [Hw Hwd].
  change (Z.to_nat 0) with 0 in Hs, Hw. change (Z.to_nat 250) with 250 in Hs, Hwd.
  change (Z.to_nat 2500) with 2500 in Hw. change (Z.to_nat 25) with 25 in Hsd.
  split; [lia|]. split; [exact Hsd|]. split; [exact Hwd|].
  intros payload Hwf.
  set (cfg := {| apiKey := key; apiUrl := url; batchSize := size;
                 idealBatchItemSize := words |}).
  pose proof (extractPayloadChunks_loop_sizes cfg (length payload) payload 0 [] []
                ltac:(simpl; lia) Hwf ltac:(constructor)) as Hall.
  unfold extractPayloadChunks, JsObject.entries.
  eapply Forall_impl; [|exact Hall]. simpl. intros chunk Hc. lia.
Qed.

End ConstructionFacts.

(** X28 at a configuration that gives the key only, and at a batch size
    of 300, which the schema refuses. *)
Lemma constructed_engine_chunks_witness :
  (1 <= batchSize Example.config25 <= 250
   /\ 1 <= idealBatchItemSize Example.config25 <= 2500)
  /\ Construction.engineParamsSchema_parse (fun _ => true)
       (fun _ => Example.ZodError Example.params)
       {| Construction.raw_apiKey := Some "key"; Construction.raw_apiUrl := None;
          Construction.raw_batchSize := None;
          Construction.raw_idealBatchItemSize := None |}
     = Ok Example.config25
  /\ Construction.engineParamsSchema_parse (fun _ => true)
       (fun _ => Example.ZodError Example.params)
       {| Construction.raw_apiKey := Some "key"; Construction.raw_apiUrl := None;
          Construction.raw_batchSize := Some (Construction.Integer 300);
          Construction.raw_idealBatchItemSize := None |}
     = Throw (Example.ZodError Example.params).
Proof.
  split; [|split; reflexivity].
  exact (proj1 (constructed_engine_chunks (fun _ => true)
                  (fun _ => Example.ZodError Example.params)
                  {| Construction.raw_apiKey := Some "key";
                     Construction.raw_apiUrl := None;
                     Construction.raw_batchSize := None;
                     Construction.raw_idealBatchItemSize := None |}
                  Example.config25 eq_refl)).
Defined.

(* ================================================================== *)
(** ** The calls of the progress callback *)

Section ProgressFacts.

Variable Env : Type.
Variable signal_aborted : Env -> bool.
Variable fetch : request -> Env -> result response * Env.
Variable createId : Env -> string * Env.
Variable localeCodeSchema : string -> bool.
Variable ZodError : localizationParams -> error.
Variable cfg : config.

Local Abbreviation world := (Engine.world (Recorder.recorded Env)).
Local Abbreviation events w := (snd (env (w : world))).
Local Abbreviation _localizeRaw_loop :=
  (Engine._localizeRaw_loop (Recorder.aborted signal_aborted) (Recorder.fetching fetch)
                            Recorder.callback cfg).
Local Abbreviation _localizeRaw :=
  (Engine._localizeRaw (Recorder.aborted signal_aborted) (Recorder.fetching fetch)
                       (Recorder.drawing createId) Recorder.callback localeCodeSchema
                       ZodError cfg).
Local Abbreviation request_of params workflowId :=
  (fun chunk : object =>
     chunk_request cfg (sourceLocale params) (targetLocale params) chunk
                   (reference params) workflowId
                   (match fast params with Some b => b | None => false end)).





End ProgressFacts.

Section ProgressInstances.

Import Example.

(** X29 at the three-entry payload with one entry per chunk: with a
    provider that cannot be reached the first request fails and the
    callback is never called. *)
Lemma _localizeRaw_progress_instance :
  snd (env (snd (Engine._localizeRaw (Recorder.aborted no_signal)
                   (Recorder.fetching unreachable) (Recorder.drawing createId)
                   Recorder.callback localeCodeSchema ZodError config1 payload3 params
                   {| env := (tt, []); sent := [] |})))
  = [Recorder.Fetched
       (chunk_request config1 (Some "en") "es" [("7", VStr "seven")] None "workflow-1"
                      false)
       (Throw (TypeError "fetch failed"))].
Proof. reflexivity. Qed.

End ProgressInstances.
